(** * LRCGen: the LRC codec, the ID3 tag reader, the WAV encoder and the
      track orchestrator, embedded from the TypeScript sources.

    JavaScript strings are sequences of UTF-16 code units; they are modelled
    as lists of [N].  JavaScript numbers that hold times are doubles: each is
    modelled by the rational number it denotes, and every operation on them
    rounds its exact result to the nearest double, ties to even, as IEEE 754
    binary64 does.  Host functions that are not part of the repository
    (TextDecoder, String.prototype.toLowerCase, the audio decoder, the
    transcription service) are Section variables. *)

From Stdlib Require Import String Ascii.
From Stdlib Require Import NArith ZArith QArith Qround Qabs Qpower.
From Stdlib Require Import List Lia Lqa Bool.
From Stdlib Require Import Sorting.Sorted Sorting.Permutation.
Import ListNotations.

Local Open Scope N_scope.
Local Open Scope list_scope.

(* ================================================================== *)
(** * JavaScript strings *)
(* ================================================================== *)

Module JS.

Definition code_unit := N.
Definition jsstring := list code_unit.

(** A string literal of the source (7-bit text) as a list of code units. *)
Definition js (s : string) : jsstring :=
  map N_of_ascii (list_ascii_of_string s).

(** ECMAScript LineTerminator: LF, CR, LS, PS. *)
Definition isLineTerminator (c : code_unit) : bool :=
  (c =? 10) || (c =? 13) || (c =? 0x2028) || (c =? 0x2029).

(** ECMAScript WhiteSpace: TAB, VT, FF, ZWNBSP and the space separators. *)
Definition isWhiteSpace (c : code_unit) : bool :=
  (c =? 9) || (c =? 11) || (c =? 12) || (c =? 32) || (c =? 160) ||
  (c =? 0x1680) || ((0x2000 <=? c) && (c <=? 0x200A)) ||
  (c =? 0x202F) || (c =? 0x205F) || (c =? 0x3000) || (c =? 0xFEFF).

(** What String.prototype.trim removes at both ends. *)
Definition isTrimmed (c : code_unit) : bool :=
  isWhiteSpace c || isLineTerminator c.

Fixpoint dropWhile {A} (p : A -> bool) (l : list A) : list A :=
  match l with
  | [] => []
  | x :: l' => if p x then dropWhile p l' else l
  end.

Definition trimStart (s : jsstring) : jsstring := dropWhile isTrimmed s.
Definition trimEnd (s : jsstring) : jsstring :=
  rev (dropWhile isTrimmed (rev s)).
Definition trim (s : jsstring) : jsstring := trimEnd (trimStart s).

(** A string that neither begins nor ends with white space or a line
    terminator. *)
Definition bare (t : jsstring) : Prop :=
  (forall c r, t = c :: r -> isTrimmed c = false) /\
  (forall c r, t = r ++ [c] -> isTrimmed c = false).

(** [t] is [s] without the white space and the line terminators at its two
    ends. *)
Definition trimmedOf (s t : jsstring) : Prop :=
  exists pre post,
    s = pre ++ t ++ post /\
    Forall (fun c => isTrimmed c = true) pre /\
    Forall (fun c => isTrimmed c = true) post /\
    bare t.

Fixpoint eqb (s t : jsstring) : bool :=
  match s, t with
  | [], [] => true
  | a :: s', b :: t' => (a =? b) && eqb s' t'
  | _, _ => false
  end.

(** [s.startsWith(p)] *)
Fixpoint startsWith (s p : jsstring) : bool :=
  match p, s with
  | [], _ => true
  | a :: p', b :: s' => (a =? b) && startsWith s' p'
  | _ :: _, [] => false
  end.

(** [s.includes(p)] *)
Fixpoint includes (s p : jsstring) : bool :=
  startsWith s p ||
  match s with
  | [] => false
  | _ :: s' => includes s' p
  end.

(** [s.split(sep)] for a non-empty separator: the scan goes left to right;
    at each position where [sep] starts the current segment is closed and the
    scan resumes after the separator ([skip] counts the code units of the
    separator still to pass over). *)
Fixpoint split_go (sep : jsstring) (skip : nat) (cur s : jsstring)
  : list jsstring :=
  match s with
  | [] => [cur]
  | c :: s' =>
      match skip with
      | S k => split_go sep k cur s'
      | O =>
          if startsWith s sep
          then cur :: split_go sep (length sep - 1) [] s'
          else split_go sep 0 (cur ++ [c]) s'
      end
  end.

Definition split (s sep : jsstring) : list jsstring := split_go sep 0 [] s.

(** [parts.join(sep)] *)
Fixpoint join (parts : list jsstring) (sep : jsstring) : jsstring :=
  match parts with
  | [] => []
  | [p] => p
  | p :: rest => p ++ sep ++ join rest sep
  end.

(** JavaScript truthiness of an optional string: [undefined] and the empty
    string are falsy. *)
Definition truthy (o : option jsstring) : bool :=
  match o with
  | Some (_ :: _) => true
  | _ => false
  end.

End JS.

Import JS.

(* ================================================================== *)
(** * fileUtils.ts: parseMetadataFromFilename *)
(* ================================================================== *)

Module Filename.

Record Metadata := mkMetadata {
  title : option jsstring;
  artist : option jsstring
}.

(** The class [[^/.]] of the extension pattern. *)
Definition extChar (c : code_unit) : bool :=
  negb (c =? 47) && negb (c =? 46).

(** [[^/.]+$] matched against the whole of [s]. *)
Definition extBody (s : jsstring) : bool :=
  match s with
  | [] => false
  | _ :: _ => forallb extChar s
  end.

(** [s.replace(/\.[^/.]+$/, "")]: the pattern is tried at each position from
    the left; a match runs to the end of the string and is deleted. *)
Fixpoint stripExtension (s : jsstring) : jsstring :=
  match s with
  | [] => []
  | c :: s' =>
      if (c =? 46) && extBody s' then [] else c :: stripExtension s'
  end.

(** An extension in the sense of the pattern: at least one code unit, none
    of them a slash or a dot. *)
Definition plainExt (ext : jsstring) : Prop :=
  ext <> [] /\ Forall (fun c => c <> 47 /\ c <> 46) ext.

Definition separator : jsstring := js " - ".

Definition parseMetadataFromFilename (filename : jsstring) : Metadata :=
  let name := stripExtension filename in
  if includes name separator then
    let parts := split name separator in
    if (2 <=? length parts)%nat then
      {| artist := Some (trim (hd [] parts));
         title := Some (trim (join (tl parts) separator)) |}
    else {| title := Some name; artist := None |}
  else {| title := Some name; artist := None |}.

End Filename.

(* ================================================================== *)
(** * fileUtils.ts: getTrackMetadata (the ID3v2 reader and the merge) *)
(* ================================================================== *)

Module Id3.

Import Filename.

(** How a JavaScript call ends: with a value, or with an exception that
    reaches the caller. *)
Inductive completion (A : Type) : Type :=
| Normal (v : A)
| Abrupt.
Arguments Normal {A} v.
Arguments Abrupt {A}.

(** Byte reads return [None] where the host throws a RangeError. *)
Notation "x <- e ;; k" :=
  (match e with Some x => k | None => None end)
  (at level 61, e at next level, right associativity).

Definition byteLength (buffer : list N) : N := N.of_nat (length buffer).

(** [view.getUint8(i)] *)
Definition getUint8 (buffer : list N) (i : N) : option N :=
  nth_error buffer (N.to_nat i).

(** [view.getUint32(i, false)]: big-endian. *)
Definition getUint32 (buffer : list N) (i : N) : option N :=
  b0 <- getUint8 buffer i ;;
  b1 <- getUint8 buffer (i + 1) ;;
  b2 <- getUint8 buffer (i + 2) ;;
  b3 <- getUint8 buffer (i + 3) ;;
  Some (b0 * 16777216 + b1 * 65536 + b2 * 256 + b3).

(** The synchsafe integer of the four bytes at [i]: seven bits a byte. *)
Definition synchsafe (buffer : list N) (i : N) : option N :=
  b0 <- getUint8 buffer i ;;
  b1 <- getUint8 buffer (i + 1) ;;
  b2 <- getUint8 buffer (i + 2) ;;
  b3 <- getUint8 buffer (i + 3) ;;
  Some (N.lor (N.lor (N.lor (N.shiftl (N.land b0 0x7F) 21)
                            (N.shiftl (N.land b1 0x7F) 14))
                     (N.shiftl (N.land b2 0x7F) 7))
              (N.land b3 0x7F)).

(** [new Uint8Array(buffer, start, frameSize - 1)]: a RangeError when the
    length is negative or the window leaves the buffer. *)
Definition uint8Window (buffer : list N) (start frameSize : N)
  : option (list N) :=
  if frameSize =? 0 then None
  else if byteLength buffer <? start + (frameSize - 1) then None
  else Some (firstn (N.to_nat (frameSize - 1)) (skipn (N.to_nat start) buffer)).

(** The test [ID3] of the first three bytes, with the short circuit of
    [&&]: a byte is read only when the ones before it matched. *)
Definition hasMagic (buffer : list N) : option bool :=
  b0 <- getUint8 buffer 0 ;;
  if b0 =? 0x49 then
    b1 <- getUint8 buffer 1 ;;
    if b1 =? 0x44 then
      b2 <- getUint8 buffer 2 ;;
      Some (b2 =? 0x33)
    else Some false
  else Some false.

Definition TIT2 : jsstring := js "TIT2".
Definition TPE1 : jsstring := js "TPE1".

(** [s.replace(/\0/g, '')] *)
Definition removeNul (s : jsstring) : jsstring :=
  filter (fun c => negb (c =? 0)) s.

Record Tags := mkTags {
  id3Title : option jsstring;
  id3Artist : option jsstring
}.

(** The two guarded assignments that close a text frame. *)
Definition record (st : Tags) (frameId text : jsstring) : Tags :=
  let st1 :=
    if JS.eqb frameId TIT2 && negb (length text =? 0)%nat
    then {| id3Title := Some text; id3Artist := id3Artist st |} else st in
  if JS.eqb frameId TPE1 && negb (length text =? 0)%nat
  then {| id3Title := id3Title st1; id3Artist := Some text |} else st1.

(** One turn of the frame loop. *)
Inductive turn : Type :=
| Break
| Throw
| Continue (offset : N) (frame : option (jsstring * jsstring)).

Section Reader.

(** The host's [new TextDecoder(label).decode(bytes)]; the flag chooses the
    label [utf-16] over [utf-8]; [None] stands for an exception. *)
Variable TextDecoder_decode : bool -> list N -> option jsstring.

(** The inner try/catch: the decoded text, or the bytes as code units when
    the decoder throws. *)
Definition decodeText (encoding : N) (textBytes : list N) : jsstring :=
  match TextDecoder_decode ((encoding =? 1) || (encoding =? 2)) textBytes with
  | Some s => trim (removeNul s)
  | None => trim (removeNul textBytes)
  end.

Variable buffer : list N.
Variable version size limit : N.

Definition frameTurn (offset : N) : turn :=
  if limit <? offset + 10 then Break else
  match
    id1 <- getUint8 buffer offset ;;
    id2 <- getUint8 buffer (offset + 1) ;;
    id3 <- getUint8 buffer (offset + 2) ;;
    id4 <- getUint8 buffer (offset + 3) ;;
    if id1 =? 0 then Some Break else
    let frameId := [id1; id2; id3; id4] in
    raw <- getUint32 buffer (offset + 4) ;;
    frameSize <-
      (if (version =? 4) && (size <? raw)
       then synchsafe buffer (offset + 4) else Some raw) ;;
    let offset := offset + 10 in
    if limit <? offset + frameSize then Some Break else
    if JS.eqb frameId TIT2 || JS.eqb frameId TPE1 then
      encoding <- getUint8 buffer offset ;;
      textBytes <- uint8Window buffer (offset + 1) frameSize ;;
      Some (Continue (offset + frameSize)
                     (Some (frameId, decodeText encoding textBytes)))
    else Some (Continue (offset + frameSize) None)
  with
  | Some t => t
  | None => Throw
  end.

(** [while (offset < limit)]: the tags assigned so far, and whether the
    loop was left by an exception. [None] when the fuel runs out. *)
Fixpoint walk (fuel : nat) (offset : N) (st : Tags) : option (Tags * bool) :=
  match fuel with
  | O => None
  | S fuel' =>
      if offset <? limit then
        match frameTurn offset with
        | Break => Some (st, false)
        | Throw => Some (st, true)
        | Continue offset' None => walk fuel' offset' st
        | Continue offset' (Some (frameId, text)) =>
            walk fuel' offset' (record st frameId text)
        end
      else Some (st, false)
  end.

(** The text frames the loop decodes, in the order of the walk. *)
Fixpoint decoded (fuel : nat) (offset : N) : list (jsstring * jsstring) :=
  match fuel with
  | O => []
  | S fuel' =>
      if offset <? limit then
        match frameTurn offset with
        | Continue offset' None => decoded fuel' offset'
        | Continue offset' (Some f) => f :: decoded fuel' offset'
        | _ => []
        end
      else []
  end.

End Reader.

Section GetTrackMetadata.

Variable TextDecoder_decode : bool -> list N -> option jsstring.

Definition noTags : Tags := {| id3Title := None; id3Artist := None |}.

(** The body of the outer [try]: [Some (st, threw)]. *)
Definition readTags (buffer : list N) : option (Tags * bool) :=
  match hasMagic buffer with
  | None => Some (noTags, true)
  | Some false => Some (noTags, false)
  | Some true =>
      match
        version <- getUint8 buffer 3 ;;
        size <- synchsafe buffer 6 ;;
        Some (version, size)
      with
      | None => Some (noTags, true)
      | Some (version, size) =>
          let limit := N.min (size + 10) (byteLength buffer) in
          walk TextDecoder_decode buffer version size limit
               (S (length buffer)) 10 noTags
      end
  end.

(** The text frames that [readTags] decodes from a buffer. *)
Definition framesOf (buffer : list N) : list (jsstring * jsstring) :=
  match hasMagic buffer with
  | Some true =>
      match
        version <- getUint8 buffer 3 ;;
        size <- synchsafe buffer 6 ;;
        Some (version, size)
      with
      | Some (version, size) =>
          let limit := N.min (size + 10) (byteLength buffer) in
          decoded TextDecoder_decode buffer version size limit
                  (S (length buffer)) 10
      | None => []
      end
  | _ => []
  end.

(** [id3 && id3.trim().length > 0] *)
Definition usable (o : option jsstring) : bool :=
  match o with
  | Some s => truthy o && negb (length (trim s) =? 0)%nat
  | None => false
  end.

(** The priority merge after the [try]. *)
Definition mergeMetadata (st : Tags) (filename : jsstring) : Metadata :=
  let filenameMetadata := parseMetadataFromFilename filename in
  let finalTitle :=
    if usable (id3Title st) then id3Title st else title filenameMetadata in
  let finalArtist :=
    if usable (id3Artist st) then id3Artist st
    else if truthy (artist filenameMetadata) then artist filenameMetadata
         else Some (js "Unknown") in
  {| title := finalTitle; artist := finalArtist |}.

(** [file.slice(0, 128 * 1024)] *)
Definition slice128k (file : list N) : list N := firstn (128 * 1024) file.

(** [getTrackMetadata(file)]: [contents] is what [arrayBuffer()] resolves
    to, [None] when the read is rejected.  The outer [catch] only logs.
    The result is [None] when the frame loop runs out of fuel. *)
Definition getTrackMetadata (contents : option (list N)) (name : jsstring)
  : option (completion Metadata) :=
  match contents with
  | None => Some (Normal (mergeMetadata noTags name))
  | Some file =>
      match readTags (slice128k file) with
      | None => None
      | Some (st, _) => Some (Normal (mergeMetadata st name))
      end
  end.

End GetTrackMetadata.

(** The first and the last non-empty text among the frames of an
    identifier. *)
Fixpoint firstNonEmpty (frameId : jsstring)
  (frames : list (jsstring * jsstring)) : option jsstring :=
  match frames with
  | [] => None
  | (f, t) :: rest =>
      if JS.eqb f frameId && negb (length t =? 0)%nat then Some t
      else firstNonEmpty frameId rest
  end.

Definition lastNonEmpty (frameId : jsstring)
  (frames : list (jsstring * jsstring)) : option jsstring :=
  firstNonEmpty frameId (rev frames).

(** A file does not open with the magic [ID3]: it cannot be read, or its
    first three bytes are others (or are not there). *)
Definition lacksMagic (contents : option (list N)) : Prop :=
  match contents with
  | None => True
  | Some file =>
      ~ exists rest, slice128k file = 0x49 :: 0x44 :: 0x33 :: rest
  end.

(** A tag field that holds nothing once trimmed. *)
Definition blank (o : option jsstring) : Prop :=
  match o with
  | None => True
  | Some t => trim t = []
  end.

(** A decoder for test vectors: on 7-bit input the host's UTF-8 decoder
    yields the bytes as code units. *)
Definition asciiDecoder (utf16 : bool) (bytes : list N) : option jsstring :=
  Some bytes.

(** A text frame of length below 128, with its ten-byte header. *)
Definition frame (frameId : string) (payload : list N) : list N :=
  js frameId ++ [0; 0; 0; N.of_nat (length payload)] ++ [0; 0] ++ payload.

(** An ID3v2.3 tag with two title frames, A and then B, both UTF-8. *)
Definition twoTitles : list N :=
  js "ID3" ++ [3; 0; 0] ++ [0; 0; 0; 24] ++
  frame "TIT2" [3; 65] ++ frame "TIT2" [3; 66] ++ [0; 0].


End Id3.

(* ================================================================== *)
(** * JavaScript numbers: IEEE 754 binary64 *)
(* ================================================================== *)

Module Double.
Local Open Scope Q_scope.

(** A finite double is the rational number it denotes.  The result of an
    operation is its exact result rounded to the nearest double, ties to
    the even significand; below the smallest normal binade (exponent -1022)
    the spacing stays that of this binade (gradual underflow).  Overflow is
    not modelled: the times of the program are far below 2^1024. *)

Definition pow2 (e : Z) : Q := 2 ^ e.

(** The exponent of the binade of [a > 0]: [2^e <= a < 2^(e+1)]. *)
Definition ilog2 (a : Q) : Z :=
  let e := (Z.log2 (Qnum a) - Z.log2 (Zpos (Qden a)))%Z in
  if Qle_bool (pow2 e) a then e else (e - 1)%Z.

(** The integer nearest to [m], the even one of two. *)
Definition roundEven (m : Q) : Z :=
  let f := Qfloor m in
  match Qcompare (m - inject_Z f) (1 # 2) with
  | Lt => f
  | Gt => (f + 1)%Z
  | Eq => if Z.even f then f else (f + 1)%Z
  end.

(** The spacing of the doubles in the binade of [a]: 52 fraction bits. *)
Definition quantum (a : Q) : Q := pow2 (Z.max (ilog2 a) (-1022) - 52).

Definition rndAbs (a : Q) : Q :=
  inject_Z (roundEven (a / quantum a)) * quantum a.

(** The double nearest to [x], in lowest terms. *)
Definition rnd (x : Q) : Q :=
  match Qcompare x 0 with
  | Eq => 0
  | Gt => Qred (rndAbs x)
  | Lt => - Qred (rndAbs (- x))
  end.

Definition isDouble (x : Q) : Prop := rnd x = x.

(** [x + y], [x - y], [x * y] and [x / y] *)
Definition fadd (x y : Q) : Q := rnd (x + y).
Definition fsub (x y : Q) : Q := rnd (x - y).
Definition fmul (x y : Q) : Q := rnd (x * y).
Definition fdiv (x y : Q) : Q := rnd (x / y).

(** The integer part of [q], towards zero. *)
Definition truncate (q : Q) : Z := Z.quot (Qnum q) (Z.pos (Qden q)).

(** [x % y]: the remainder of the truncated division, which is exact. *)
Definition fmod (x y : Q) : Q :=
  Qred (x - y * inject_Z (truncate (x / y))).

(** [Math.max(0, v)] *)
Definition max0 (v : Q) : Q := if Qle_bool v 0 then 0 else v.

End Double.

(* ================================================================== *)
(** * LrcResult: parseLrc and stringifyLrc *)
(* ================================================================== *)

Module Lrc.

Import Double.

(** [id] is the line index of [`line-${index}`]; [seconds] is the double
    that holds the time. *)
Record LrcLine := mkLine {
  id : N;
  seconds : Q;
  text : jsstring
}.

(** [\d] *)
Definition isDigit (c : code_unit) : bool := (48 <=? c) && (c <=? 57).
Definition digitValue (c : code_unit) : N := c - 48.

(** The last group of the pattern, any run of [.]: the longest run
    without a line terminator. *)
Fixpoint dotStar (s : jsstring) : jsstring :=
  match s with
  | [] => []
  | c :: s' => if isLineTerminator c then [] else c :: dotStar s'
  end.

(** [line.match] on the timestamp pattern: an opening bracket, two digits,
    a colon, two digits, a dot, two or three digits, a closing bracket, then
    any run of [.].  The groups are the two minute digits, the seconds
    digits with the fraction digits, and the text. *)
Definition matchLine (line : jsstring)
  : option (jsstring * (jsstring * jsstring) * jsstring) :=
  match line with
  | lb :: m1 :: m2 :: colon :: s1 :: s2 :: dot :: f1 :: f2 :: rest =>
      if (lb =? 91) && isDigit m1 && isDigit m2 && (colon =? 58) &&
         isDigit s1 && isDigit s2 && (dot =? 46) && isDigit f1 && isDigit f2
      then
        match rest with
        | c :: rest1 =>
            if isDigit c then
              match rest1 with
              | rb :: rest2 =>
                  if rb =? 93
                  then Some ([m1; m2], ([s1; s2], [f1; f2; c]), dotStar rest2)
                  else None
              | [] => None
              end
            else if c =? 93
                 then Some ([m1; m2], ([s1; s2], [f1; f2]), dotStar rest1)
                 else None
        | [] => None
        end
      else None
  | _ => None
  end.

(** [parseInt] of a run of decimal digits. *)
Definition parseInt (ds : jsstring) : N :=
  fold_left (fun acc d => 10 * acc + digitValue d) ds 0.

(** [parseFloat] of [ss.ff] or [ss.fff]: the double nearest to the decimal
    number written. *)
Definition parseFloat (whole frac : jsstring) : Q :=
  rnd (inject_Z (Z.of_N (parseInt (whole ++ frac))) /
       inject_Z (10 ^ Z.of_nat (length frac))).

Definition parseLine (index : N) (line : jsstring) : option LrcLine :=
  match matchLine line with
  | Some (g1, (whole, frac), g3) =>
      let min := inject_Z (Z.of_N (parseInt g1)) in
      let sec := parseFloat whole frac in
      Some {| id := index;
              seconds := fadd (fmul min 60) sec;
              text := trim g3 |}
  | None => None
  end.

(** [lines.forEach((line, index) => ...)] with its [result.push]. *)
Fixpoint collect (index : N) (lines : list jsstring) : list LrcLine :=
  match lines with
  | [] => []
  | line :: rest =>
      match parseLine index line with
      | Some l => l :: collect (index + 1) rest
      | None => collect (index + 1) rest
      end
  end.

(** [(a, b) => a.seconds - b.seconds] *)
Definition compareFn (a b : LrcLine) : Q := fsub (seconds a) (seconds b).

(** [result.sort(compareFn)]: Array.prototype.sort is stable; an insertion
    sort that puts an element before the first one with which the
    comparison is not positive. *)
Fixpoint insert (x : LrcLine) (l : list LrcLine) : list LrcLine :=
  match l with
  | [] => [x]
  | y :: l' =>
      if Qle_bool (compareFn x y) 0 then x :: l else y :: insert x l'
  end.

Fixpoint sort (l : list LrcLine) : list LrcLine :=
  match l with
  | [] => []
  | x :: l' => insert x (sort l')
  end.

Definition LF : jsstring := [10].

Definition parseLrc (lrc : jsstring) : list LrcLine :=
  sort (collect 0 (split lrc LF)).

(** Decimal digits of a number, most significant first. *)
Fixpoint digitsFuel (fuel : nat) (n : N) (acc : jsstring) : jsstring :=
  match fuel with
  | O => acc
  | S fuel' =>
      let acc' := (48 + n mod 10) :: acc in
      if n / 10 =? 0 then acc' else digitsFuel fuel' (n / 10) acc'
  end.

(** [n.toString()] for a non-negative integer. *)
Definition toString (n : N) : jsstring :=
  digitsFuel (S (N.to_nat (N.log2 n))) n [].

(** [n.toString()] for an integer. *)
Definition intToString (z : Z) : jsstring :=
  if (z <? 0)%Z then 45 :: toString (Z.abs_N z) else toString (Z.to_N z).

(** [s.padStart(len, '0')] *)
Definition padStart0 (len : nat) (s : jsstring) : jsstring :=
  repeat 48 (len - length s) ++ s.

(** The integer [n] for which [n / 100 - x] is as close to zero as
    possible, the larger of two such: the hundredths that [toFixed(2)]
    prints. *)
Definition hundredthsOf (x : Q) : Z := Qfloor (x * 100 + (1 # 2)).

Definition twoDigits (n : N) : jsstring := [48 + n / 10; 48 + n mod 10].

Definition fixed2 (x : Q) : jsstring :=
  let n := Z.to_N (hundredthsOf x) in
  toString (n / 100) ++ [46] ++ twoDigits (n mod 100).

(** [x.toFixed(2)], for [x] below 10^21 in magnitude. *)
Definition toFixed2 (x : Q) : jsstring :=
  if Qle_bool 0 x then fixed2 x else 45 :: fixed2 (- x).

(** [Math.floor(seconds / 60)] and [seconds % 60] *)
Definition minutesOf (x : Q) : Z := Qfloor (fdiv x 60).
Definition secondsOf (x : Q) : Q := fmod x 60.

(** One body line. *)
Definition formatLine (line : LrcLine) : jsstring :=
  let min := minutesOf (seconds line) in
  let sec := secondsOf (seconds line) in
  let secStr := padStart0 5 (toFixed2 sec) in
  let minStr := padStart0 2 (intToString min) in
  js "[" ++ minStr ++ js ":" ++ secStr ++ js "] " ++ text line.

Definition header (metadata : option Filename.Metadata) : jsstring :=
  match metadata with
  | Some m =>
      (if truthy (Filename.title m)
       then js "[ti:" ++ match Filename.title m with
                         | Some t => t | None => [] end ++ js "]" ++ LF
       else []) ++
      (if truthy (Filename.artist m)
       then js "[ar:" ++ match Filename.artist m with
                         | Some a => a | None => [] end ++ js "]" ++ LF
       else [])
  | None => []
  end.

Definition stringifyLrc (lines : list LrcLine)
  (metadata : option Filename.Metadata) : jsstring :=
  header metadata ++ join (map formatLine lines) LF.

(** ** What the parser and the serializer are specified to do *)

(** The number that two decimal digits write. *)
Definition decimal2 (d1 d2 : code_unit) : Z :=
  Z.of_N (10 * digitValue d1 + digitValue d2).

(** The number that the fraction digits write behind the dot. *)
Definition fracValue (frac : jsstring) : Q :=
  match frac with
  | [f1; f2] => inject_Z (decimal2 f1 f2) / 100
  | [f1; f2; f3] =>
      inject_Z (10 * decimal2 f1 f2 + Z.of_N (digitValue f3)) / 1000
  | _ => 0
  end.

(** Minutes times 60 plus the seconds, as doubles: the seconds are the
    double nearest to the decimal number [s], and the product and the sum
    are rounded. *)
Definition timeOf (m : Z) (s : Q) : Q :=
  fadd (fmul (inject_Z m) 60) (rnd s).

(** [g] is what follows the header on its line: the characters of [rest]
    up to its first line terminator. *)
Definition lineOf (rest g : jsstring) : Prop :=
  Forall (fun c => isLineTerminator c = false) g /\
  (rest = g \/
   exists c tail, rest = g ++ c :: tail /\ isLineTerminator c = true).

(** A line that begins with a timestamp header, with the time it denotes
    and its text: what follows the header on the line, without the white
    space at its ends. *)
Definition timestamped (line : jsstring) (x : Q) (txt : jsstring) : Prop :=
  exists m1 m2 s1 s2 frac rest g,
    line = [91; m1; m2; 58; s1; s2; 46] ++ frac ++ 93 :: rest /\
    Forall (fun c => isDigit c = true) ([m1; m2; s1; s2] ++ frac) /\
    (length frac = 2 \/ length frac = 3)%nat /\
    x = timeOf (decimal2 m1 m2)
               (inject_Z (decimal2 s1 s2) + fracValue frac)%Q /\
    lineOf rest g /\ trimmedOf g txt.

(** The rounding of one time: 2^-40 seconds bound what the roundings of
    [timeOf] and of a time read back can add up to. *)
Definition eps : Q := 1 # 1099511627776.

(** A line as the parser returns them: its text is trimmed and holds no
    line terminator. *)
Definition wellFormed (l : LrcLine) : Prop :=
  trim (text l) = text l /\
  Forall (fun c => isLineTerminator c = false) (text l).

(** What the round trip compares: the time and the text of a line. *)
Definition view (l : LrcLine) : Q * jsstring := (seconds l, text l).

(** The title and the artist of a header hold no line feed. *)
Definition headerFits (metadata : option Filename.Metadata) : Prop :=
  match metadata with
  | Some m =>
      (forall t, Filename.title m = Some t -> Forall (fun c => c <> 10) t) /\
      (forall a, Filename.artist m = Some a -> Forall (fun c => c <> 10) a)
  | None => True
  end.

(** The two lines of the example of the specification, out of order. *)
Definition twoLines : jsstring :=
  js "[00:12.50] line one" ++ LF ++ js "[00:05.00] line two".

(** A document whose single line carries the largest minutes and seconds
    that the pattern admits. *)
Definition longDocument : jsstring := js "[99:99.00] x".

(** Two ways to write 68.21 seconds: as doubles, 1 * 60 + 8.21 is above
    0 * 60 + 68.21. *)
Definition skewedLines : jsstring :=
  js "[01:08.21] a" ++ LF ++ js "[00:68.21] b".

(** Two ways to write 68.085 seconds, which print as different
    hundredths. *)
Definition tiedLines : jsstring :=
  js "[01:08.085] a" ++ LF ++ js "[00:68.085] b".

(** A time that lies midway between two hundredths, 0.125, and a time
    written 1.005, whose double is below the decimal. *)
Definition midwayLine : jsstring := js "[00:00.125] t".
Definition belowLine : jsstring := js "[00:01.005] la".

(** Lines with white space and a carriage return around and inside their
    texts. *)
Definition paddedLines : jsstring :=
  js "[00:07.50]" ++ [9; 32] ++ js "one  two" ++ [32; 160; 13] ++
  js "three" ++ LF ++ js "[ti: Song]" ++ LF ++ js "[00:01.25]x" ++ [13].

(** Non-decreasing order of time. *)
Definition le_seconds (a b : LrcLine) : Prop := (seconds a <= seconds b)%Q.

(** The order of the parsed lines: by time, and among equal times by the
    index of the input line. *)
Definition before (a b : LrcLine) : Prop :=
  (seconds a < seconds b)%Q \/ (seconds a = seconds b /\ id a < id b).

(** The time that is read back of the minutes [m] and the hundredths [h]
    printed. *)
Definition readTime (m h : Z) : Q := timeOf m (inject_Z h / 100).

(** A time printed and read back. *)
Definition reread (x : Q) : Q :=
  readTime (minutesOf x) (hundredthsOf (secondsOf x)).

(** Two lines that agree at 2-decimal precision: the same text, the same
    hundredths printed, and times no further apart than half a hundredth and
    the rounding of one time. *)
Definition sameAt2 (a p : LrcLine) : Prop :=
  text a = text p /\
  hundredthsOf (seconds a) = hundredthsOf (seconds p) /\
  (Qabs (seconds a - seconds p) <= (1 # 200) + eps)%Q.

(** [line] is the line [p] as it is printed: two minute digits, two second
    digits and exactly two fraction digits, which write the hundredth
    nearest to the time of [p]; then a blank and the text. *)
Definition printedAs (line : jsstring) (p : LrcLine) : Prop :=
  exists m s f,
    m < 100 /\ s < 100 /\ f < 100 /\
    line = [91] ++ twoDigits m ++ [58] ++ twoDigits s ++ [46] ++
           twoDigits f ++ [93; 32] ++ text p /\
    (Qabs (inject_Z (Z.of_N (6000 * m + 100 * s + f)) / 100 - seconds p)
     <= 1 # 200)%Q.

(** The largest double below [60 * k], divided by 60, rounds below [k]:
    a time below [k] minutes never prints [k] minutes. *)
Definition minuteEdge (k : Z) : bool :=
  let b := inject_Z (60 * k) in
  let j := ilog2 b in
  let n := (60 * k * 2 ^ (52 - j))%Z in
  negb (Qle_bool b (pow2 j)) && Qle_bool b (pow2 (j + 1)) &&
  negb (Qle_bool (inject_Z k)
                 (rnd (inject_Z (n - 1) * pow2 (j - 52) / 60))) &&
  (j <=? 52)%Z && (-1022 <=? j)%Z.

Definition minuteEdges : bool :=
  forallb (fun k => minuteEdge (Z.of_nat k)) (seq 1 100).

End Lrc.


(* ================================================================== *)
(** * audioProcessing.ts: bufferToWav *)
(* ================================================================== *)

Module Wav.

Local Open Scope Z_scope.

(** A sample of a channel: a finite value, or NaN (which is also what
    reading past the end of a channel turns into under [Math.min]).  The
    products of a 32-bit float with 32767 and 32768 are exact in a double,
    so rationals compute what the doubles do. *)
Inductive float : Type :=
| Finite (q : Q)
| NaN.

Definition Qltb (a b : Q) : bool := negb (Qle_bool b a).

(** [Math.max(-1, Math.min(1, x))] *)
Definition clampQ (q : Q) : Q :=
  let m := if Qltb 1 q then 1%Q else q in
  if Qltb m (-1) then (-1)%Q else m.

Definition clamp (x : float) : float :=
  match x with
  | Finite q => Finite (clampQ q)
  | NaN => NaN
  end.

(** Truncation towards zero. *)
Definition trunc (q : Q) : Z := Z.quot (Qnum q) (Zpos (Qden q)).

(** [x | 0] on an integral value: ToInt32. *)
Definition toInt32 (z : Z) : Z := (z + 2147483648) mod 4294967296 - 2147483648.

(** [(0.5 + sample < 0 ? sample * 32768 : sample * 32767) | 0] *)
Definition scale (x : float) : Z :=
  match x with
  | Finite s =>
      toInt32 (trunc (if Qltb ((1 # 2) + s) 0
                      then (s * 32768)%Q else (s * 32767)%Q))
  | NaN => 0
  end.

(** [view.setInt16(_, v, true)]: two bytes, low byte first. *)
Definition int16le (v : Z) : list Z :=
  let u := v mod 65536 in [u mod 256; u / 256].

(** [view.setUint16(pos, data, true)] and [view.setUint32(pos, data, true)] *)
Definition uint16le (v : Z) : list Z :=
  let u := v mod 65536 in [u mod 256; u / 256].
Definition uint32le (v : Z) : list Z :=
  let u := v mod 4294967296 in
  [u mod 256; (u / 256) mod 256; (u / 65536) mod 256; u / 16777216].

(** [channels[i][pos]] *)
Definition sampleAt (channel : list Q) (pos : nat) : float :=
  match nth_error channel pos with
  | Some q => Finite q
  | None => NaN
  end.

(** The inner [for] of the sample loop: one sample of every channel. *)
Definition frameBytes (channels : list (list Q)) (pos : nat) : list Z :=
  flat_map (fun ch => int16le (scale (clamp (sampleAt ch pos)))) channels.

Definition wavHeader (numOfChan sampleRate length : Z) : list Z :=
  uint32le 0x46464952 ++ uint32le (length - 8) ++ uint32le 0x45564157 ++
  uint32le 0x20746d66 ++ uint32le 16 ++ uint16le 1 ++ uint16le numOfChan ++
  uint32le sampleRate ++ uint32le (sampleRate * 2 * numOfChan) ++
  uint16le (numOfChan * 2) ++ uint16le 16 ++
  uint32le 0x61746164 ++ uint32le (length - 40 - 4).

(** [bufferToWav(abuffer, len)]: the bytes of the blob.  The header leaves
    [pos] at 44, and the sample loop [while (pos < len)] goes on from that
    value of [pos]; the bytes it does not reach stay zero. *)
Definition bufferToWav (channels : list (list Q)) (sampleRate : Z)
  (len : nat) : list Z :=
  let numOfChan := Z.of_nat (length channels) in
  let length := Z.of_nat len * numOfChan * 2 + 44 in
  let written :=
    wavHeader numOfChan sampleRate length ++
    flat_map (frameBytes channels) (seq 44 (len - 44)) in
  written ++ repeat 0 (Z.to_nat length - List.length written).


End Wav.

(* ================================================================== *)
(** * geminiService.ts: generateLrcFromAudio *)
(* ================================================================== *)

Module Gemini.

Definition MAX_RETRIES : nat := 3.
Definition BASE_DELAY : Q := 2000.

(** A thrown error: [error.status], [error.response?.status] and
    [error.message]. *)
Record ApiError := mkError {
  status : option N;
  responseStatus : option N;
  message : jsstring
}.

(** [new Error(msg)] *)
Definition newError (msg : string) : ApiError :=
  {| status := None; responseStatus := None; message := js msg |}.

(** What [ai.models.generateContent] does on one attempt: it resolves with
    a response whose [text] may be missing, or it throws. *)
Inductive attemptResult : Type :=
| Response (text : option jsstring)
| Failure (e : ApiError).

Inductive completion (A : Type) : Type :=
| Returned (v : A)
| Thrown (e : ApiError).
Arguments Returned {A} v.
Arguments Thrown {A} e.

(** [error.status || error.response?.status] *)
Definition statusOf (e : ApiError) : option N :=
  match status e with
  | Some 0 | None => responseStatus e
  | Some s => Some s
  end.

Definition isTerminal (e : ApiError) : bool :=
  match statusOf e with
  | Some s => (s =? 400)%N || (s =? 401)%N || (s =? 403)%N || (s =? 404)%N
  | None => false
  end.

(** [s.replace(/^p/, "")] and [s.replace(/p$/, "")] for a literal [p]. *)
Fixpoint dropPrefix (p s : jsstring) : option jsstring :=
  match p, s with
  | [], _ => Some s
  | a :: p', b :: s' => if (a =? b)%N then dropPrefix p' s' else None
  | _ :: _, [] => None
  end.
Definition replacePrefix (p s : jsstring) : jsstring :=
  match dropPrefix p s with Some r => r | None => s end.
Definition replaceSuffix (p s : jsstring) : jsstring :=
  match dropPrefix (rev p) (rev s) with Some r => rev r | None => s end.

Definition fence : jsstring := [96; 96; 96]%N.
Definition fenceLrc : jsstring := fence ++ js "lrc".

(** The clean-up of the generated text. *)
Definition cleanUp (text : jsstring) : jsstring :=
  let cleanText := trim text in
  let cleanText :=
    if startsWith cleanText fenceLrc
    then replaceSuffix fence (replacePrefix fenceLrc cleanText)
    else if startsWith cleanText fence
         then replaceSuffix fence (replacePrefix fence cleanText)
         else cleanText in
  trim cleanText.

(** The body of the [try] of one attempt: the text returned, or the error
    caught. *)
Definition attemptBody (r : attemptResult) : jsstring + ApiError :=
  match r with
  | Response (Some (c :: t)) => inl (cleanUp (c :: t))
  | Response _ => inr (newError "No text generated from the model.")
  | Failure e => inr e
  end.

(** What a call leaves behind: how it ends, the requests it made and the
    delays it waited, in milliseconds. *)
Record Run := mkRun {
  outcome : completion jsstring;
  requests : nat;
  delays : list Q
}.

(** [throw lastError || new Error(...)] after the loop; a caught error is an
    object, hence truthy. *)
Definition rethrow (lastError : option ApiError) : completion jsstring :=
  Thrown (match lastError with
          | Some e => e
          | None =>
              newError "Failed to generate content after multiple attempts."
          end).

Section Generate.

(** The service's answer to the request of each attempt, and the values
    [Math.random()] returns after each failed attempt. *)
Variable call : nat -> attemptResult.
Variable random : nat -> Q.

(** [BASE_DELAY * Math.pow(2, attempt) + (Math.random() * 1000)] *)
Definition delayOf (attempt : nat) : Q :=
  (BASE_DELAY * inject_Z (2 ^ Z.of_nat attempt) + random attempt * 1000)%Q.

(** [for (let attempt = 0; attempt <= MAX_RETRIES; attempt++)];
    [remaining] counts the values of [attempt] that are left. *)
Fixpoint attemptLoop (remaining attempt : nat) (lastError : option ApiError)
  (waited : list Q) : Run :=
  match remaining with
  | O =>
      {| outcome := rethrow lastError;
         requests := attempt; delays := waited |}
  | S remaining' =>
      match attemptBody (call attempt) with
      | inl text =>
          {| outcome := Returned text;
             requests := S attempt; delays := waited |}
      | inr error =>
          if (attempt =? MAX_RETRIES)%nat || isTerminal error
          then {| outcome := rethrow (Some error);
                  requests := S attempt; delays := waited |}
          else attemptLoop remaining' (S attempt) (Some error)
                           (waited ++ [delayOf attempt])
      end
  end.

Definition generateLrcFromAudio (apiKey : option jsstring) : Run :=
  if truthy apiKey
  then attemptLoop (S MAX_RETRIES) 0 None []
  else {| outcome := Thrown (newError
            "API Key is missing. Please set it via the 'Set API Key' button or configure your environment.");
          requests := 0; delays := [] |}.

End Generate.




(** Errors of the service: rate limiting, a 404 carried by the response,
    a 404 carried by the error itself over another status of the response,
    and a 403 of the response behind a status 0 of the error. *)
Definition rateLimited : ApiError :=
  {| status := Some 429%N; responseStatus := None;
     message := js "Too Many Requests" |}.

End Gemini.

(* ================================================================== *)
(** * App.tsx: processTrack and handleGenerateAll *)
(* ================================================================== *)

Module Orchestrator.

Inductive Status : Type :=
| PENDING | ISOLATING | GENERATING | COMPLETED | ERROR.

Record Track := mkTrack {
  id : jsstring;
  fileName : jsstring;
  base64 : jsstring;
  mimeType : jsstring;
  originalLyrics : jsstring;
  useIsolation : bool;
  status : Status;
  lrcContent : option jsstring;
  error : option jsstring
}.

(** How an awaited promise settles; a rejection carries [error.message]. *)
Inductive settled : Type :=
| Resolved (v : jsstring)
| Rejected (message : option jsstring).

(** The calls of [setTracks] that [processTrack] makes; each one maps over
    the collection and rewrites the track of the given id. *)
Inductive update : Type :=
| Start (i : jsstring)
| Generating (i : jsstring)
| Complete (i : jsstring) (result : jsstring)
| Fail (i : jsstring) (message : option jsstring).

Definition target (u : update) : jsstring :=
  match u with
  | Start i | Generating i | Complete i _ | Fail i _ => i
  end.

Definition applyTo (u : update) (t : Track) : Track :=
  match u with
  | Start _ =>
      mkTrack (id t) (fileName t) (base64 t) (mimeType t) (originalLyrics t)
              (useIsolation t)
              (if useIsolation t then ISOLATING else GENERATING)
              (lrcContent t) None
  | Generating _ =>
      mkTrack (id t) (fileName t) (base64 t) (mimeType t) (originalLyrics t)
              (useIsolation t) GENERATING (lrcContent t) (error t)
  | Complete _ result =>
      mkTrack (id t) (fileName t) (base64 t) (mimeType t) (originalLyrics t)
              (useIsolation t) COMPLETED (Some result) None
  | Fail _ message =>
      mkTrack (id t) (fileName t) (base64 t) (mimeType t) (originalLyrics t)
              (useIsolation t) ERROR (lrcContent t)
              (if truthy message then message
               else Some (js "Generation Failed"))
  end.

(** [setTracks(prev => prev.map(t => t.id === i ? {...} : t))] *)
Definition setTracks (u : update) (prev : list Track) : list Track :=
  map (fun t => if JS.eqb (id t) (target u) then applyTo u t else t) prev.

Definition isCompleted (s : Status) : bool :=
  match s with COMPLETED => true | _ => false end.

(** The filter of [handleGenerateAll]. *)
Definition isPending (t : Track) : bool :=
  negb (isCompleted (status t)) &&
  (negb (truthy (lrcContent t)) ||
   match lrcContent t with
   | Some c => (length (trim c) =? 0)%nat
   | None => true
   end).

Section Batch.

(** How [isolateVocals(track.file)] settles for a track, and how
    [generateLrcFromAudio] settles for a track given the payload and the
    MIME type it is sent. *)
Variable isolateVocals : Track -> settled.
Variable generateLrcFromAudio : Track -> jsstring -> jsstring -> settled.

Definition generation (track : Track) (finalBase64 finalMimeType : jsstring)
  : list update :=
  match generateLrcFromAudio track finalBase64 finalMimeType with
  | Resolved result => [Complete (id track) result]
  | Rejected m => [Fail (id track) m]
  end.

(** [processTrack(track)]: the state updates it makes, in order.  Both
    awaits stand inside the [try], whose [catch] makes the last update. *)
Definition processTrack (track : Track) : list update :=
  Start (id track) ::
  if useIsolation track then
    match isolateVocals track with
    | Resolved processedBase64 =>
        Generating (id track) ::
        generation track processedBase64 (js "audio/wav")
    | Rejected m => [Fail (id track) m]
    end
  else generation track (base64 track) (mimeType track).

Definition pendingTracks (tracks : list Track) : list Track :=
  filter isPending tracks.

(** How the pipeline of a track settles: the isolation when it is asked
    for, then the generation. *)
Definition pipeline (track : Track) : settled :=
  if useIsolation track then
    match isolateVocals track with
    | Resolved processedBase64 =>
        generateLrcFromAudio track processedBase64 (js "audio/wav")
    | Rejected m => Rejected m
    end
  else generateLrcFromAudio track (base64 track) (mimeType track).

End Batch.

(** The state in which a settled pipeline leaves its track. *)
Definition finalTrack (o : settled) (t : Track) : Track :=
  match o with
  | Resolved result =>
      mkTrack (id t) (fileName t) (base64 t) (mimeType t) (originalLyrics t)
              (useIsolation t) COMPLETED (Some result) None
  | Rejected message =>
      mkTrack (id t) (fileName t) (base64 t) (mimeType t) (originalLyrics t)
              (useIsolation t) ERROR (lrcContent t)
              (Some (match message with
                     | Some (c :: m) => c :: m
                     | _ => js "Generation Failed"
                     end))
  end.

(** The updates of one track applied to it. *)
Definition after (us : list update) (t : Track) : Track :=
  fold_left (fun t u => applyTo u t) us t.

Definition nonEmpty {A} (l : list A) : bool :=
  match l with [] => false | _ :: _ => true end.

(** An update aims at the track of identifier [i]. *)
Definition aims (i : jsstring) (u : update) : bool := JS.eqb i (target u).

(** A batch of three tracks: one asks for the isolation, one does not, one
    is completed; the isolation fails and the generation succeeds. *)
Definition sampleTrack (i : string) (isolate : bool) (s : Status)
  (lrc : option jsstring) : Track :=
  mkTrack (js i) (js i ++ js ".mp3") (js "AAAA") (js "audio/mpeg") []
          isolate s lrc None.

Definition batchTracks : list Track :=
  [ sampleTrack "a" true PENDING None;
    sampleTrack "b" false PENDING None;
    sampleTrack "c" false COMPLETED (Some (js "[00:02.00] done")) ].

Definition failingIsolation (t : Track) : settled :=
  Rejected (Some (js "decode failed")).

Definition steadyGeneration (t : Track) (payload mime : jsstring) : settled :=
  Resolved (js "[00:01.00] la").

Definition batchTrace : list update :=
  [ Start (js "a"); Start (js "b");
    Fail (js "a") (Some (js "decode failed"));
    Complete (js "b") (js "[00:01.00] la") ].

(** The workers run [processTrack] on the queued tracks concurrently: the
    updates of the tracks reach [setTracks] interleaved, those of one track
    in their own order. *)
Inductive interleaved {A} : list (list A) -> list A -> Prop :=
| interleaved_done : forall ls,
    Forall (fun l => l = []) ls -> interleaved ls []
| interleaved_step : forall before x l after rest,
    interleaved (before ++ l :: after) rest ->
    interleaved (before ++ (x :: l) :: after) (x :: rest).

(** The collection after the updates of a run. *)
Definition runUpdates (us : list update) (tracks : list Track) : list Track :=
  fold_left (fun ts u => setTracks u ts) us tracks.

End Orchestrator.

(* ================================================================== *)
(** * ConfigurationStep.tsx: handleBulkLrcUpload *)
(* ================================================================== *)

Module Bulk.

Record LrcFile := mkFile {
  name : jsstring;
  content : jsstring
}.

(** A letter of a pattern under the flag [i]: the two ASCII cases. *)
Definition letterEq (lower c : code_unit) : bool :=
  (c =? lower) || (c =? lower - 32).

(** The lazy group up to the first closing bracket; [.] stops at a line
    terminator. *)
Fixpoint lazyGroup (s : jsstring) : option jsstring :=
  match s with
  | [] => None
  | c :: s' =>
      if c =? 93 then Some []
      else if isLineTerminator c then None
      else match lazyGroup s' with
           | Some g => Some (c :: g)
           | None => None
           end
  end.

(** The pattern of a two-letter tag, tried at the start of [s]. *)
Definition tagAt (l1 l2 : code_unit) (s : jsstring) : option jsstring :=
  match s with
  | lb :: a :: b :: colon :: rest =>
      if (lb =? 91) && letterEq l1 a && letterEq l2 b && (colon =? 58)
      then lazyGroup rest else None
  | _ => None
  end.

(** [content.match] on the tag pattern: group 1 of the leftmost match. *)
Fixpoint matchTag (l1 l2 : code_unit) (s : jsstring) : option jsstring :=
  match tagAt l1 l2 s with
  | Some g => Some g
  | None =>
      match s with
      | [] => None
      | _ :: s' => matchTag l1 l2 s'
      end
  end.

Section Match.

(** The host's [String.prototype.toLowerCase]. *)
Variable toLowerCase : jsstring -> jsstring.

(** [name.replace(ext, "").toLowerCase().trim()] *)
Definition stem (fileName : jsstring) : jsstring :=
  trim (toLowerCase (Filename.stripExtension fileName)).

Definition tagOf (l1 l2 : code_unit) (content : jsstring)
  : option jsstring :=
  match matchTag l1 l2 content with
  | Some g => Some (toLowerCase (trim g))
  | None => None
  end.

(** [tag && tag.length > 3] *)
Definition longTag (tag : option jsstring) : option jsstring :=
  match tag with
  | Some g => if (3 <? length g)%nat then Some g else None
  | None => None
  end.

(** The predicate given to [tracks.find]. *)
Definition accepts (file : LrcFile) (t : Orchestrator.Track) : bool :=
  let lrcName := stem (name file) in
  let lrcTitle := tagOf 116 105 (content file) in
  let lrcArtist := tagOf 97 114 (content file) in
  let trackName := stem (Orchestrator.fileName t) in
  if JS.eqb trackName lrcName then true
  else if match longTag lrcTitle with
          | Some g => includes trackName g
          | None => false
          end then true
  else match longTag lrcArtist with
       | Some g => startsWith trackName g
       | None => false
       end.

Definition findTrack (tracks : list Orchestrator.Track) (file : LrcFile)
  : option Orchestrator.Track :=
  find (accepts file) tracks.

(** The updates pushed for the files, in the order the files are read. *)
Fixpoint collectUpdates (tracks : list Orchestrator.Track)
  (files : list LrcFile) : list (jsstring * jsstring) :=
  match files with
  | [] => []
  | file :: rest =>
      match findTrack tracks file with
      | Some track =>
          (Orchestrator.id track, content file) :: collectUpdates tracks rest
      | None => collectUpdates tracks rest
      end
  end.

(** What the user is told. *)
Inductive alert : Type :=
| Matched (n : nat)
| NoMatchingTracks.

(** [handleBulkLrcUpload]: the updates handed to [onBulkUploadLrc] (none
    when the list is empty) and the alert; nothing happens for an empty
    selection. *)
Definition handleBulkLrcUpload (tracks : list Orchestrator.Track)
  (files : list LrcFile) : option (list (jsstring * jsstring) * alert) :=
  match files with
  | [] => None
  | _ :: _ =>
      let updates := collectUpdates tracks files in
      match updates with
      | [] => Some ([], NoMatchingTracks)
      | _ :: _ => Some (updates, Matched (length updates))
      end
  end.

End Match.

(** The three criteria of the predicate, each on its own. *)
Section Criteria.

Variable toLowerCase : jsstring -> jsstring.

(** [s] is the stem of a file name: the name without its final extension,
    in lower case, without the white space at its ends. *)
Definition stemOf (fileName s : jsstring) : Prop :=
  trimmedOf (toLowerCase (Filename.stripExtension fileName)) s.

(** [g] is the tag of a content: the group of the leftmost match of the
    tag pattern, without the white space at its ends, in lower case. *)
Definition tagIs (l1 l2 : code_unit) (content g : jsstring) : Prop :=
  exists raw t,
    matchTag l1 l2 content = Some raw /\ trimmedOf raw t /\
    g = toLowerCase t.

Definition sameStem (file : LrcFile) (t : Orchestrator.Track) : Prop :=
  exists s, stemOf (Orchestrator.fileName t) s /\ stemOf (name file) s.

Definition titleInStem (file : LrcFile) (t : Orchestrator.Track) : Prop :=
  exists g s a b,
    tagIs 116 105 (content file) g /\
    (3 < length g)%nat /\
    stemOf (Orchestrator.fileName t) s /\ s = a ++ g ++ b.

Definition artistOpensStem (file : LrcFile) (t : Orchestrator.Track) : Prop :=
  exists g s b,
    tagIs 97 114 (content file) g /\
    (3 < length g)%nat /\
    stemOf (Orchestrator.fileName t) s /\ s = g ++ b.

End Criteria.

(** A lower-casing for test vectors: exact on code units below 128. *)
Definition asciiLower (s : jsstring) : jsstring :=
  map (fun c => if (65 <=? c) && (c <=? 90) then c + 32 else c) s.

(** Two tracks and an LRC file: the file bears the name of the second
    track, and its title tag occurs in the name of the first. *)
Definition liveTrack : Orchestrator.Track :=
  Orchestrator.mkTrack (js "1") (js "my song live.mp3") [] (js "audio/mpeg")
    [] false Orchestrator.PENDING None None.
Definition songTrack : Orchestrator.Track :=
  Orchestrator.mkTrack (js "2") (js "song.mp3") [] (js "audio/mpeg")
    [] false Orchestrator.PENDING None None.
Definition songFile : LrcFile :=
  {| name := js "song.lrc";
     content := js "[ti:Song]" ++ [10] ++ js "[00:01.00] la" |}.
Definition otherFile : LrcFile :=
  {| name := js "other.lrc"; content := js "[00:01.00] la" |}.

(** The same in mixed case and with blanks: the file bears the name of the
    second track up to the case and the blanks, and its title tag, written
    in upper case with blanks, occurs in the name of the first. *)
Definition liveTrackMixed : Orchestrator.Track :=
  Orchestrator.mkTrack (js "1") (js "My SONG Live.MP3") [] (js "audio/mpeg")
    [] false Orchestrator.PENDING None None.
Definition songTrackMixed : Orchestrator.Track :=
  Orchestrator.mkTrack (js "2") (js " Song .mp3") [] (js "audio/mpeg")
    [] false Orchestrator.PENDING None None.
Definition songFileMixed : LrcFile :=
  {| name := js "SONG.Lrc";
     content := js "[TI: Song ]" ++ [10] ++ js "[00:01.00] la" |}.
(** A file that only its artist tag, a prefix of the name of the first
    track, brings to a track. *)
Definition artistFileMixed : LrcFile :=
  {| name := js "other.lrc";
     content := js "[Ar: MY SONG]" ++ [10] ++ js "[00:01.00] la" |}.

End Bulk.

(* ================================================================== *)
(** * fileUtils.ts and App.tsx: the names and the archive of a download *)
(* ================================================================== *)

Module Download.

(** [filename.replace(/\.[^/.]+$/, "") + ".lrc"] *)
Definition lrcName (filename : jsstring) : jsstring :=
  Filename.stripExtension filename ++ js ".lrc".

(** [zip.file(name, content)] for a name without slash: the archive holds
    one entry a name; a second file of a name replaces the first.  For a
    name with a slash JSZip also adds the folders of the path, which is not
    modelled: the name of a File holds no slash. *)
Fixpoint zipFile (name content : jsstring)
  (zip : list (jsstring * jsstring)) : list (jsstring * jsstring) :=
  match zip with
  | [] => [(name, content)]
  | (n, c) :: rest =>
      if JS.eqb n name then (n, content) :: rest
      else (n, c) :: zipFile name content rest
  end.

(** The [files.forEach] of [downloadAsZip]. *)
Definition zipEntries (files : list (jsstring * jsstring))
  : list (jsstring * jsstring) :=
  fold_left (fun zip file => zipFile (lrcName (fst file)) (snd file) zip)
            files [].

(** [handleDownloadAll]: the entries of the archive, or [None] when no
    track is completed with content and nothing is downloaded. *)
Definition handleDownloadAll (tracks : list Orchestrator.Track)
  : option (list (jsstring * jsstring)) :=
  let completedTracks :=
    filter (fun t => Orchestrator.isCompleted (Orchestrator.status t) &&
                     truthy (Orchestrator.lrcContent t)) tracks in
  match completedTracks with
  | [] => None
  | _ :: _ =>
      Some (zipEntries
              (map (fun t => (Orchestrator.fileName t,
                              match Orchestrator.lrcContent t with
                              | Some c => c
                              | None => []
                              end)) completedTracks))
  end.

(** The entry of a name in an archive. *)
Fixpoint entry (name : jsstring) (zip : list (jsstring * jsstring))
  : option jsstring :=
  match zip with
  | [] => None
  | (n, c) :: rest => if JS.eqb n name then Some c else entry name rest
  end.

(** The content of the last file whose download name is [name]. *)
Fixpoint lastNamed (name : jsstring) (files : list (jsstring * jsstring))
  : option jsstring :=
  match files with
  | [] => None
  | (f, c) :: rest =>
      match lastNamed name rest with
      | Some c' => Some c'
      | None => if JS.eqb (lrcName f) name then Some c else None
      end
  end.

(** Three tracks: the first and the last are completed and differ in the
    extension only, the second is not completed. *)
Definition sameNameTracks : list Orchestrator.Track :=
  [ Orchestrator.mkTrack (js "1") (js "a.mp3") [] (js "audio/mpeg") [] false
      Orchestrator.COMPLETED (Some (js "[00:01.00] one")) None;
    Orchestrator.mkTrack (js "2") (js "b.mp3") [] (js "audio/mpeg") [] false
      Orchestrator.ERROR (Some (js "[00:01.00] two")) None;
    Orchestrator.mkTrack (js "3") (js "a.wav") [] (js "audio/wav") [] false
      Orchestrator.COMPLETED (Some (js "[00:01.00] three")) None ].

End Download.

(* ================================================================== *)
(** * FileUploader.tsx and ConfigurationStep.tsx: the files taken in *)
(* ================================================================== *)

Module Intake.

Record File := mkFile {
  name : jsstring;
  type : jsstring;
  size : N
}.

Definition maxSize : N := 15 * 1024 * 1024.

(** The two messages of [setError]. *)
Inductive uploadError : Type :=
| SkippedInvalid
| TooLarge (fileName : jsstring).

(** The [for] loop of [validateAndProcessFiles]: the valid files pushed so
    far and the error set last. *)
Fixpoint validateLoop (files valid : list File) (error : option uploadError)
  : list File * option uploadError :=
  match files with
  | [] => (valid, error)
  | file :: rest =>
      if negb (startsWith (type file) (js "audio/"))
      then validateLoop rest valid (Some SkippedInvalid)
      else if maxSize <? size file
           then validateLoop rest valid (Some (TooLarge (name file)))
           else validateLoop rest (valid ++ [file]) error
  end.

(** [validateAndProcessFiles]: what [onFilesSelected] is called with, if it
    is called, and the error shown. *)
Definition validateAndProcessFiles (files : list File)
  : option (list File) * option uploadError :=
  let (validFiles, error) := validateLoop files [] None in
  (match validFiles with [] => None | _ :: _ => Some validFiles end, error).

(** The loop of [handleAddAudio]: the valid files and the names alerted. *)
Fixpoint addLoop (files valid : list File) (alerts : list jsstring)
  : list File * list jsstring :=
  match files with
  | [] => (valid, alerts)
  | file :: rest =>
      if startsWith (type file) (js "audio/") && (size file <=? maxSize)
      then addLoop rest (valid ++ [file]) alerts
      else addLoop rest valid (alerts ++ [name file])
  end.

Definition handleAddAudio (files : list File)
  : option (list File) * list jsstring :=
  match files with
  | [] => (None, [])
  | _ :: _ =>
      let (validFiles, alerts) := addLoop files [] [] in
      (match validFiles with [] => None | _ :: _ => Some validFiles end,
       alerts)
  end.

(** A file that both loops accept. *)
Definition acceptable (file : File) : bool :=
  startsWith (type file) (js "audio/") && (size file <=? maxSize).

(** The timestamp pattern tried at the start of [s]: the length of the
    match. *)
Definition timestampAt (s : jsstring) : option nat :=
  match s with
  | lb :: m1 :: m2 :: colon :: s1 :: s2 :: dot :: f1 :: f2 :: rest =>
      if (lb =? 91) && Lrc.isDigit m1 && Lrc.isDigit m2 && (colon =? 58) &&
         Lrc.isDigit s1 && Lrc.isDigit s2 && (dot =? 46) &&
         Lrc.isDigit f1 && Lrc.isDigit f2
      then
        match rest with
        | c :: rest1 =>
            if Lrc.isDigit c then
              match rest1 with
              | rb :: _ => if rb =? 93 then Some 11%nat else None
              | [] => None
              end
            else if c =? 93 then Some 10%nat else None
        | [] => None
        end
      else None
  | _ => None
  end.

(** [text.replace(pattern, '')] with the flag [g]: the scan goes left to
    right, a match is dropped and the scan resumes behind it ([skip] counts
    the code units of a match still to drop). *)
Fixpoint stripGo (skip : nat) (s : jsstring) : jsstring :=
  match s with
  | [] => []
  | c :: s' =>
      match skip with
      | S k => stripGo k s'
      | O =>
          match timestampAt s with
          | Some n => stripGo (n - 1) s'
          | None => c :: stripGo 0 s'
          end
      end
  end.

Definition stripTimestamps (text : jsstring) : jsstring :=
  trim (stripGo 0 text).

(** [s.endsWith(p)] *)
Definition endsWith (s p : jsstring) : bool := startsWith (rev s) (rev p).

Section TextFile.

Variable toLowerCase : jsstring -> jsstring.

(** [handleTextFileUpload]: the lyrics handed to [onUpdateLyrics]. *)
Definition handleTextFileUpload (fileName text : jsstring) : jsstring :=
  if endsWith (toLowerCase fileName) (js ".lrc")
  then stripTimestamps text
  else text.

End TextFile.

End Intake.

(* ================================================================== *)
(** * LrcResult: the metadata, the active line and the edits *)
(* ================================================================== *)

Module Editor.

Import Double Lrc.

(** [extractMetadata(content)]: the tags [ti] and [ar], trimmed, or the
    empty string. *)
Definition extractMetadata (content : jsstring) : jsstring * jsstring :=
  (match Bulk.matchTag 116 105 content with
   | Some g => trim g
   | None => []
   end,
   match Bulk.matchTag 97 114 content with
   | Some g => trim g
   | None => []
   end).

(** [currentTime >= line.seconds] *)
Definition reached (currentTime : Q) (line : LrcLine) : bool :=
  Qle_bool (seconds line) currentTime.

(** The loop of [activeIndex] from index [i] on. *)
Fixpoint activeFrom (currentTime : Q) (i : Z) (active : Z)
  (lines : list LrcLine) : Z :=
  match lines with
  | [] => active
  | line :: rest =>
      if reached currentTime line
      then activeFrom currentTime (i + 1)%Z i rest
      else active
  end.

Definition activeIndex (currentTime : Q) (parsedLines : list LrcLine) : Z :=
  activeFrom currentTime 0%Z (-1)%Z parsedLines.

(** [newLines[index] = f(newLines[index])] on the copy of the lines;
    [None] where the index is out of range and the assignment throws. *)
Fixpoint editAt (index : nat) (f : LrcLine -> LrcLine)
  (lines : list LrcLine) : option (list LrcLine) :=
  match lines, index with
  | [], _ => None
  | l :: rest, O => Some (f l :: rest)
  | l :: rest, S i =>
      match editAt i f rest with
      | Some rest' => Some (l :: rest')
      | None => None
      end
  end.

(** [Math.max(0, seconds + delta)] *)
Definition shifted (delta : Q) (line : LrcLine) : LrcLine :=
  {| id := id line;
     seconds := max0 (fadd (seconds line) delta);
     text := text line |}.

Definition retexted (newText : jsstring) (line : LrcLine) : LrcLine :=
  {| id := id line; seconds := seconds line; text := newText |}.

(** The literal [0.1] of the two buttons of a line, which call
    [adjustTimestamp(idx, -0.1)] and [adjustTimestamp(idx, 0.1)]. *)
Definition tenth : Q := rnd (1 # 10).

(** The state [title] and [artist] of the editor, as the header. *)
Definition headerOf (title artist : jsstring) : option Filename.Metadata :=
  Some {| Filename.title := Some title; Filename.artist := Some artist |}.

(** [adjustTimestamp(index, delta)] and [updateLineText(index, newText)]:
    the new content. *)
Definition adjustTimestamp (parsedLines : list LrcLine)
  (title artist : jsstring) (index : nat) (delta : Q) : option jsstring :=
  match editAt index (shifted delta) parsedLines with
  | Some newLines => Some (stringifyLrc newLines (headerOf title artist))
  | None => None
  end.

Definition updateLineText (parsedLines : list LrcLine)
  (title artist : jsstring) (index : nat) (newText : jsstring)
  : option jsstring :=
  match editAt index (retexted newText) parsedLines with
  | Some newLines => Some (stringifyLrc newLines (headerOf title artist))
  | None => None
  end.

(** What is read back of a line written: its time printed and read, its
    text trimmed. *)
Definition readBack (line : LrcLine) : LrcLine :=
  {| id := id line;
     seconds := reread (seconds line);
     text := trim (text line) |}.

(** A line that fits one line of a document: its time is a double below
    100 minutes and not negative, and its text holds no line terminator. *)
Definition fitsLine (line : LrcLine) : Prop :=
  isDouble (seconds line) /\
  (0 <= seconds line)%Q /\ (seconds line < 6000)%Q /\
  Forall (fun c => isLineTerminator c = false) (text line).

(** A header field that is read back as it is: it is not empty and holds
    no bracket and no line terminator. *)
Definition plainField (s : jsstring) : Prop :=
  s <> [] /\
  Forall (fun c => c <> 91 /\ c <> 93 /\ isLineTerminator c = false) s.

(** One line at 0.905 seconds: a tenth more is a double above 1.005. *)
Definition oneLine : jsstring := js "[00:00.905] la".

End Editor.


(* ================================================================== *)
(** * App.tsx: the operations on the collection of tracks *)
(* ================================================================== *)

Module Session.

Import Orchestrator.

(** [handleUpdateLyrics(id, lyrics)] *)
Definition handleUpdateLyrics (i lyrics : jsstring) (prev : list Track)
  : list Track :=
  map (fun t =>
         if JS.eqb (id t) i
         then mkTrack (id t) (fileName t) (base64 t) (mimeType t) lyrics
                      (useIsolation t) (status t) (lrcContent t) (error t)
         else t) prev.

(** [handleUploadLrc(id, content)] *)
Definition handleUploadLrc (i : jsstring) (content : option jsstring)
  (prev : list Track) : list Track :=
  map (fun t =>
         if JS.eqb (id t) i
         then mkTrack (id t) (fileName t) (base64 t) (mimeType t)
                      (originalLyrics t) (useIsolation t)
                      (if truthy content then COMPLETED else PENDING)
                      content None
         else t) prev.

(** [newTracks.findIndex(p)] *)
Fixpoint findIndex {A} (p : A -> bool) (l : list A) : option nat :=
  match l with
  | [] => None
  | x :: l' =>
      if p x then Some O
      else match findIndex p l' with
           | Some i => Some (S i)
           | None => None
           end
  end.

(** [newTracks[index] = x] for an index in range. *)
Fixpoint setAt {A} (index : nat) (x : A) (l : list A) : list A :=
  match l, index with
  | [], _ => []
  | _ :: l', O => x :: l'
  | y :: l', S i => y :: setAt i x l'
  end.

Definition uploaded (content : jsstring) (t : Track) : Track :=
  mkTrack (id t) (fileName t) (base64 t) (mimeType t) (originalLyrics t)
          (useIsolation t) COMPLETED (Some content) None.

(** One turn of the [updates.forEach] of [handleBulkUploadLrc]. *)
Definition bulkStep (newTracks : list Track) (update : jsstring * jsstring)
  : list Track :=
  match findIndex (fun t => JS.eqb (id t) (fst update)) newTracks with
  | Some index =>
      match nth_error newTracks index with
      | Some t => setAt index (uploaded (snd update) t) newTracks
      | None => newTracks
      end
  | None => newTracks
  end.

Definition handleBulkUploadLrc (updates : list (jsstring * jsstring))
  (prev : list Track) : list Track :=
  fold_left bulkStep updates prev.

(** [handleToggleIsolation(id)] *)
Definition handleToggleIsolation (i : jsstring) (prev : list Track)
  : list Track :=
  map (fun t =>
         if JS.eqb (id t) i
         then mkTrack (id t) (fileName t) (base64 t) (mimeType t)
                      (originalLyrics t) (negb (useIsolation t)) (status t)
                      (lrcContent t) (error t)
         else t) prev.

(** [handleRemoveTrack(id)]: the tracks left, and whether the application
    goes back to IDLE. *)
Definition handleRemoveTrack (i : jsstring) (prev : list Track)
  : list Track * bool :=
  let newTracks := filter (fun t => negb (JS.eqb (id t) i)) prev in
  (newTracks, match newTracks with [] => true | _ :: _ => false end).

(** [handleTrackContentChange(id, newContent, newMetadata)], on the fields
    of a track that are kept here: the title and the artist shown are no
    part of [Track]. *)
Definition handleTrackContentChange (i newContent : jsstring)
  (prev : list Track) : list Track :=
  map (fun t =>
         if JS.eqb (id t) i
         then mkTrack (id t) (fileName t) (base64 t) (mimeType t)
                      (originalLyrics t) (useIsolation t) (status t)
                      (Some newContent) (error t)
         else t) prev.

Section Retry.

Variable isolateVocals : Track -> settled.
Variable generateLrcFromAudio : Track -> jsstring -> jsstring -> settled.

(** [handleRetry(id)]: [processTrack] on the track found, whose updates
    reach the collection. *)
Definition handleRetry (i : jsstring) (tracks : list Track) : list Track :=
  match find (fun t => JS.eqb (id t) i) tracks with
  | Some track =>
      runUpdates (processTrack isolateVocals generateLrcFromAudio track)
                 tracks
  | None => tracks
  end.

End Retry.

(** ConfigurationStep.tsx, [pendingTracksCount]: the number shown on the
    button that starts the batch. *)
Definition pendingTracksCount (tracks : list Track) : nat :=
  length (filter (fun t => negb (isCompleted (status t))) tracks).

(** The content of the last update of an identifier. *)
Fixpoint lastUpdate (i : jsstring) (updates : list (jsstring * jsstring))
  : option jsstring :=
  match updates with
  | [] => None
  | (j, c) :: rest =>
      match lastUpdate i rest with
      | Some c' => Some c'
      | None => if JS.eqb i j then Some c else None
      end
  end.

(** What the status of a track says of its other fields. *)
Definition consistent (t : Track) : Prop :=
  (status t = COMPLETED ->
   (exists c, lrcContent t = Some c) /\ error t = None) /\
  (status t = ERROR -> exists m, error t = Some m /\ m <> []).

End Session.

(* ================================================================== *)
(** * Header.tsx and geminiService.ts: the API key *)
(* ================================================================== *)

Module ApiKey.

(** [saveManualKey]: the item [gemini_api_key] of the local storage
    afterwards. *)
Definition saveManualKey (manualKey : jsstring) : option jsstring :=
  match trim manualKey with
  | [] => None
  | c :: k => Some (c :: k)
  end.

(** [getApiKey] in a browser: the stored key when there is one, or the key
    of the environment. *)
Definition getApiKey (stored env : option jsstring) : option jsstring :=
  if truthy stored then stored else env.

End ApiKey.


(* ================================================================== *)
(** * fileUtils.ts: the layout of a tag with one title frame *)
(* ================================================================== *)

Module Id3Layout.

(** An ID3v2.3 tag that holds one TIT2 frame: the header of the tag, the
    header of the frame, the encoding byte and the bytes of the text. *)
Definition titleTag (encoding : N) (payload : list N) : list N :=
  [0x49; 0x44; 0x33; 3; 0; 0; 0; 0; 0; N.of_nat (length payload) + 11;
   84; 73; 84; 50; 0; 0; 0; N.of_nat (length payload) + 1; 0; 0;
   encoding] ++ payload.

End Id3Layout.

(* ================================================================== *)
(** * fileUtils.ts and audioProcessing.ts: the payload of a data URL *)
(* ================================================================== *)

Module DataUrl.

(** [reader.result.split(',')[1]], for a result that is a string: [None]
    stands for [undefined]. *)
Definition base64String (result : jsstring) : option jsstring :=
  nth_error (split result (js ",")) 1.

End DataUrl.

(* ================================================================== *)
(** * ConfigurationStep.tsx: the target line length *)
(* ================================================================== *)

Module Settings.

Local Open Scope Z_scope.

(** The three controls of the target line length: the button minus, the
    button plus, and the input, with what [parseInt] makes of its value
    ([None] for NaN). *)
Inductive lengthEdit : Type :=
| Decrease
| Increase
| Typed (parsed : option Z).

(** [useState<number>(30)] *)
Definition initialLength : Z := 30.

(** The argument of [setMaxLineLength] in each control. *)
Definition setMaxLineLength (maxLineLength : Z) (e : lengthEdit) : Z :=
  match e with
  | Decrease => Z.max 10 (maxLineLength - 5)
  | Increase => maxLineLength + 5
  | Typed parsed =>
      Z.max 10 (match parsed with
                | Some v => if v =? 0 then 0 else v
                | None => 0
                end)
  end.

End Settings.
(* ================================================================== *)
(** * Facts about the string functions *)
(* ================================================================== *)

Module JSFacts.

Lemma eqb_eq : forall s t, JS.eqb s t = true <-> s = t.
Proof.
  induction s as [|a s IH]; destruct t as [|b t]; simpl; split;
    try discriminate; try reflexivity.
  - intros H. apply andb_true_iff in H as [H1 H2].
    apply N.eqb_eq in H1. apply IH in H2. now subst.
  - intros H. injection H as -> ->. rewrite N.eqb_refl. simpl. now apply IH.
Qed.

Lemma eqb_refl : forall s, JS.eqb s s = true.
Proof. intros s. now apply eqb_eq. Qed.

Lemma startsWith_spec : forall p s,
  startsWith s p = true <-> exists r, s = p ++ r.
Proof.
  induction p as [|a p IH]; intros s.
  - destruct s; simpl; split; eauto.
  - destruct s as [|b s]; simpl.
    + split; [discriminate | intros [r H]; discriminate].
    + rewrite andb_true_iff, N.eqb_eq, IH. split.
      * intros [-> [r ->]]. now exists r.
      * intros [r H]. injection H as -> ->. split; eauto.
Qed.

Lemma includes_nil : forall p, includes [] p = startsWith [] p.
Proof. intros. cbn [includes]. apply orb_false_r. Qed.

Lemma includes_cons : forall c s p,
  includes (c :: s) p = startsWith (c :: s) p || includes s p.
Proof. reflexivity. Qed.

Lemma includes_spec : forall p s,
  includes s p = true <-> exists a b, s = a ++ p ++ b.
Proof.
  intros p. induction s as [|c s IH].
  - rewrite includes_nil, startsWith_spec. split.
    + intros [r H]. exists [], r. exact H.
    + intros [a [b H]]. destruct a; [now exists b | discriminate].
  - rewrite includes_cons, orb_true_iff, IH, startsWith_spec. split.
    + intros [[r H] | [a [b H]]].
      * exists [], r. exact H.
      * exists (c :: a), b. now rewrite H.
    + intros [a [b H]]. destruct a as [|c' a].
      * left. now exists b.
      * right. injection H as _ H. now exists a, b.
Qed.

Lemma split_go_skip : forall sep r cur s,
  split_go sep (length r) cur (r ++ s) = split_go sep 0 cur s.
Proof. induction r as [|c r IH]; intros; simpl; auto. Qed.

Lemma split_go_nonempty : forall sep s skip cur, split_go sep skip cur s <> [].
Proof.
  induction s as [|c s IH]; intros skip cur; cbn [split_go]; [discriminate|].
  destruct skip; [|apply IH].
  destruct (startsWith (c :: s) sep); [discriminate | apply IH].
Qed.

Lemma join_cons : forall p rest sep,
  rest <> [] -> join (p :: rest) sep = p ++ sep ++ join rest sep.
Proof. intros p [|q rest] sep H; [congruence | reflexivity]. Qed.

(** On a string that holds no separator, [split] yields the string. *)
Lemma split_go_absent : forall sep s cur,
  includes s sep = false -> split_go sep 0 cur s = [cur ++ s].
Proof.
  induction s as [|c s IH]; intros cur H.
  - simpl. now rewrite app_nil_r.
  - rewrite includes_cons in H. apply orb_false_iff in H as [H1 H2].
    cbn [split_go]. rewrite H1.
    rewrite IH by assumption. now rewrite <- app_assoc.
Qed.

(** On a string that holds the separator (a non-empty one), [split] cuts at
    its first occurrence and goes on with what follows it. *)
Lemma split_go_present : forall c0 ps s cur,
  let sep := c0 :: ps in
  includes s sep = true ->
  exists a r,
    s = a ++ sep ++ r /\
    (forall a2 r2, s = a2 ++ sep ++ r2 -> (length a <= length a2)%nat) /\
    split_go sep 0 cur s = (cur ++ a) :: split_go sep 0 [] r.
Proof.
  intros c0 ps. cbv zeta.
  induction s as [|c s IH]; intros cur H.
  - simpl in H. discriminate.
  - destruct (startsWith (c :: s) (c0 :: ps)) eqn:E.
    + pose proof E as E'. apply startsWith_spec in E' as [r Hr].
      exists [], r. simpl app. split; [exact Hr|]. split.
      * intros. simpl. lia.
      * rewrite app_nil_r.
        change (split_go (c0 :: ps) 0 cur (c :: s))
          with (if startsWith (c :: s) (c0 :: ps)
                then cur :: split_go (c0 :: ps) (length (c0 :: ps) - 1) [] s
                else split_go (c0 :: ps) 0 (cur ++ [c]) s).
        rewrite E. f_equal. injection Hr as -> ->.
        replace (length (c0 :: ps) - 1)%nat with (length ps)
          by (simpl; lia).
        apply split_go_skip.
    + assert (Hs : includes s (c0 :: ps) = true).
      { change (includes (c :: s) (c0 :: ps))
          with (startsWith (c :: s) (c0 :: ps) || includes s (c0 :: ps)) in H.
        rewrite E in H. exact H. }
      destruct (IH (cur ++ [c]) Hs) as [a [r [Hr [Hmin Hsplit]]]].
      exists (c :: a), r. split; [simpl; now rewrite Hr|]. split.
      * intros a2 r2 H2. destruct a2 as [|c2 a2].
        -- exfalso. assert (startsWith (c :: s) (c0 :: ps) = true).
           { apply startsWith_spec. exists r2. exact H2. }
           congruence.
        -- injection H2 as _ H2. simpl. apply Hmin in H2. lia.
      * change (split_go (c0 :: ps) 0 cur (c :: s))
          with (if startsWith (c :: s) (c0 :: ps)
                then cur :: split_go (c0 :: ps) (length (c0 :: ps) - 1) [] s
                else split_go (c0 :: ps) 0 (cur ++ [c]) s).
        rewrite E, Hsplit. now rewrite <- app_assoc.
Qed.

(** [join] undoes [split]. *)
Lemma join_split_go : forall c0 ps n s cur,
  (length s <= n)%nat ->
  join (split_go (c0 :: ps) 0 cur s) (c0 :: ps) = cur ++ s.
Proof.
  intros c0 ps. induction n as [|n IH]; intros s cur Hn.
  - destruct s; [simpl; now rewrite app_nil_r | simpl in Hn; lia].
  - destruct (includes s (c0 :: ps)) eqn:E.
    + destruct (split_go_present c0 ps s cur E) as [a [r [Hr [_ Hsplit]]]].
      rewrite Hsplit, join_cons by apply split_go_nonempty.
      rewrite IH.
      * rewrite Hr. simpl. now rewrite <- app_assoc.
      * rewrite Hr in Hn. rewrite !length_app in Hn. simpl in Hn. lia.
    + rewrite split_go_absent by assumption. reflexivity.
Qed.

Lemma dropWhile_idem : forall {A} (p : A -> bool) l,
  dropWhile p (dropWhile p l) = dropWhile p l.
Proof.
  induction l as [|x l IH]; simpl; auto.
  destruct (p x) eqn:E; auto. simpl. now rewrite E.
Qed.

Lemma dropWhile_snoc : forall {A} (p : A -> bool) l x,
  p x = false -> dropWhile p (l ++ [x]) = dropWhile p l ++ [x].
Proof.
  induction l as [|y l IH]; intros x H; simpl.
  - now rewrite H.
  - destruct (p y); auto.
Qed.

Lemma trimEnd_idem : forall s, trimEnd (trimEnd s) = trimEnd s.
Proof.
  intros s. unfold trimEnd. now rewrite rev_involutive, dropWhile_idem.
Qed.

Lemma trimEnd_keeps_start : forall s,
  dropWhile isTrimmed s = s -> dropWhile isTrimmed (trimEnd s) = trimEnd s.
Proof.
  intros [|c s] H; [reflexivity|].
  simpl in H. destruct (isTrimmed c) eqn:E.
  - exfalso. assert (Hl : (length (dropWhile isTrimmed s) <= length s)%nat).
    { clear. induction s as [|x s IH]; simpl; auto.
      destruct (isTrimmed x); simpl; lia. }
    rewrite H in Hl. simpl in Hl. lia.
  - unfold trimEnd. simpl rev. rewrite dropWhile_snoc by assumption.
    rewrite rev_app_distr. simpl. now rewrite E.
Qed.

Lemma trim_idem : forall s, trim (trim s) = trim s.
Proof.
  intros s. unfold trim, trimStart.
  rewrite trimEnd_keeps_start by apply dropWhile_idem.
  apply trimEnd_idem.
Qed.

(** A trimmed text read back behind a space is itself. *)
Lemma trim_space_trim : forall s, trim (32 :: trim s) = trim s.
Proof.
  intros s. unfold trim at 1. unfold trimStart. simpl dropWhile.
  fold (trimStart (trim s)). fold (trim (trim s)). apply trim_idem.
Qed.

(** ** What trim returns *)

Lemma dropWhile_prefix : forall {A} (p : A -> bool) l,
  exists pre, l = pre ++ dropWhile p l /\
              Forall (fun c => p c = true) pre /\
              match dropWhile p l with
              | c :: _ => p c = false
              | [] => True
              end.
Proof.
  intros A p. induction l as [|x l [pre [H1 [H2 H3]]]].
  - exists []. repeat split. constructor.
  - cbn [dropWhile]. destruct (p x) eqn:E.
    + exists (x :: pre). split; [cbn; now rewrite <- H1|].
      split; [now constructor | exact H3].
    + exists []. repeat split; [constructor | exact E].
Qed.

Lemma dropWhile_all : forall {A} (p : A -> bool) pre l,
  Forall (fun c => p c = true) pre -> dropWhile p (pre ++ l) = dropWhile p l.
Proof.
  intros A p pre l H. induction H as [|c pre Hc _ IH]; [reflexivity|].
  cbn [app dropWhile]. now rewrite Hc.
Qed.

Lemma trim_trimmedOf : forall s, trimmedOf s (trim s).
Proof.
  intros s. unfold trim, trimStart, trimEnd.
  destruct (dropWhile_prefix isTrimmed s) as [pre [H1 [H2 H3]]].
  set (u := dropWhile isTrimmed s) in *.
  destruct (dropWhile_prefix isTrimmed (rev u)) as [post [K1 [K2 K3]]].
  set (w := dropWhile isTrimmed (rev u)) in *.
  assert (U : u = rev w ++ rev post).
  { rewrite <- rev_app_distr, <- K1. now rewrite rev_involutive. }
  exists pre, (rev post). split; [now rewrite <- U|].
  split; [exact H2|]. split; [now apply Forall_rev|]. split.
  - intros c r E. rewrite U, E in H3. exact H3.
  - intros c r E. apply (f_equal (@rev _)) in E.
    rewrite rev_involutive, rev_app_distr in E. cbn [rev app] in E.
    rewrite E in K3. exact K3.
Qed.

Lemma trimmedOf_trim : forall s t, trimmedOf s t -> trim s = t.
Proof.
  intros s t [pre [post [-> [H1 [H2 [H3 H4]]]]]].
  unfold trim, trimStart, trimEnd. rewrite dropWhile_all by assumption.
  destruct t as [|c t].
  - cbn [app]. rewrite <- (app_nil_r post) at 1.
    rewrite dropWhile_all by assumption. reflexivity.
  - cbn [app dropWhile]. rewrite (H3 c t eq_refl).
    change (c :: t ++ post) with ((c :: t) ++ post).
    rewrite rev_app_distr, dropWhile_all by now apply Forall_rev.
    destruct (rev (c :: t)) as [|d u] eqn:E.
    { apply (f_equal (@length _)) in E. rewrite length_rev in E.
      discriminate. }
    apply (f_equal (@rev _)) in E. rewrite rev_involutive in E.
    cbn [rev] in E. cbn [dropWhile]. rewrite (H4 d (rev u) E).
    rewrite E. reflexivity.
Qed.

End JSFacts.

Module FilenameFacts.
Import Filename JSFacts.

Lemma extBody_spec : forall s, extBody s = true <-> plainExt s.
Proof.
  intros s. unfold extBody, plainExt. destruct s as [|c s].
  - split; [discriminate | intros [H _]; congruence].
  - rewrite forallb_forall, Forall_forall. split.
    + intros H. split; [discriminate|]. intros x Hx. apply H in Hx.
      unfold extChar in Hx. apply andb_true_iff in Hx as [H1 H2].
      apply negb_true_iff in H1, H2. apply N.eqb_neq in H1, H2. auto.
    + intros [_ H] x Hx. apply H in Hx as [H1 H2]. unfold extChar.
      apply N.eqb_neq in H1, H2. now rewrite H1, H2.
Qed.

(** The extension pattern matches at most once: what follows the dot of a
    match holds no dot. *)
Lemma stripExtension_spec : forall filename,
  (exists ext, filename = stripExtension filename ++ 46 :: ext /\ plainExt ext)
  \/ (stripExtension filename = filename /\
      forall base ext, filename = base ++ 46 :: ext -> ~ plainExt ext).
Proof.
  induction filename as [|c s IH].
  - right. split; [reflexivity|]. intros [|? ?] ext H; discriminate.
  - cbn [stripExtension]. destruct ((c =? 46) && extBody s) eqn:E.
    + left. apply andb_true_iff in E as [E1 E2]. apply N.eqb_eq in E1.
      apply extBody_spec in E2. subst c. exists s. split; [reflexivity|auto].
    + destruct IH as [[ext [H1 H2]] | [H1 H2]].
      * left. exists ext. split; [|exact H2]. simpl. now rewrite <- H1.
      * right. split; [now rewrite H1|].
        intros base ext H. destruct base as [|b base].
        -- injection H as -> ->. rewrite N.eqb_refl in E. simpl in E.
           intros Hp. apply extBody_spec in Hp. congruence.
        -- injection H as _ H. now apply H2 in H.
Qed.

(** C6: the final extension is stripped; a name that holds the separator
    yields as artist its first segment and as title the rest, joined again,
    each without the white space at its two ends; any other name is the
    title, with no artist. *)
Theorem parseMetadataFromFilename_spec : forall filename,
  let name := stripExtension filename in
  ((exists ext, filename = name ++ 46 :: ext /\ plainExt ext) \/
   (name = filename /\
    forall base ext, filename = base ++ 46 :: ext -> ~ plainExt ext)) /\
  ((exists a b, name = a ++ separator ++ b) ->
   exists first rest t a,
     split name separator = first :: rest /\ rest <> [] /\
     name = first ++ separator ++ join rest separator /\
     (forall a b, name = a ++ separator ++ b ->
                  (length first <= length a)%nat) /\
     trimmedOf (join rest separator) t /\ trimmedOf first a /\
     parseMetadataFromFilename filename =
       {| title := Some t; artist := Some a |}) /\
  (~ (exists a b, name = a ++ separator ++ b) ->
   parseMetadataFromFilename filename =
     {| title := Some name; artist := None |}).
Proof.
  intros filename name. split; [apply stripExtension_spec|]. split.
  - intros H. apply includes_spec in H.
    destruct (split_go_present 32 [45; 32] name [] H) as [a [r [Hr [Hmin Hs]]]].
    exists a, (split_go separator 0 [] r).
    exists (trim (join (split_go separator 0 [] r) separator)), (trim a).
    assert (Hne : split_go separator 0 [] r <> []) by apply split_go_nonempty.
    assert (Hj : join (split_go separator 0 [] r) separator = r).
    { apply (join_split_go 32 [45; 32] (length r) r []). lia. }
    split; [exact Hs|]. split; [exact Hne|].
    split; [rewrite Hj; exact Hr|]. split; [exact Hmin|].
    split; [apply trim_trimmedOf|]. split; [apply trim_trimmedOf|].
    unfold parseMetadataFromFilename. fold name. rewrite H.
    unfold split. change (js " - ") with separator.
    change (32 :: [45; 32]) with separator in Hs. rewrite Hs.
    destruct (split_go separator 0 [] r) eqn:E; [congruence|].
    reflexivity.
  - intros H. unfold parseMetadataFromFilename. fold name.
    destruct (includes name separator) eqn:E; [|reflexivity].
    apply includes_spec in E. contradiction.
Qed.

(** A file name with blanks around its segments and a separator inside its
    title, and the two file names of the specification. *)
Lemma parseMetadataFromFilename_witness :
  parseMetadataFromFilename (js "  The Artist  -  Title - Live .mp3") =
    {| title := Some (js "Title - Live"); artist := Some (js "The Artist") |} /\
  parseMetadataFromFilename (js "Artist - Title.mp3") =
    {| title := Some (js "Title"); artist := Some (js "Artist") |} /\
  parseMetadataFromFilename (js "SingleWord.mp3") =
    {| title := Some (js "SingleWord"); artist := None |}.
Proof.
  split; [|split].
  - destruct (parseMetadataFromFilename_spec
                (js "  The Artist  -  Title - Live .mp3")) as [_ [H _]].
    destruct H as [first [rest [t [a [Hs [_ [_ [_ [Ht [Ha Hr]]]]]]]]]].
    + exists (js "  The Artist "), (js " Title - Live "). reflexivity.
    + vm_compute in Hs. injection Hs as <- <-.
      apply trimmedOf_trim in Ht, Ha. rewrite Hr, <- Ht, <- Ha. reflexivity.
  - destruct (parseMetadataFromFilename_spec (js "Artist - Title.mp3"))
      as [_ [H _]].
    destruct H as [first [rest [t [a [Hs [_ [_ [_ [Ht [Ha Hr]]]]]]]]]].
    + exists (js "Artist"), (js "Title"). reflexivity.
    + vm_compute in Hs. injection Hs as <- <-.
      apply trimmedOf_trim in Ht, Ha. rewrite Hr, <- Ht, <- Ha. reflexivity.
  - destruct (parseMetadataFromFilename_spec (js "SingleWord.mp3"))
      as [_ [_ H]].
    rewrite H; [reflexivity|].
    intros Hex. apply includes_spec in Hex. vm_compute in Hex. discriminate.
Defined.

End FilenameFacts.

Module Id3Facts.
Import Filename Id3 JSFacts.

Section Reader.

Variable decode : bool -> list N -> option jsstring.

Lemma frameTurn_advances : forall buffer version size limit offset o' f,
  frameTurn decode buffer version size limit offset = Continue o' f ->
  offset + 10 <= o'.
Proof.
  intros buffer version size limit offset o' f. unfold frameTurn.
  destruct (limit <? offset + 10); [discriminate|].
  destruct (getUint8 buffer offset) as [id1|]; [|discriminate].
  destruct (getUint8 buffer (offset + 1)) as [id2|]; [|discriminate].
  destruct (getUint8 buffer (offset + 2)) as [id3|]; [|discriminate].
  destruct (getUint8 buffer (offset + 3)) as [id4|]; [|discriminate].
  destruct (id1 =? 0); [discriminate|].
  destruct (getUint32 buffer (offset + 4)) as [raw|]; [|discriminate].
  destruct (if (version =? 4) && (size <? raw)
            then synchsafe buffer (offset + 4) else Some raw)
    as [frameSize|]; [|discriminate].
  destruct (limit <? offset + 10 + frameSize); [discriminate|].
  destruct (JS.eqb [id1; id2; id3; id4] TIT2 ||
            JS.eqb [id1; id2; id3; id4] TPE1).
  - destruct (getUint8 buffer (offset + 10)); [|discriminate].
    destruct (uint8Window buffer (offset + 10 + 1) frameSize); [|discriminate].
    intros H. injection H as <- _. lia.
  - intros H. injection H as <- _. lia.
Qed.

(** The frame loop ends: every turn moves the cursor on by ten bytes or
    more, so fuel beyond the distance to the limit is never used up. *)
Lemma walk_terminates : forall buffer version size limit fuel offset st,
  (N.to_nat limit - N.to_nat offset < fuel)%nat ->
  exists st' threw,
    walk decode buffer version size limit fuel offset st = Some (st', threw).
Proof.
  intros buffer version size limit.
  induction fuel as [|fuel IH]; intros offset st Hf; [lia|].
  cbn [walk]. destruct (offset <? limit) eqn:E; [|eauto].
  apply N.ltb_lt in E.
  destruct (frameTurn decode buffer version size limit offset)
    as [| |o' f] eqn:T; eauto.
  apply frameTurn_advances in T.
  assert (Hf' : (N.to_nat limit - N.to_nat o' < fuel)%nat) by lia.
  destruct f as [[frameId text]|]; apply IH; exact Hf'.
Qed.

Lemma readTags_terminates : forall buffer,
  exists st threw, readTags decode buffer = Some (st, threw).
Proof.
  intros buffer. unfold readTags.
  destruct (hasMagic buffer) as [[|]|]; eauto.
  destruct (getUint8 buffer 3) as [version|]; eauto.
  destruct (synchsafe buffer 6) as [size|]; eauto.
  apply walk_terminates. unfold byteLength. lia.
Qed.

Lemma hasMagic_true : forall buffer,
  hasMagic buffer = Some true ->
  exists rest, buffer = 0x49 :: 0x44 :: 0x33 :: rest.
Proof.
  intros buffer. unfold hasMagic, getUint8.
  destruct buffer as [|b0 [|b1 [|b2 rest]]]; simpl.
  - discriminate.
  - destruct (b0 =? 73); discriminate.
  - destruct (b0 =? 73); [|discriminate]. destruct (b1 =? 68); discriminate.
  - destruct (b0 =? 73) eqn:E0; [|discriminate].
    destruct (b1 =? 68) eqn:E1; [|discriminate].
    intros H. injection H as H.
    apply N.eqb_eq in E0, E1, H. subst. now exists rest.
Qed.

Lemma readTags_lacking_magic : forall buffer st threw,
  ~ (exists rest, buffer = 0x49 :: 0x44 :: 0x33 :: rest) ->
  readTags decode buffer = Some (st, threw) -> st = noTags.
Proof.
  intros buffer st threw Hm. unfold readTags.
  destruct (hasMagic buffer) as [[|]|] eqn:E.
  - apply hasMagic_true in E. contradiction.
  - intros H. now injection H as <- _.
  - intros H. now injection H as <- _.
Qed.

End Reader.

Lemma usable_spec : forall o,
  usable o = true <-> exists t, o = Some t /\ trim t <> [].
Proof.
  intros [t|]; simpl.
  - split.
    + intros H. apply andb_true_iff in H as [_ H]. exists t. split; [auto|].
      destruct (trim t); [discriminate|discriminate].
    + intros [t' [H1 H2]]. injection H1 as <-.
      destruct t as [|c t]; [now elim H2|].
      simpl. destruct (trim (c :: t)); [now elim H2 | reflexivity].
  - split; [discriminate | intros [t [H _]]; discriminate].
Qed.

Lemma usable_blank : forall o, usable o = false <-> blank o.
Proof.
  intros o. unfold blank. destruct (usable o) eqn:E.
  - apply usable_spec in E as [t [-> H]]. split; [discriminate | contradiction].
  - split; [intros _|reflexivity]. destruct o as [t|]; [|exact I].
    destruct (trim t) eqn:T; [reflexivity|].
    assert (usable (Some t) = true).
    { apply usable_spec. exists t. split; [auto|]. now rewrite T. }
    congruence.
Qed.

(** C5: a tag field that is not empty once trimmed wins; otherwise the field
    derived from the file name is used, which the title always has; the
    artist falls back to the literal Unknown. *)
Theorem mergeMetadata_precedence : forall st filename,
  let fromName := parseMetadataFromFilename filename in
  let m := mergeMetadata st filename in
  (forall t, id3Title st = Some t -> trim t <> [] -> title m = Some t) /\
  (blank (id3Title st) -> title m = title fromName) /\
  (exists t, title fromName = Some t) /\
  (forall a, id3Artist st = Some a -> trim a <> [] -> artist m = Some a) /\
  (blank (id3Artist st) ->
   forall a, artist fromName = Some a -> a <> [] -> artist m = Some a) /\
  (blank (id3Artist st) ->
   artist fromName = None \/ artist fromName = Some [] ->
   artist m = Some (js "Unknown")).
Proof.
  intros st filename fromName m. unfold m, mergeMetadata. fold fromName.
  cbn [title artist]. repeat split.
  - intros t Ht Hne.
    assert (U : usable (id3Title st) = true) by (apply usable_spec; eauto).
    now rewrite U.
  - intros Hb. apply usable_blank in Hb. now rewrite Hb.
  - unfold fromName, parseMetadataFromFilename.
    destruct (includes _ _); [destruct (2 <=? _)%nat|]; cbn [title]; eauto.
  - intros a Ha Hne.
    assert (U : usable (id3Artist st) = true) by (apply usable_spec; eauto).
    now rewrite U.
  - intros Hb a Ha Hne. apply usable_blank in Hb. rewrite Hb, Ha.
    destruct a; [congruence | reflexivity].
  - intros Hb Ha. apply usable_blank in Hb. rewrite Hb.
    destruct Ha as [-> | ->]; reflexivity.
Qed.

(** C7: [getTrackMetadata] returns for every file and every decoder: the
    frame loop ends and no exception leaves the function; a file that does
    not open with the magic yields the metadata of the file name. *)
Theorem getTrackMetadata_never_raises : forall decode contents name,
  (exists m, getTrackMetadata decode contents name = Some (Normal m)) /\
  (lacksMagic contents ->
   getTrackMetadata decode contents name =
     Some (Normal
       {| title := title (parseMetadataFromFilename name);
          artist := if truthy (artist (parseMetadataFromFilename name))
                    then artist (parseMetadataFromFilename name)
                    else Some (js "Unknown") |})).
Proof.
  intros decode contents name. split.
  - destruct contents as [file|]; cbn [getTrackMetadata]; eauto.
    destruct (readTags_terminates decode (slice128k file)) as [st [threw H]].
    rewrite H. eauto.
  - intros Hm. destruct contents as [file|]; cbn [getTrackMetadata].
    + destruct (readTags_terminates decode (slice128k file)) as [st [threw H]].
      rewrite H. cbn [lacksMagic] in Hm.
      apply (readTags_lacking_magic decode _ _ _ Hm) in H. subst st.
      reflexivity.
    + reflexivity.
Qed.

(** The loop assigns the decoded frames in turn. *)
Lemma walk_decoded :
  forall decode buffer version size limit fuel offset st st' threw,
  walk decode buffer version size limit fuel offset st = Some (st', threw) ->
  st' = fold_left (fun s f => record s (fst f) (snd f))
                  (decoded decode buffer version size limit fuel offset) st.
Proof.
  intros decode buffer version size limit.
  induction fuel as [|fuel IH]; intros offset st st' threw; cbn [walk decoded].
  - discriminate.
  - destruct (offset <? limit).
    + destruct (frameTurn decode buffer version size limit offset)
        as [| |o' [[frameId text]|]].
      * intros H. now injection H as <- _.
      * intros H. now injection H as <- _.
      * intros H. apply IH in H. exact H.
      * apply IH.
    + intros H. now injection H as <- _.
Qed.

Lemma firstNonEmpty_app : forall frameId l1 l2,
  firstNonEmpty frameId (l1 ++ l2) =
  match firstNonEmpty frameId l1 with
  | Some v => Some v
  | None => firstNonEmpty frameId l2
  end.
Proof.
  intros frameId. induction l1 as [|[f t] l1 IH]; intros l2; simpl; auto.
  destruct (JS.eqb f frameId && negb (length t =? 0)%nat); auto.
Qed.

Lemma id3Title_record : forall st f t,
  id3Title (record st f t) =
  if JS.eqb f TIT2 && negb (length t =? 0)%nat then Some t else id3Title st.
Proof.
  intros st f t. unfold record.
  destruct (JS.eqb f TIT2 && negb (length t =? 0)%nat);
    destruct (JS.eqb f TPE1 && negb (length t =? 0)%nat); reflexivity.
Qed.

Lemma id3Artist_record : forall st f t,
  id3Artist (record st f t) =
  if JS.eqb f TPE1 && negb (length t =? 0)%nat then Some t else id3Artist st.
Proof.
  intros st f t. unfold record.
  destruct (JS.eqb f TIT2 && negb (length t =? 0)%nat);
    destruct (JS.eqb f TPE1 && negb (length t =? 0)%nat); reflexivity.
Qed.

Lemma fold_record_title : forall frames st,
  id3Title (fold_left (fun s f => record s (fst f) (snd f)) frames st) =
  match lastNonEmpty TIT2 frames with
  | Some v => Some v
  | None => id3Title st
  end.
Proof.
  unfold lastNonEmpty.
  induction frames as [|[f t] frames IH]; intros st; [reflexivity|].
  cbn [fold_left fst snd rev]. rewrite IH, firstNonEmpty_app.
  destruct (firstNonEmpty TIT2 (rev frames)); [reflexivity|].
  rewrite id3Title_record. cbn [firstNonEmpty].
  destruct (JS.eqb f TIT2 && negb (length t =? 0)%nat); reflexivity.
Qed.

Lemma fold_record_artist : forall frames st,
  id3Artist (fold_left (fun s f => record s (fst f) (snd f)) frames st) =
  match lastNonEmpty TPE1 frames with
  | Some v => Some v
  | None => id3Artist st
  end.
Proof.
  unfold lastNonEmpty.
  induction frames as [|[f t] frames IH]; intros st; [reflexivity|].
  cbn [fold_left fst snd rev]. rewrite IH, firstNonEmpty_app.
  destruct (firstNonEmpty TPE1 (rev frames)); [reflexivity|].
  rewrite id3Artist_record. cbn [firstNonEmpty].
  destruct (JS.eqb f TPE1 && negb (length t =? 0)%nat); reflexivity.
Qed.

(** [firstNonEmpty] finds the first frame of the identifier whose text is
    not empty. *)
Lemma firstNonEmpty_spec : forall frameId frames v,
  firstNonEmpty frameId frames = Some v <->
  exists l1 l2, frames = l1 ++ (frameId, v) :: l2 /\ v <> [] /\
                forall w, In (frameId, w) l1 -> w = [].
Proof.
  intros frameId. induction frames as [|[f t] frames IH]; intros v.
  - simpl. split; [discriminate|]. intros [[|? ?] [l2 [H _]]]; discriminate.
  - cbn [firstNonEmpty].
    destruct (JS.eqb f frameId && negb (length t =? 0)%nat) eqn:E.
    + apply andb_true_iff in E as [E1 E2]. apply eqb_eq in E1. subst f.
      assert (Ht : t <> []) by (destruct t; [discriminate | congruence]).
      split.
      * intros H. injection H as <-. exists [], frames. simpl.
        repeat split; auto.
        intros w [].
      * intros [l1 [l2 [H [Hv Hl1]]]]. destruct l1 as [|[f' t'] l1].
        -- simpl in H. now injection H as ->.
        -- simpl in H. injection H as <- <- _.
           specialize (Hl1 t (or_introl eq_refl)). contradiction.
    + rewrite IH. split.
      * intros [l1 [l2 [H [Hv Hl1]]]]. exists ((f, t) :: l1), l2.
        simpl. rewrite H. repeat split; auto.
        intros w [Hw|Hw]; [|now apply Hl1].
        injection Hw as -> ->. rewrite eqb_refl in E. simpl in E.
        apply negb_false_iff, Nat.eqb_eq in E. now destruct w.
      * intros [l1 [l2 [H [Hv Hl1]]]]. destruct l1 as [|[f' t'] l1].
        -- simpl in H. injection H as -> -> _. rewrite eqb_refl in E.
           simpl in E. apply negb_false_iff, Nat.eqb_eq in E.
           destruct v; [congruence | discriminate].
        -- simpl in H. injection H as _ _ H. exists l1, l2.
           repeat split; auto. intros w Hw. apply Hl1. now right.
Qed.

Lemma lastNonEmpty_spec : forall frameId frames v,
  lastNonEmpty frameId frames = Some v <->
  exists l1 l2, frames = l1 ++ (frameId, v) :: l2 /\ v <> [] /\
                forall w, In (frameId, w) l2 -> w = [].
Proof.
  intros frameId frames v. unfold lastNonEmpty.
  rewrite firstNonEmpty_spec. split.
  - intros [l1 [l2 [H [Hv Hl]]]]. exists (rev l2), (rev l1).
    repeat split; auto.
    + rewrite <- (rev_involutive frames), H, rev_app_distr. simpl.
      now rewrite <- app_assoc.
    + intros w Hw. apply Hl. now apply in_rev.
  - intros [l1 [l2 [H [Hv Hl]]]]. exists (rev l2), (rev l1).
    repeat split; auto.
    + rewrite H, rev_app_distr. simpl. now rewrite <- app_assoc.
    + intros w Hw. apply Hl. now apply in_rev in Hw.
Qed.

(** C4, as the code has it: each field holds the text of the last frame of
    its identifier whose decoded text is not empty; the empty texts that
    follow it leave it in place. *)
Theorem readTags_last_nonempty : forall decode buffer,
  exists st threw,
    readTags decode buffer = Some (st, threw) /\
    let frames := framesOf decode buffer in
    (forall v, id3Title st = Some v <->
       exists l1 l2, frames = l1 ++ (TIT2, v) :: l2 /\ v <> [] /\
                     forall w, In (TIT2, w) l2 -> w = []) /\
    (forall v, id3Artist st = Some v <->
       exists l1 l2, frames = l1 ++ (TPE1, v) :: l2 /\ v <> [] /\
                     forall w, In (TPE1, w) l2 -> w = []).
Proof.
  intros decode buffer.
  destruct (readTags_terminates decode buffer) as [st [threw H]].
  exists st, threw. split; [exact H|]. intros frames.
  assert (Hst : st = fold_left (fun s f => record s (fst f) (snd f))
                               frames noTags).
  { unfold frames, framesOf. unfold readTags in H.
    destruct (hasMagic buffer) as [[|]|].
    - destruct (getUint8 buffer 3) as [version|];
        [|now injection H as <- _].
      destruct (synchsafe buffer 6) as [size|]; [|now injection H as <- _].
      now apply walk_decoded in H.
    - now injection H as <- _.
    - now injection H as <- _. }
  split; intros v; rewrite <- lastNonEmpty_spec, Hst.
  - rewrite fold_record_title. cbn [id3Title noTags].
    destruct (lastNonEmpty TIT2 frames); split; congruence.
  - rewrite fold_record_artist. cbn [id3Artist noTags].
    destruct (lastNonEmpty TPE1 frames); split; congruence.
Qed.

(** C4, as the claim has it, fails on a tag with two titles: the reader
    reports the second title, the first non-empty one is the other. *)
Lemma readTags_reports_later_title :
  readTags asciiDecoder twoTitles =
    Some ({| id3Title := Some (js "B"); id3Artist := None |}, false) /\
  firstNonEmpty TIT2 (framesOf asciiDecoder twoTitles) = Some (js "A").
Proof. split; vm_compute; reflexivity. Qed.

(** A tag title wins, a blank tag artist gives way to the one of the file
    name, and no artist at all gives Unknown. *)
Lemma mergeMetadata_precedence_witness :
  mergeMetadata {| id3Title := Some (js "Song"); id3Artist := Some (js " ") |}
                (js "X - Other.mp3") =
    {| title := Some (js "Song"); artist := Some (js "X") |} /\
  artist (mergeMetadata noTags (js "Other.mp3")) = Some (js "Unknown").
Proof.
  split.
  - destruct (mergeMetadata_precedence
                {| id3Title := Some (js "Song"); id3Artist := Some (js " ") |}
                (js "X - Other.mp3")) as [Ht [_ [_ [_ [Ha _]]]]].
    cbv zeta in Ht, Ha.
    specialize (Ht (js "Song") eq_refl ltac:(discriminate)).
    specialize (Ha eq_refl (js "X") eq_refl ltac:(discriminate)).
    destruct (mergeMetadata _ _) as [t a]. cbn [title artist] in Ht, Ha.
    now rewrite Ht, Ha.
  - destruct (mergeMetadata_precedence noTags (js "Other.mp3"))
      as [_ [_ [_ [_ [_ Hu]]]]].
    cbv zeta in Hu. apply Hu; [exact I | left; reflexivity].
Defined.

(** A buffer cut after two bytes: the third read throws, the exception is
    caught and the file name decides. *)
Lemma getTrackMetadata_never_raises_witness :
  readTags asciiDecoder [0x49; 0x44] = Some (noTags, true) /\
  getTrackMetadata asciiDecoder (Some [0x49; 0x44])
                   (js "Artist - Title.mp3") =
    Some (Normal {| title := Some (js "Title");
                    artist := Some (js "Artist") |}).
Proof.
  split; [reflexivity|].
  destruct (getTrackMetadata_never_raises asciiDecoder (Some [0x49; 0x44])
              (js "Artist - Title.mp3")) as [_ H].
  rewrite H; [reflexivity|].
  intros [rest Hr]. discriminate.
Defined.

(** The tag with the titles A and B yields B. *)
Lemma readTags_last_nonempty_witness :
  exists st threw,
    readTags asciiDecoder twoTitles = Some (st, threw) /\
    id3Title st = Some (js "B").
Proof.
  destruct (readTags_last_nonempty asciiDecoder twoTitles)
    as [st [threw [H [Ht _]]]].
  exists st, threw. split; [exact H|]. apply Ht.
  exists [(TIT2, js "A")], []. split; [reflexivity|].
  split; [discriminate | intros w []].
Defined.

End Id3Facts.

(* ================================================================== *)
(** * Facts about the doubles *)
(* ================================================================== *)

Module DoubleFacts.
Import Double.
Local Open Scope Q_scope.

Lemma pow2_pos : forall e, 0 < pow2 e.
Proof. intros e. apply Qpower_0_lt. reflexivity. Qed.

Lemma pow2_add : forall a b, pow2 (a + b) == pow2 a * pow2 b.
Proof. intros a b. unfold pow2. apply Qpower_plus. discriminate. Qed.

Lemma pow2_sub : forall a b, pow2 (a - b) == pow2 a / pow2 b.
Proof.
  intros a b. unfold pow2. unfold Z.sub. rewrite Qpower_plus by discriminate.
  rewrite Qpower_opp. reflexivity.
Qed.

Lemma pow2_Z : forall n, (0 <= n)%Z -> pow2 n == inject_Z (2 ^ n).
Proof.
  intros n H. unfold pow2. rewrite Zpower_Qpower by exact H. reflexivity.
Qed.

Lemma pow2_le : forall a b, (a <= b)%Z -> pow2 a <= pow2 b.
Proof.
  intros a b H. replace b with (a + (b - a))%Z by lia.
  rewrite pow2_add. rewrite <- (Qmult_1_r (pow2 a)) at 1.
  apply Qmult_le_l; [apply pow2_pos|].
  rewrite pow2_Z by lia. change 1 with (inject_Z 1). rewrite <- Zle_Qle.
  assert (0 < 2 ^ (b - a))%Z by (apply Z.pow_pos_nonneg; lia). lia.
Qed.

Lemma pow2_lt : forall a b, (a < b)%Z -> pow2 a < pow2 b.
Proof.
  intros a b H. replace b with (a + (b - a))%Z by lia.
  rewrite pow2_add. rewrite <- (Qmult_1_r (pow2 a)) at 1.
  apply Qmult_lt_l; [apply pow2_pos|].
  rewrite pow2_Z by lia. change 1 with (inject_Z 1). rewrite <- Zlt_Qlt.
  apply Z.pow_gt_1; lia.
Qed.

Lemma pow2_le_inv : forall a b, pow2 a <= pow2 b -> (a <= b)%Z.
Proof.
  intros a b H. destruct (Z_le_gt_dec a b) as [L|G]; [exact L|].
  exfalso. assert (pow2 b < pow2 a) by (apply pow2_lt; lia).
  apply (Qlt_irrefl (pow2 a)). eapply Qle_lt_trans; eauto.
Qed.

Lemma pow2_lt_inv : forall a b, pow2 a < pow2 b -> (a < b)%Z.
Proof.
  intros a b H. destruct (Z_lt_ge_dec a b) as [L|G]; [exact L|].
  exfalso. assert (pow2 b <= pow2 a) by (apply pow2_le; lia).
  apply (Qlt_irrefl (pow2 a)). eapply Qlt_le_trans; eauto.
Qed.


Lemma ilog2_spec : forall a, 0 < a ->
  pow2 (ilog2 a) <= a /\ a < pow2 (ilog2 a + 1).
Proof.
  intros [n d] Ha. assert (Hn : (0 < n)%Z) by (unfold Qlt in Ha; cbn in Ha; lia).
  unfold ilog2. cbn [Qnum Qden].
  set (p := Z.log2 n). set (q := Z.log2 (Z.pos d)).
  destruct (Z.log2_spec n Hn) as [P1 P2]. fold p in P1, P2.
  destruct (Z.log2_spec (Z.pos d) ltac:(lia)) as [Q1 Q2]. fold q in Q1, Q2.
  assert (Hp : (0 <= p)%Z) by apply Z.log2_nonneg.
  assert (Hq : (0 <= q)%Z) by apply Z.log2_nonneg.
  rewrite <- Z.add_1_r in P2, Q2.
  assert (N1 : pow2 p <= inject_Z n) by (rewrite pow2_Z, <- Zle_Qle; lia).
  assert (N2 : inject_Z n < pow2 (p + 1)) by (rewrite pow2_Z, <- Zlt_Qlt; lia).
  assert (D1 : pow2 q <= inject_Z (Z.pos d)) by (rewrite pow2_Z, <- Zle_Qle; lia).
  assert (D2 : inject_Z (Z.pos d) < pow2 (q + 1))
    by (rewrite pow2_Z, <- Zlt_Qlt; lia).
  assert (D0 : 0 < inject_Z (Z.pos d))
    by (change 0 with (inject_Z 0); rewrite <- Zlt_Qlt; lia).
  assert (A : n # d < pow2 (p - q + 1)).
  { rewrite Qmake_Qdiv. apply Qlt_shift_div_r; [exact D0|].
    eapply Qlt_le_trans; [exact N2|].
    replace (p + 1)%Z with ((p - q + 1) + q)%Z by lia. rewrite pow2_add.
    apply Qmult_le_l; [apply pow2_pos | exact D1]. }
  assert (B : pow2 (p - q - 1) < n # d).
  { rewrite Qmake_Qdiv. apply Qlt_shift_div_l; [exact D0|].
    eapply Qlt_le_trans; [|exact N1].
    replace p with ((p - q - 1) + (q + 1))%Z at 2 by lia. rewrite pow2_add.
    apply Qmult_lt_l; [apply pow2_pos | exact D2]. }
  destruct (Qle_bool (pow2 (p - q)) (n # d)) eqn:E.
  - apply Qle_bool_iff in E. split; [exact E | exact A].
  - split; [apply Qlt_le_weak; exact B|].
    replace (p - q - 1 + 1)%Z with (p - q)%Z by lia.
    apply Qnot_le_lt. intros H. apply Qle_bool_iff in H. congruence.
Qed.

Lemma ilog2_unique : forall a e,
  pow2 e <= a -> a < pow2 (e + 1) -> ilog2 a = e.
Proof.
  intros a e H1 H2.
  assert (Ha : 0 < a) by (eapply Qlt_le_trans; [apply (pow2_pos e) | exact H1]).
  destruct (ilog2_spec a Ha) as [S1 S2].
  assert (ilog2 a < e + 1)%Z
    by (apply pow2_lt_inv; eapply Qle_lt_trans; eauto).
  assert (e < ilog2 a + 1)%Z
    by (apply pow2_lt_inv; eapply Qle_lt_trans; eauto).
  lia.
Qed.

Lemma ilog2_mono : forall a b, 0 < a -> a <= b -> (ilog2 a <= ilog2 b)%Z.
Proof.
  intros a b Ha Hab.
  assert (Hb : 0 < b) by (eapply Qlt_le_trans; eauto).
  destruct (ilog2_spec a Ha) as [A1 _]. destruct (ilog2_spec b Hb) as [_ B2].
  assert (ilog2 a < ilog2 b + 1)%Z.
  { apply pow2_lt_inv. eapply Qle_lt_trans; [exact A1|].
    eapply Qle_lt_trans; eauto. }
  lia.
Qed.

Lemma ilog2_comp : forall a b, 0 < a -> a == b -> ilog2 a = ilog2 b.
Proof.
  intros a b Ha E. symmetry.
  destruct (ilog2_spec a Ha) as [A1 A2].
  apply ilog2_unique; rewrite <- E; assumption.
Qed.

(** ** Rounding to the nearest integer, ties to even *)

Lemma roundEven_cases : forall m,
  let f := Qfloor m in
  (roundEven m = f /\ m - inject_Z f <= 1 # 2) \/
  (roundEven m = (f + 1)%Z /\ 1 # 2 <= m - inject_Z f).
Proof.
  intros m f. unfold roundEven. fold f.
  destruct (Qcompare_spec (m - inject_Z f) (1 # 2)) as [E|L|G].
  - destruct (Z.even f); [left | right]; (split; [reflexivity|]);
      rewrite E; apply Qle_refl.
  - left. split; [reflexivity | now apply Qlt_le_weak].
  - right. split; [reflexivity | now apply Qlt_le_weak].
Qed.

Lemma roundEven_error : forall m,
  - (1 # 2) <= inject_Z (roundEven m) - m <= 1 # 2.
Proof.
  intros m. pose proof (Qfloor_le m) as F1. pose proof (Qlt_floor m) as F2.
  rewrite inject_Z_plus in F2. change (inject_Z 1) with 1 in F2.
  destruct (roundEven_cases m) as [[-> H]|[-> H]].
  - split; lra.
  - rewrite inject_Z_plus. change (inject_Z 1) with 1. split; lra.
Qed.

Lemma roundEven_Z : forall n, roundEven (inject_Z n) = n.
Proof.
  intros n. unfold roundEven. rewrite Qfloor_Z.
  replace (Qcompare (inject_Z n - inject_Z n) (1 # 2)) with Lt; [reflexivity|].
  symmetry. apply Qlt_alt.
  setoid_replace (inject_Z n - inject_Z n) with 0 by ring. reflexivity.
Qed.

Lemma roundEven_comp : forall m m', m == m' -> roundEven m = roundEven m'.
Proof.
  intros m m' E. unfold roundEven. rewrite (Qfloor_comp _ _ E).
  now rewrite E.
Qed.

Lemma roundEven_mono : forall m1 m2,
  m1 <= m2 -> (roundEven m1 <= roundEven m2)%Z.
Proof.
  intros m1 m2 H. pose proof (Qfloor_resp_le _ _ H) as F.
  destruct (Z.eq_dec (Qfloor m1) (Qfloor m2)) as [E|N].
  - unfold roundEven. rewrite E.
    destruct (Qcompare_spec (m1 - inject_Z (Qfloor m2)) (1 # 2)) as [E1|L1|G1];
      destruct (Qcompare_spec (m2 - inject_Z (Qfloor m2)) (1 # 2)) as [E2|L2|G2];
      try destruct (Z.even (Qfloor m2)); try lia; exfalso; lra.
  - assert (Qfloor m1 + 1 <= Qfloor m2)%Z by lia.
    destruct (roundEven_cases m1) as [[-> _]|[-> _]];
      destruct (roundEven_cases m2) as [[-> _]|[-> _]]; lia.
Qed.

Lemma roundEven_ge : forall m n, inject_Z n <= m -> (n <= roundEven m)%Z.
Proof.
  intros m n H. rewrite <- (roundEven_Z n). now apply roundEven_mono.
Qed.

Lemma roundEven_le : forall m n, m <= inject_Z n -> (roundEven m <= n)%Z.
Proof.
  intros m n H. rewrite <- (roundEven_Z n). now apply roundEven_mono.
Qed.


(** ** Rounding a positive rational *)

Lemma quantum_pos : forall a, 0 < quantum a.
Proof. intros a. apply pow2_pos. Qed.

Lemma quantum_comp : forall a b, 0 < a -> a == b -> quantum a = quantum b.
Proof. intros a b Ha E. unfold quantum. now rewrite (ilog2_comp a b Ha E). Qed.

Lemma rndAbs_comp : forall a b, 0 < a -> a == b -> rndAbs a == rndAbs b.
Proof.
  intros a b Ha E. unfold rndAbs. rewrite (quantum_comp a b Ha E).
  rewrite (roundEven_comp (a / quantum b) (b / quantum b)); [reflexivity|].
  now rewrite E.
Qed.

Lemma scaled : forall a, a / quantum a * quantum a == a.
Proof.
  intros a. field. intros H. pose proof (quantum_pos a) as P.
  rewrite H in P. discriminate.
Qed.

Lemma rndAbs_error : forall a,
  - (quantum a * (1 # 2)) <= rndAbs a - a <= quantum a * (1 # 2).
Proof.
  intros a. unfold rndAbs. pose proof (quantum_pos a) as U.
  pose proof (roundEven_error (a / quantum a)) as [E1 E2].
  pose proof (scaled a) as S.
  set (u := quantum a) in *. set (m := a / u) in *.
  set (r := inject_Z (roundEven m)) in *. clearbody r m u.
  assert (P1 : 0 <= (r - m + (1 # 2)) * u)
    by (apply Qmult_le_0_compat; lra).
  assert (P2 : 0 <= ((1 # 2) - (r - m)) * u)
    by (apply Qmult_le_0_compat; lra).
  split; nra.
Qed.

Lemma rndAbs_nonneg : forall a, 0 <= a -> 0 <= rndAbs a.
Proof.
  intros a Ha. unfold rndAbs. apply Qmult_le_0_compat.
  - change 0 with (inject_Z 0). rewrite <- Zle_Qle. apply roundEven_ge.
    change (inject_Z 0) with 0.
    apply Qle_shift_div_l; [apply quantum_pos|]. now rewrite Qmult_0_l.
  - apply Qlt_le_weak, quantum_pos.
Qed.

Lemma rndAbs_upper : forall a, 0 < a ->
  rndAbs a <= pow2 (Z.max (ilog2 a) (-1022) + 1).
Proof.
  intros a Ha. unfold rndAbs, quantum. set (E := Z.max (ilog2 a) (-1022)).
  destruct (ilog2_spec a Ha) as [_ S2].
  assert (A : a <= pow2 (E + 1)).
  { apply Qlt_le_weak. eapply Qlt_le_trans; [exact S2|]. apply pow2_le.
    unfold E. lia. }
  replace (E + 1)%Z with (53 + (E - 52))%Z by lia. rewrite pow2_add.
  apply Qmult_le_compat_r; [|apply Qlt_le_weak, pow2_pos].
  rewrite (pow2_Z 53) by lia. rewrite <- Zle_Qle. apply roundEven_le.
  rewrite <- (pow2_Z 53) by lia.
  apply Qle_shift_div_r; [apply pow2_pos|]. rewrite <- pow2_add.
  now replace (53 + (E - 52))%Z with (E + 1)%Z by lia.
Qed.

Lemma rndAbs_lower : forall a, 0 < a -> (-1022 <= ilog2 a)%Z ->
  pow2 (ilog2 a) <= rndAbs a.
Proof.
  intros a Ha He. unfold rndAbs, quantum.
  rewrite Z.max_l by exact He. set (E := ilog2 a).
  destruct (ilog2_spec a Ha) as [S1 _]. fold E in S1.
  replace E with (52 + (E - 52))%Z at 1 by lia. rewrite pow2_add.
  apply Qmult_le_compat_r; [|apply Qlt_le_weak, pow2_pos].
  rewrite (pow2_Z 52) by lia. rewrite <- Zle_Qle. apply roundEven_ge.
  rewrite <- (pow2_Z 52) by lia.
  apply Qle_shift_div_l; [apply pow2_pos|]. rewrite <- pow2_add.
  now replace (52 + (E - 52))%Z with E by lia.
Qed.

Lemma rndAbs_mono : forall a b, 0 < a -> a <= b -> rndAbs a <= rndAbs b.
Proof.
  intros a b Ha Hab.
  assert (Hb : 0 < b) by (eapply Qlt_le_trans; eauto).
  pose proof (ilog2_mono a b Ha Hab) as M.
  destruct (Z.eq_dec (Z.max (ilog2 a) (-1022)) (Z.max (ilog2 b) (-1022)))
    as [E|N].
  - unfold rndAbs, quantum. rewrite E.
    apply Qmult_le_compat_r; [|apply Qlt_le_weak, pow2_pos].
    rewrite <- Zle_Qle. apply roundEven_mono.
    apply Qmult_le_compat_r; [exact Hab|].
    apply Qlt_le_weak, Qinv_lt_0_compat, pow2_pos.
  - assert (Hlt : (Z.max (ilog2 a) (-1022) < ilog2 b)%Z) by lia.
    eapply Qle_trans; [apply (rndAbs_upper a Ha)|].
    eapply Qle_trans; [|apply (rndAbs_lower b Hb); lia].
    apply pow2_le. lia.
Qed.

(** A positive value on the grid of its binade is left as it is. *)
Lemma rndAbs_fix : forall v n,
  0 < v -> v == inject_Z n * quantum v -> rndAbs v == v.
Proof.
  intros v n Hv E. unfold rndAbs.
  rewrite (roundEven_comp (v / quantum v) (inject_Z n)).
  - rewrite roundEven_Z. now symmetry.
  - rewrite E at 1. field. intros H. pose proof (quantum_pos v) as P.
    rewrite H in P. discriminate.
Qed.

Lemma quantum_of : forall v E,
  0 < v -> v < pow2 (E + 1) -> pow2 E <= v \/ E = (-1022)%Z ->
  (-1022 <= E)%Z -> quantum v = pow2 (E - 52).
Proof.
  intros v E Hv H2 H1 HE. unfold quantum. f_equal. f_equal.
  destruct H1 as [H1| ->].
  - rewrite (ilog2_unique v E H1 H2). lia.
  - destruct (ilog2_spec v Hv) as [S1 _].
    assert (ilog2 v < -1022 + 1)%Z
      by (apply pow2_lt_inv; eapply Qle_lt_trans; eauto).
    lia.
Qed.

Lemma rndAbs_idem : forall a, 0 < a -> 0 < rndAbs a ->
  rndAbs (rndAbs a) == rndAbs a.
Proof.
  intros a Ha Hv. set (E := Z.max (ilog2 a) (-1022)).
  pose proof (rndAbs_upper a Ha) as U. fold E in U.
  assert (HE : (-1022 <= E)%Z) by (unfold E; lia).
  set (n := roundEven (a / quantum a)).
  assert (V : rndAbs a == inject_Z n * pow2 (E - 52)) by reflexivity.
  destruct (Qlt_le_dec (rndAbs a) (pow2 (E + 1))) as [L|G].
  - apply (rndAbs_fix _ n Hv).
    rewrite (quantum_of (rndAbs a) E Hv L); [exact V | | exact HE].
    destruct (Z_le_gt_dec (-1022) (ilog2 a)) as [C|C].
    + left. unfold E. rewrite Z.max_l by exact C. now apply rndAbs_lower.
    + right. unfold E. lia.
  - assert (T : rndAbs a == pow2 (E + 1)) by (apply Qle_antisym; assumption).
    apply (rndAbs_fix _ (2 ^ 52) Hv).
    rewrite (quantum_of (rndAbs a) (E + 1) Hv).
    + rewrite T at 1. rewrite <- (pow2_Z 52) by lia. rewrite <- pow2_add.
      now replace (52 + (E + 1 - 52))%Z with (E + 1)%Z by lia.
    + rewrite T. apply pow2_lt. lia.
    + left. rewrite T. apply Qle_refl.
    + lia.
Qed.

(** ** Rounding *)

Lemma rnd_0 : forall x, x == 0 -> rnd x = 0.
Proof.
  intros x H. unfold rnd.
  destruct (Qcompare_spec x 0) as [E|L|G]; [reflexivity | |]; exfalso; lra.
Qed.

Lemma rnd_pos : forall x, 0 < x -> rnd x = Qred (rndAbs x).
Proof.
  intros x H. unfold rnd.
  destruct (Qcompare_spec x 0) as [E|L|G]; [| |reflexivity]; exfalso; lra.
Qed.

Lemma rnd_neg : forall x, x < 0 -> rnd x = - Qred (rndAbs (- x)).
Proof.
  intros x H. unfold rnd.
  destruct (Qcompare_spec x 0) as [E|L|G]; [|reflexivity|]; exfalso; lra.
Qed.

Lemma Qopp_opp_eq : forall q : Q, - - q = q.
Proof. intros [n d]. unfold Qopp. cbn. now rewrite Z.opp_involutive. Qed.

Lemma rnd_opp : forall x, rnd (- x) = - rnd x.
Proof.
  intros x. destruct (Q_dec x 0) as [[L|G]|E].
  - rewrite (rnd_neg x L), rnd_pos by lra.
    now rewrite Qopp_opp_eq.
  - rewrite (rnd_pos x G), rnd_neg by lra.
    now rewrite Qopp_opp_eq.
  - rewrite (rnd_0 x E), rnd_0; [reflexivity|]. rewrite E. reflexivity.
Qed.


Lemma rnd_comp : forall x y, x == y -> rnd x = rnd y.
Proof.
  intros x y E. destruct (Q_dec x 0) as [[L|G]|Z].
  - rewrite (rnd_neg x L), (rnd_neg y) by lra. f_equal.
    apply Qred_complete, rndAbs_comp; [lra | now rewrite E].
  - rewrite (rnd_pos x G), (rnd_pos y) by lra.
    apply Qred_complete, rndAbs_comp; [lra | exact E].
  - rewrite (rnd_0 x Z), (rnd_0 y); [reflexivity | lra].
Qed.

Lemma rnd_nonneg : forall x, 0 <= x -> 0 <= rnd x.
Proof.
  intros x H. destruct (Qle_lt_or_eq _ _ H) as [G|E].
  - rewrite (rnd_pos x G), Qred_correct. apply rndAbs_nonneg. exact H.
  - rewrite (rnd_0 x); [apply Qle_refl | now symmetry].
Qed.

Lemma rnd_nonpos : forall x, x <= 0 -> rnd x <= 0.
Proof.
  intros x H. assert (N : 0 <= rnd (- x)) by (apply rnd_nonneg; lra).
  rewrite rnd_opp in N. lra.
Qed.

Lemma rnd_mono_pos : forall x y, 0 < x -> x <= y -> rnd x <= rnd y.
Proof.
  intros x y Hx H. rewrite (rnd_pos x Hx), (rnd_pos y) by lra.
  rewrite !Qred_correct. now apply rndAbs_mono.
Qed.

Lemma rnd_mono : forall x y, x <= y -> rnd x <= rnd y.
Proof.
  intros x y H. destruct (Qlt_le_dec 0 x) as [Px|Nx].
  - now apply rnd_mono_pos.
  - destruct (Qlt_le_dec y 0) as [Ny|Py].
    + assert (M : rnd (- y) <= rnd (- x)) by (apply rnd_mono_pos; lra).
      rewrite !rnd_opp in M. lra.
    + pose proof (rnd_nonpos x Nx). pose proof (rnd_nonneg y Py). lra.
Qed.

Lemma rnd_idem : forall x, rnd (rnd x) = rnd x.
Proof.
  assert (P : forall x, 0 < x -> rnd (rnd x) = rnd x).
  { intros x G. rewrite (rnd_pos x G).
    pose proof (rndAbs_nonneg x (Qlt_le_weak _ _ G)) as N.
    destruct (Qle_lt_or_eq _ _ N) as [V|V].
    - rewrite rnd_pos by (now rewrite Qred_correct).
      apply Qred_complete.
      rewrite (rndAbs_comp (Qred (rndAbs x)) (rndAbs x));
        [now apply rndAbs_idem | now rewrite Qred_correct | apply Qred_correct].
    - rewrite rnd_0 by (now rewrite Qred_correct).
      symmetry. change 0 with (Qred 0). apply Qred_complete. now symmetry. }
  intros x. destruct (Q_dec x 0) as [[L|G]|Z].
  - assert (H : rnd (rnd (- x)) = rnd (- x)) by (apply P; lra).
    rewrite !rnd_opp in H. rewrite <- (Qopp_opp_eq (rnd (rnd x))), H.
    apply Qopp_opp_eq.
  - now apply P.
  - rewrite (rnd_0 x Z). now apply rnd_0.
Qed.

Lemma isDouble_rnd : forall x, isDouble (rnd x).
Proof. intros x. apply rnd_idem. Qed.

Lemma isDouble_0 : isDouble 0.
Proof. reflexivity. Qed.

Lemma isDouble_opp : forall x, isDouble x -> isDouble (- x).
Proof. intros x H. unfold isDouble. now rewrite rnd_opp, H. Qed.

(** A double at or above a value is at or above its rounding, and the
    other way round. *)
Lemma rnd_le_double : forall x d, isDouble d -> x <= d -> rnd x <= d.
Proof. intros x d D H. rewrite <- D. now apply rnd_mono. Qed.

Lemma rnd_ge_double : forall x d, isDouble d -> d <= x -> d <= rnd x.
Proof. intros x d D H. rewrite <- D. now apply rnd_mono. Qed.

(** The error of a rounding below [2^k]. *)
Lemma rnd_error : forall x k,
  0 <= x -> x < pow2 k -> (-1021 <= k)%Z ->
  - pow2 (k - 54) <= rnd x - x <= pow2 (k - 54).
Proof.
  intros x k H0 Hk K. pose proof (pow2_pos (k - 54)) as P.
  destruct (Qle_lt_or_eq _ _ H0) as [G|E].
  - rewrite (rnd_pos x G), Qred_correct.
    pose proof (rndAbs_error x) as [E1 E2].
    destruct (ilog2_spec x G) as [S1 _].
    assert (I : (ilog2 x < k)%Z)
      by (apply pow2_lt_inv; eapply Qle_lt_trans; eauto).
    assert (U : quantum x <= pow2 (k - 53)) by (apply pow2_le; lia).
    assert (T : pow2 (k - 53) == 2 * pow2 (k - 54)).
    { replace (k - 53)%Z with (1 + (k - 54))%Z by lia. now rewrite pow2_add. }
    lra.
  - rewrite (rnd_0 x) by (now symmetry). lra.
Qed.

(** ** Integers *)

Lemma Qred_inject_Z : forall n, Qred (inject_Z n) = inject_Z n.
Proof.
  intros n. unfold Qred, inject_Z.
  pose proof (Z.ggcd_gcd n 1) as G. pose proof (Z.ggcd_correct_divisors n 1) as D.
  destruct (Z.ggcd n 1) as [g [a b]]. cbn [fst snd] in *.
  rewrite Z.gcd_1_r in G. subst g. destruct D as [Da Db].
  rewrite Z.mul_1_l in Da, Db. subst. reflexivity.
Qed.

Lemma pow2_neg_scale : forall t, (t <= 0)%Z ->
  inject_Z (2 ^ (- t)) * pow2 t == 1.
Proof.
  intros t H. rewrite <- pow2_Z by lia. rewrite <- pow2_add.
  replace (- t + t)%Z with 0%Z by lia. reflexivity.
Qed.

Lemma Z_on_grid : forall n t, (t <= 0)%Z ->
  inject_Z n == inject_Z (n * 2 ^ (- t)) * pow2 t.
Proof.
  intros n t H. rewrite inject_Z_mult, <- Qmult_assoc, pow2_neg_scale by exact H.
  ring.
Qed.

Lemma isDouble_Z : forall n, (Z.abs n < 2 ^ 53)%Z -> isDouble (inject_Z n).
Proof.
  assert (P : forall n, (0 < n < 2 ^ 53)%Z -> isDouble (inject_Z n)).
  { intros n [H0 H1]. unfold isDouble.
    assert (G : 0 < inject_Z n)
      by (change 0 with (inject_Z 0); rewrite <- Zlt_Qlt; exact H0).
    rewrite (rnd_pos _ G). rewrite <- (Qred_inject_Z n) at 2.
    apply Qred_complete.
    destruct (ilog2_spec _ G) as [S1 S2]. set (e := ilog2 (inject_Z n)) in *.
    assert (E1 : (e < 53)%Z).
    { apply pow2_lt_inv. eapply Qle_lt_trans; [exact S1|].
      rewrite (pow2_Z 53) by lia. rewrite <- Zlt_Qlt. exact H1. }
    assert (E0 : (0 <= e)%Z).
    { assert (0 < e + 1)%Z; [|lia]. apply pow2_lt_inv.
      eapply Qle_lt_trans; [|exact S2]. change (pow2 0) with (inject_Z 1).
      rewrite <- Zle_Qle. lia. }
    apply (rndAbs_fix _ (n * 2 ^ (- (e - 52))) G).
    unfold quantum. fold e. rewrite Z.max_l by lia.
    apply Z_on_grid. lia. }
  intros n H. destruct (Z.lt_trichotomy n 0) as [L|[E|G]].
  - replace n with (- - n)%Z by lia. rewrite inject_Z_opp.
    apply isDouble_opp, P. lia.
  - subst n. reflexivity.
  - apply P. lia.
Qed.

(** ** The grid of the doubles *)

Lemma double_positive : forall x, isDouble x -> 0 < x ->
  x == inject_Z (roundEven (x / quantum x)) * quantum x.
Proof.
  intros x D G. unfold isDouble in D. rewrite (rnd_pos x G) in D.
  rewrite <- D at 1. rewrite Qred_correct. reflexivity.
Qed.

Lemma double_grid : forall x j,
  isDouble x -> pow2 j <= x -> x < pow2 (j + 1) -> (-1022 <= j)%Z ->
  exists n, x == inject_Z n * pow2 (j - 52).
Proof.
  intros x j D H1 H2 J.
  assert (G : 0 < x) by (eapply Qlt_le_trans; [apply (pow2_pos j) | exact H1]).
  exists (roundEven (x / quantum x)).
  rewrite <- (quantum_of x j G H2 (or_introl H1) J).
  now apply double_positive.
Qed.

(** The doubles below a value of the grid of a binade are below it by a
    quantum or more. *)
Lemma double_below : forall x j N,
  isDouble x -> (-1022 <= j)%Z ->
  pow2 j < inject_Z N * pow2 (j - 52) ->
  inject_Z N * pow2 (j - 52) <= pow2 (j + 1) ->
  x < inject_Z N * pow2 (j - 52) ->
  x <= inject_Z (N - 1) * pow2 (j - 52).
Proof.
  intros x j N D J B1 B2 H. pose proof (pow2_pos (j - 52)) as U.
  assert (T : pow2 j == inject_Z (2 ^ 52) * pow2 (j - 52)).
  { rewrite <- (pow2_Z 52) by lia. rewrite <- pow2_add.
    now replace (52 + (j - 52))%Z with j by lia. }
  destruct (Qlt_le_dec x (pow2 j)) as [L|G].
  - apply Qlt_le_weak. eapply Qlt_le_trans; [exact L|].
    rewrite T. apply Qmult_le_compat_r; [|lra]. rewrite <- Zle_Qle.
    assert (2 ^ 52 < N)%Z; [|lia]. rewrite Zlt_Qlt.
    apply (Qmult_lt_r _ _ (pow2 (j - 52)) U). now rewrite <- T.
  - destruct (double_grid x j D G) as [n E]; [lra | exact J |].
    rewrite E. apply Qmult_le_compat_r; [|lra]. rewrite <- Zle_Qle.
    assert (n < N)%Z; [|lia]. rewrite Zlt_Qlt.
    apply (Qmult_lt_r _ _ (pow2 (j - 52)) U). now rewrite <- E.
Qed.

(** Every double is a multiple of the smallest one. *)
Lemma double_unit : forall x, isDouble x ->
  exists n, x == inject_Z n * pow2 (-1074).
Proof.
  assert (P : forall x, isDouble x -> 0 < x ->
              exists n, x == inject_Z n * pow2 (-1074)).
  { intros x D G. set (E := Z.max (ilog2 x) (-1022)).
    exists (roundEven (x / quantum x) * 2 ^ (E + 1022))%Z.
    rewrite (double_positive x D G) at 1. unfold quantum. fold E.
    rewrite inject_Z_mult, <- Qmult_assoc.
    rewrite <- (pow2_Z (E + 1022)) by (unfold E; lia). rewrite <- pow2_add.
    now replace (E + 1022 + -1074)%Z with (E - 52)%Z by lia. }
  intros x D. destruct (Q_dec x 0) as [[L|G]|Z].
  - destruct (P (- x) (isDouble_opp x D)) as [n E]; [lra|].
    exists (- n)%Z. rewrite inject_Z_opp.
    setoid_replace x with (- - x) by ring. rewrite E. ring.
  - now apply P.
  - exists 0%Z. rewrite Z. ring.
Qed.

Lemma rnd_positive : forall z, pow2 (-1074) <= z -> 0 < rnd z.
Proof.
  intros z H. pose proof (pow2_pos (-1074)) as P.
  assert (G : 0 < z) by lra. rewrite (rnd_pos z G), Qred_correct.
  unfold rndAbs. apply Qmult_lt_0_compat; [|apply quantum_pos].
  change 0 with (inject_Z 0). rewrite <- Zlt_Qlt.
  assert (1 <= roundEven (z / quantum z))%Z; [|lia].
  apply roundEven_ge. change (inject_Z 1) with 1.
  apply Qle_shift_div_l; [apply quantum_pos|]. rewrite Qmult_1_l.
  unfold quantum. destruct (Z_le_gt_dec (-1022) (ilog2 z)) as [C|C].
  - rewrite Z.max_l by exact C. destruct (ilog2_spec z G) as [S1 _].
    eapply Qle_trans; [|exact S1]. apply pow2_le. lia.
  - rewrite Z.max_r by lia. exact H.
Qed.

(** The sign of a difference of doubles is not lost by its rounding. *)
Lemma fsub_sign : forall a b, isDouble a -> isDouble b ->
  (rnd (a - b) <= 0 <-> a <= b).
Proof.
  intros a b Da Db. split.
  - intros H. apply Qnot_lt_le. intros L.
    destruct (double_unit a Da) as [na Ea].
    destruct (double_unit b Db) as [nb Eb].
    pose proof (pow2_pos (-1074)) as P.
    assert (N : (nb < na)%Z).
    { rewrite Zlt_Qlt. apply (Qmult_lt_r _ _ (pow2 (-1074)) P).
      now rewrite <- Ea, <- Eb. }
    assert (Z : pow2 (-1074) <= a - b).
    { rewrite Ea, Eb.
      setoid_replace (inject_Z na * pow2 (-1074) - inject_Z nb * pow2 (-1074))
        with (inject_Z (na - nb) * pow2 (-1074))
        by (unfold Z.sub; rewrite inject_Z_plus, inject_Z_opp; ring).
      rewrite <- (Qmult_1_l (pow2 (-1074))) at 1.
      apply Qmult_le_compat_r; [|lra]. change 1 with (inject_Z 1).
      rewrite <- Zle_Qle. lia. }
    pose proof (rnd_positive _ Z). lra.
  - intros H. apply rnd_nonpos. lra.
Qed.

End DoubleFacts.

(** ** The arithmetic of the times *)

Module TimeFacts.
Import Double Lrc DoubleFacts.
Local Open Scope Q_scope.

Lemma minuteEdges_hold : minuteEdges = true.
Proof. vm_compute. reflexivity. Qed.

Lemma minuteEdge_at : forall k, (1 <= k <= 100)%Z -> minuteEdge k = true.
Proof.
  intros k H. pose proof minuteEdges_hold as T. unfold minuteEdges in T.
  rewrite forallb_forall in T. specialize (T (Z.to_nat k)).
  rewrite Z2Nat.id in T by lia. apply T. apply in_seq. lia.
Qed.

Lemma below_minute : forall x k,
  isDouble x -> (1 <= k <= 100)%Z -> x < inject_Z (60 * k) ->
  rnd (x / 60) < inject_Z k.
Proof.
  intros x k D K H. pose proof (minuteEdge_at k K) as T. unfold minuteEdge in T.
  cbv zeta in T. set (j := ilog2 (inject_Z (60 * k))) in *.
  set (n := (60 * k * 2 ^ (52 - j))%Z) in *.
  apply andb_true_iff in T as [T T5]. apply andb_true_iff in T as [T T4].
  apply andb_true_iff in T as [T T3]. apply andb_true_iff in T as [T1 T2].
  apply Z.leb_le in T4, T5. apply Qle_bool_iff in T2.
  apply negb_true_iff in T1, T3.
  assert (B1 : pow2 j < inject_Z (60 * k)).
  { apply Qnot_le_lt. intros C. apply Qle_bool_iff in C. congruence. }
  assert (B3 : rnd (inject_Z (n - 1) * pow2 (j - 52) / 60) < inject_Z k).
  { apply Qnot_le_lt. intros C. apply Qle_bool_iff in C. congruence. }
  assert (G : inject_Z (60 * k) == inject_Z n * pow2 (j - 52)).
  { unfold n. replace (52 - j)%Z with (- (j - 52))%Z by lia.
    apply Z_on_grid. lia. }
  assert (L : x <= inject_Z (n - 1) * pow2 (j - 52)).
  { apply double_below; try assumption; rewrite <- G; assumption. }
  eapply Qle_lt_trans; [|exact B3]. apply rnd_mono.
  apply Qmult_le_compat_r; [exact L|]. discriminate.
Qed.

Lemma minutesOf_exact : forall x,
  isDouble x -> 0 <= x -> x < 6000 -> minutesOf x = Qfloor (x / 60).
Proof.
  intros x D H0 H1. unfold minutesOf, fdiv. set (k := Qfloor (x / 60)).
  pose proof (Qfloor_le (x / 60)) as F1. pose proof (Qlt_floor (x / 60)) as F2.
  fold k in F1, F2.
  assert (X : x / 60 == x * (1 # 60)) by (field).
  assert (K0 : (0 <= k)%Z).
  { unfold k. rewrite <- (Qfloor_Z 0). apply Qfloor_resp_le.
    change (inject_Z 0) with 0. lra. }
  assert (K1 : (k < 100)%Z).
  { rewrite Zlt_Qlt. eapply Qle_lt_trans; [exact F1|].
    change (inject_Z 100) with 100. lra. }
  assert (L : inject_Z k <= rnd (x / 60)).
  { apply rnd_ge_double; [apply isDouble_Z; lia | exact F1]. }
  assert (U : rnd (x / 60) < inject_Z (k + 1)).
  { apply below_minute; [exact D | lia |].
    rewrite inject_Z_mult. change (inject_Z 60) with 60. lra. }
  apply Z.le_antisymm.
  - assert (Qfloor (rnd (x / 60)) < k + 1)%Z; [|lia].
    rewrite Zlt_Qlt. eapply Qle_lt_trans; [apply Qfloor_le | exact U].
  - unfold k at 1. rewrite <- (Qfloor_Z (Qfloor (x / 60))).
    apply Qfloor_resp_le. exact L.
Qed.

Lemma floor_unique : forall q z,
  inject_Z z <= q -> q < inject_Z (z + 1) -> Qfloor q = z.
Proof.
  intros q z H1 H2. pose proof (Qfloor_le q) as F1.
  pose proof (Qlt_floor q) as F2.
  assert (Qfloor q < z + 1)%Z by (rewrite Zlt_Qlt; lra).
  assert (z < Qfloor q + 1)%Z by (rewrite Zlt_Qlt; lra).
  lia.
Qed.

Lemma floor_sub_Z : forall q n, Qfloor (q - inject_Z n) = (Qfloor q - n)%Z.
Proof.
  intros q n. pose proof (Qfloor_le q) as F1. pose proof (Qlt_floor q) as F2.
  apply floor_unique.
  - unfold Z.sub. rewrite inject_Z_plus, inject_Z_opp. lra.
  - replace (Qfloor q - n + 1)%Z with (Qfloor q + 1 - n)%Z by lia.
    unfold Z.sub at 1. rewrite inject_Z_plus, inject_Z_opp. lra.
Qed.

Lemma truncate_nonneg : forall q, 0 <= q -> truncate q = Qfloor q.
Proof.
  intros [n d] H. unfold truncate, Qfloor. cbn [Qnum Qden].
  apply Z.quot_div_nonneg; [|lia]. unfold Qle in H. cbn in H. lia.
Qed.

Section Below100.

Variable x : Q.
Hypothesis x_double : isDouble x.
Hypothesis x_nonneg : 0 <= x.
Hypothesis x_below : x < 6000.

Lemma minutes_range : (0 <= minutesOf x <= 99)%Z.
Proof.
  rewrite (minutesOf_exact x x_double x_nonneg x_below).
  pose proof (Qfloor_le (x / 60)) as F1.
  assert (X : x / 60 == x * (1 # 60)) by field.
  split.
  - rewrite <- (Qfloor_Z 0). apply Qfloor_resp_le.
    change (inject_Z 0) with 0. lra.
  - assert (Qfloor (x / 60) < 100)%Z; [|lia]. rewrite Zlt_Qlt.
    change (inject_Z 100) with 100. lra.
Qed.

Lemma secondsOf_exact :
  secondsOf x == x - 60 * inject_Z (minutesOf x).
Proof.
  unfold secondsOf, fmod. rewrite Qred_correct.
  rewrite truncate_nonneg.
  - now rewrite (minutesOf_exact x x_double x_nonneg x_below).
  - assert (X : x / 60 == x * (1 # 60)) by field. lra.
Qed.

Lemma secondsOf_range : 0 <= secondsOf x /\ secondsOf x < 60.
Proof.
  rewrite secondsOf_exact.
  rewrite (minutesOf_exact x x_double x_nonneg x_below).
  pose proof (Qfloor_le (x / 60)) as F1. pose proof (Qlt_floor (x / 60)) as F2.
  rewrite inject_Z_plus in F2. change (inject_Z 1) with 1 in F2.
  assert (X : x / 60 == x * (1 # 60)) by field.
  split; lra.
Qed.

Lemma hundredths_split :
  hundredthsOf (secondsOf x) = (hundredthsOf x - 6000 * minutesOf x)%Z.
Proof.
  unfold hundredthsOf at 1 2.
  rewrite <- floor_sub_Z. apply Qfloor_comp. rewrite secondsOf_exact.
  rewrite inject_Z_mult. change (inject_Z 6000) with 6000. ring.
Qed.

Lemma hundredths_range : (0 <= hundredthsOf (secondsOf x) <= 6000)%Z.
Proof.
  destruct secondsOf_range as [S0 S1]. unfold hundredthsOf. split.
  - rewrite <- (Qfloor_Z 0). apply Qfloor_resp_le.
    change (inject_Z 0) with 0. lra.
  - pose proof (Qfloor_le (secondsOf x * 100 + (1 # 2))) as F.
    assert (Qfloor (secondsOf x * 100 + (1 # 2)) < 6001)%Z; [|lia].
    rewrite Zlt_Qlt. change (inject_Z 6001) with 6001. lra.
Qed.

End Below100.

Lemma timeOf_close : forall m s,
  (0 <= m <= 99)%Z -> 0 <= s -> s <= 100 ->
  - eps <= timeOf m s - (inject_Z m * 60 + s) <= eps.
Proof.
  intros m s Hm S0 S1. unfold timeOf, fadd, fmul.
  assert (M0 : 0 <= inject_Z m)
    by (change 0 with (inject_Z 0); rewrite <- Zle_Qle; lia).
  assert (M1 : inject_Z m <= 99)
    by (change 99 with (inject_Z 99); rewrite <- Zle_Qle; lia).
  assert (A : rnd (inject_Z m * 60) = inject_Z (m * 60)).
  { rewrite (rnd_comp _ (inject_Z (m * 60))) by (now rewrite inject_Z_mult).
    apply isDouble_Z. assert ((2 ^ 53 = 9007199254740992)%Z) by reflexivity.
    lia. }
  rewrite A. rewrite inject_Z_mult. change (inject_Z 60) with 60.
  assert (R : - pow2 (7 - 54) <= rnd s - s <= pow2 (7 - 54)).
  { apply rnd_error; [lra | | lia]. change (pow2 7) with 128. lra. }
  change (pow2 (7 - 54)) with (1 # 140737488355328) in R.
  pose proof (rnd_nonneg s S0) as R0.
  set (r := rnd s) in *.
  assert (T : - pow2 (13 - 54) <= rnd (inject_Z m * 60 + r) -
                (inject_Z m * 60 + r) <= pow2 (13 - 54)).
  { apply rnd_error; [lra | | lia]. change (pow2 13) with 8192. lra. }
  change (pow2 (13 - 54)) with (1 # 2199023255552) in T.
  set (t := rnd (inject_Z m * 60 + r)) in *.
  unfold eps. clearbody t r. split; lra.
Qed.

Lemma readTime_close : forall m h,
  (0 <= m <= 99)%Z -> (0 <= h <= 6000)%Z ->
  - eps <= readTime m h - inject_Z (6000 * m + h) / 100 <= eps.
Proof.
  intros m h Hm Hh.
  assert (H0 : 0 <= inject_Z h)
    by (change 0 with (inject_Z 0); rewrite <- Zle_Qle; lia).
  assert (H1 : inject_Z h <= 6000)
    by (change 6000 with (inject_Z 6000); rewrite <- Zle_Qle; lia).
  assert (X : inject_Z h / 100 == inject_Z h * (1 # 100)) by field.
  unfold readTime.
  pose proof (timeOf_close m (inject_Z h / 100) Hm ltac:(lra) ltac:(lra)) as C.
  assert (Y : inject_Z (6000 * m + h) / 100 ==
              inject_Z m * 60 + inject_Z h / 100).
  { rewrite inject_Z_plus, inject_Z_mult. change (inject_Z 6000) with 6000.
    field. }
  rewrite Y. exact C.
Qed.

Lemma readTime_nonneg : forall m h,
  (0 <= m)%Z -> (0 <= h)%Z -> 0 <= readTime m h.
Proof.
  intros m h Hm Hh. unfold readTime, timeOf, fadd, fmul. apply rnd_nonneg.
  assert (0 <= rnd (inject_Z m * 60)).
  { apply rnd_nonneg. apply Qmult_le_0_compat; [|discriminate].
    change 0 with (inject_Z 0). rewrite <- Zle_Qle. lia. }
  assert (0 <= rnd (inject_Z h / 100)).
  { apply rnd_nonneg. apply Qle_shift_div_l; [reflexivity|].
    rewrite Qmult_0_l. change 0 with (inject_Z 0). rewrite <- Zle_Qle. lia. }
  lra.
Qed.

Lemma readTime_minute : forall m h,
  (0 <= m <= 99)%Z -> (h = 0 \/ h = 6000)%Z ->
  readTime m h == inject_Z (6000 * m + h) / 100.
Proof.
  intros m h Hm Hh. unfold readTime, timeOf, fadd, fmul.
  assert (P : (2 ^ 53 = 9007199254740992)%Z) by reflexivity.
  assert (A : rnd (inject_Z m * 60) = inject_Z (m * 60)).
  { rewrite (rnd_comp _ (inject_Z (m * 60))) by (now rewrite inject_Z_mult).
    apply isDouble_Z. lia. }
  assert (B : rnd (inject_Z h / 100) = inject_Z (h / 100)).
  { destruct Hh as [-> | ->]; reflexivity. }
  rewrite A, B.
  rewrite (rnd_comp _ (inject_Z (m * 60 + h / 100)))
    by (now rewrite inject_Z_plus).
  rewrite (isDouble_Z (m * 60 + h / 100)).
  - destruct Hh as [-> | ->].
    + change (0 / 100)%Z with 0%Z.
      rewrite !Z.add_0_r, !inject_Z_mult.
      change (inject_Z 60) with 60. change (inject_Z 6000) with 6000. field.
    + change (6000 / 100)%Z with 60%Z.
      rewrite !inject_Z_plus, !inject_Z_mult.
      change (inject_Z 60) with 60. change (inject_Z 6000) with 6000. field.
  - destruct Hh as [-> | ->].
    + change (0 / 100)%Z with 0%Z. lia.
    + change (6000 / 100)%Z with 60%Z. lia.
Qed.

Lemma reread_readTime : forall x,
  reread x = readTime (minutesOf x) (hundredthsOf (secondsOf x)).
Proof. reflexivity. Qed.

Lemma hundredths_bounds : forall x,
  inject_Z (hundredthsOf x) / 100 - (1 # 200) <= x /\
  x < inject_Z (hundredthsOf x) / 100 + (1 # 200).
Proof.
  intros x. unfold hundredthsOf.
  pose proof (Qfloor_le (x * 100 + (1 # 2))) as F1.
  pose proof (Qlt_floor (x * 100 + (1 # 2))) as F2.
  rewrite inject_Z_plus in F2. change (inject_Z 1) with 1 in F2.
  set (H := inject_Z (Qfloor (x * 100 + (1 # 2)))) in *.
  assert (X : H / 100 == H * (1 # 100)) by field.
  rewrite X. clearbody H. split; lra.
Qed.

Section Reread.

Variable x : Q.
Hypothesis x_double : isDouble x.
Hypothesis x_nonneg : 0 <= x.
Hypothesis x_below : x < 6000.

Lemma reread_close :
  - eps <= reread x - inject_Z (hundredthsOf x) / 100 <= eps.
Proof.
  rewrite reread_readTime.
  pose proof (minutes_range x x_double x_nonneg x_below) as M.
  pose proof (hundredths_range x x_double x_nonneg x_below) as H.
  pose proof (readTime_close _ _ M H) as C.
  replace (6000 * minutesOf x + hundredthsOf (secondsOf x))%Z
    with (hundredthsOf x) in C
    by (rewrite (hundredths_split x x_double x_nonneg x_below); lia).
  exact C.
Qed.

Lemma reread_hundredths : hundredthsOf (reread x) = hundredthsOf x.
Proof.
  pose proof reread_close as [C1 C2]. unfold eps in *.
  set (H := hundredthsOf x) in *. unfold hundredthsOf. apply floor_unique.
  - assert (X : inject_Z H / 100 == inject_Z H * (1 # 100)) by field.
    rewrite X in C1, C2. lra.
  - rewrite inject_Z_plus. change (inject_Z 1) with 1.
    assert (X : inject_Z H / 100 == inject_Z H * (1 # 100)) by field.
    rewrite X in C1, C2. lra.
Qed.

Lemma reread_near :
  - ((1 # 200) + eps) <= reread x - x <= (1 # 200) + eps.
Proof.
  pose proof reread_close as [C1 C2].
  pose proof (hundredths_bounds x) as [B1 B2]. split; lra.
Qed.

Lemma reread_double : isDouble (reread x) /\ 0 <= reread x.
Proof.
  split; [apply isDouble_rnd|]. rewrite reread_readTime.
  apply readTime_nonneg.
  - apply (minutes_range x x_double x_nonneg x_below).
  - apply (hundredths_range x x_double x_nonneg x_below).
Qed.

End Reread.

Lemma reread_mono : forall x y,
  isDouble x -> isDouble y -> 0 <= x -> x <= y -> y < 6000 ->
  reread x <= reread y.
Proof.
  intros x y Dx Dy X0 XY Y1.
  assert (X1 : x < 6000) by lra. assert (Y0 : 0 <= y) by lra.
  assert (HH : (hundredthsOf x <= hundredthsOf y)%Z)
    by (apply Qfloor_resp_le; lra).
  pose proof (reread_close x Dx X0 X1) as [Cx1 Cx2].
  pose proof (reread_close y Dy Y0 Y1) as [Cy1 Cy2].
  unfold eps in *.
  destruct (Z.eq_dec (hundredthsOf x) (hundredthsOf y)) as [E|N].
  - assert (MM : (minutesOf x <= minutesOf y)%Z).
    { rewrite (minutesOf_exact x Dx X0 X1), (minutesOf_exact y Dy Y0 Y1).
      apply Qfloor_resp_le. apply Qmult_le_compat_r; [exact XY|].
      discriminate. }
    pose proof (hundredths_split x Dx X0 X1) as Sx.
    pose proof (hundredths_split y Dy Y0 Y1) as Sy.
    pose proof (hundredths_range x Dx X0 X1) as Rx.
    pose proof (hundredths_range y Dy Y0 Y1) as Ry.
    pose proof (minutes_range x Dx X0 X1) as Mx.
    pose proof (minutes_range y Dy Y0 Y1) as My.
    rewrite !reread_readTime.
    destruct (Z.eq_dec (minutesOf x) (minutesOf y)) as [Em|Nm].
    + replace (hundredthsOf (secondsOf y)) with (hundredthsOf (secondsOf x))
        by lia.
      rewrite Em. apply Qle_refl.
    + assert (hundredthsOf (secondsOf x) = 6000 /\
              hundredthsOf (secondsOf y) = 0)%Z as [Ex Ey] by lia.
      rewrite (readTime_minute _ _ Mx (or_intror Ex)).
      rewrite (readTime_minute _ _ My (or_introl Ey)).
      replace (6000 * minutesOf y + hundredthsOf (secondsOf y))%Z
        with (6000 * minutesOf x + hundredthsOf (secondsOf x))%Z by lia.
      apply Qle_refl.
  - assert (L : (hundredthsOf x + 1 <= hundredthsOf y)%Z) by lia.
    rewrite Zle_Qle, inject_Z_plus in L. change (inject_Z 1) with 1 in L.
    set (a := inject_Z (hundredthsOf x)) in *.
    set (b := inject_Z (hundredthsOf y)) in *.
    assert (A : a / 100 == a * (1 # 100)) by field.
    assert (B : b / 100 == b * (1 # 100)) by field.
    rewrite A in Cx1, Cx2. rewrite B in Cy1, Cy2.
    clearbody a b. lra.
Qed.

End TimeFacts.

Module LrcFacts.
Import Double Lrc JSFacts DoubleFacts TimeFacts.

(** ** The sort *)

Lemma compare_le : forall x y,
  isDouble (seconds x) -> isDouble (seconds y) ->
  (Qle_bool (compareFn x y) 0 = true <-> (seconds x <= seconds y)%Q).
Proof.
  intros x y Dx Dy. rewrite Qle_bool_iff. unfold compareFn, fsub.
  now apply fsub_sign.
Qed.

Lemma double_eq : forall a b,
  isDouble a -> isDouble b -> (a == b)%Q -> a = b.
Proof.
  intros a b Da Db E. rewrite <- Da, <- Db. now apply rnd_comp.
Qed.

Lemma insert_In : forall x l y, In y (insert x l) <-> y = x \/ In y l.
Proof.
  induction l as [|z l IH]; intros y; simpl.
  - intuition.
  - destruct (Qle_bool (compareFn x z) 0); simpl; [intuition|].
    rewrite IH. intuition.
Qed.

Lemma sort_In : forall l y, In y (sort l) <-> In y l.
Proof.
  induction l as [|x l IH]; intros y; simpl; [tauto|].
  rewrite insert_In, IH. intuition.
Qed.

(** A list in non-decreasing order of time is left as it is. *)
Lemma sort_sorted_id : forall l,
  Forall (fun x => isDouble (seconds x)) l ->
  StronglySorted le_seconds l -> sort l = l.
Proof.
  induction l as [|x l IH]; intros D H; [reflexivity|].
  inversion H as [|? ? Hl Hx]; subst.
  inversion D as [|? ? Dx Dl]; subst. simpl. rewrite IH by assumption.
  destruct l as [|y l]; [reflexivity|]. simpl.
  inversion Hx as [|? ? Hxy _]; subst. unfold le_seconds in Hxy.
  inversion Dl as [|? ? Dy _]; subst.
  apply (compare_le x y Dx Dy) in Hxy. now rewrite Hxy.
Qed.

(** A line [a] stands before [b]: its time is smaller, or the times are
    equal and [a] comes from an earlier input line. *)
Lemma insert_before : forall x l,
  isDouble (seconds x) -> Forall (fun y => isDouble (seconds y)) l ->
  StronglySorted before l ->
  Forall (fun y => id x < id y) l ->
  StronglySorted before (insert x l).
Proof.
  intros x l Dx. induction l as [|y l IH]; intros D Hs Hid; simpl.
  - repeat constructor.
  - inversion Hs as [|? ? Hl Hy]; subst.
    inversion Hid as [|? ? Hxy Hid']; subst.
    inversion D as [|? ? Dy Dl]; subst.
    destruct (Qle_bool (compareFn x y) 0) eqn:E.
    + apply (compare_le x y Dx Dy) in E. constructor; [assumption|].
      assert (Hxy' : before x y).
      { destruct (Qle_lt_or_eq _ _ E) as [L|Q]; [now left|].
        right. split; [now apply double_eq | exact Hxy]. }
      constructor; [exact Hxy'|].
      rewrite Forall_forall in *. intros z Hz.
      specialize (Hy z Hz). specialize (Hid' z Hz).
      unfold before in Hy, Hxy' |- *.
      destruct Hxy' as [L|[Q _]].
      * left. destruct Hy as [L'|[Q' _]]; [lra | now rewrite <- Q'].
      * rewrite Q. destruct Hy as [L'|[Q' _]]; [now left | right; auto].
    + assert (G : (seconds y < seconds x)%Q).
      { apply Qnot_le_lt. intros C. apply (compare_le x y Dx Dy) in C.
        congruence. }
      constructor; [now apply IH|].
      rewrite Forall_forall in *. intros z Hz.
      apply insert_In in Hz as [->|Hz].
      * now left.
      * now apply Hy.
Qed.

Lemma sort_doubles : forall l,
  Forall (fun y => isDouble (seconds y)) l ->
  Forall (fun y => isDouble (seconds y)) (sort l).
Proof.
  intros l H. rewrite Forall_forall in *. intros y Hy. apply H.
  now apply sort_In.
Qed.

Lemma sort_before : forall l,
  Forall (fun y => isDouble (seconds y)) l ->
  StronglySorted (fun a b => id a < id b) l ->
  StronglySorted before (sort l).
Proof.
  induction l as [|x l IH]; intros D H; simpl; [constructor|].
  inversion H as [|? ? Hl Hx]; subst.
  inversion D as [|? ? Dx Dl]; subst.
  apply insert_before; [exact Dx | now apply sort_doubles | now apply IH |].
  rewrite Forall_forall in *. intros y Hy. apply Hx. now apply sort_In.
Qed.

Lemma before_le_seconds : forall l,
  StronglySorted before l -> StronglySorted le_seconds l.
Proof.
  induction 1 as [|x l Hl IH Hx]; constructor; auto.
  rewrite Forall_forall in *. intros y Hy. specialize (Hx y Hy).
  unfold before, le_seconds in *.
  destruct Hx as [L|[Q _]]; [lra | rewrite Q; apply Qle_refl].
Qed.

(** ** The line pattern *)

Lemma dotStar_lineOf : forall rest, lineOf rest (dotStar rest).
Proof.
  induction rest as [|c rest [IH1 IH2]]; cbn [dotStar].
  - split; [constructor | now left].
  - destruct (isLineTerminator c) eqn:E.
    + split; [constructor|]. right. exists c, rest. now split.
    + split; [now constructor|]. destruct IH2 as [IH2|[d [tail [IH2 IH3]]]].
      * left. now rewrite <- IH2.
      * right. exists d, tail. split; [|exact IH3]. cbn [app].
        now rewrite <- IH2.
Qed.

Lemma lineOf_dotStar : forall rest g, lineOf rest g -> dotStar rest = g.
Proof.
  intros rest g [H1 H2]. revert rest H2.
  induction H1 as [|c g Hc Hg IH]; intros rest H2.
  - destruct H2 as [->|[c [tail [-> Hc]]]]; [reflexivity|].
    cbn [app dotStar]. now rewrite Hc.
  - destruct H2 as [->|[d [tail [-> Hd]]]].
    + cbn [dotStar]. rewrite Hc. f_equal. apply IH. now left.
    + cbn [app dotStar]. rewrite Hc. f_equal. apply IH. right.
      exists d, tail. now split.
Qed.

Lemma timeOf_comp : forall m s s', (s == s')%Q -> timeOf m s = timeOf m s'.
Proof.
  intros m s s' E. unfold timeOf. now rewrite (rnd_comp s s' E).
Qed.

Lemma timeOf_double : forall m s, isDouble (timeOf m s).
Proof. intros m s. apply isDouble_rnd. Qed.

Lemma parseInt2 : forall a b,
  Z.of_N (parseInt [a; b]) = decimal2 a b.
Proof.
  intros a b. unfold parseInt, decimal2. cbn [fold_left]. f_equal; lia.
Qed.

Lemma parseFloat2 : forall s1 s2 f1 f2,
  parseFloat [s1; s2] [f1; f2] =
  rnd (inject_Z (decimal2 s1 s2) + fracValue [f1; f2]).
Proof.
  intros s1 s2 f1 f2. unfold parseFloat. apply rnd_comp.
  cbn [app length fracValue].
  change (inject_Z (10 ^ Z.of_nat 2)) with 100%Q.
  replace (Z.of_N (parseInt [s1; s2; f1; f2]))
    with (100 * decimal2 s1 s2 + decimal2 f1 f2)%Z
    by (unfold parseInt, decimal2; cbn [fold_left]; lia).
  rewrite inject_Z_plus, inject_Z_mult. change (inject_Z 100) with 100%Q.
  field.
Qed.

Lemma parseFloat3 : forall s1 s2 f1 f2 f3,
  parseFloat [s1; s2] [f1; f2; f3] =
  rnd (inject_Z (decimal2 s1 s2) + fracValue [f1; f2; f3]).
Proof.
  intros s1 s2 f1 f2 f3. unfold parseFloat. apply rnd_comp.
  cbn [app length fracValue].
  change (inject_Z (10 ^ Z.of_nat 3)) with 1000%Q.
  replace (Z.of_N (parseInt [s1; s2; f1; f2; f3]))
    with (1000 * decimal2 s1 s2 +
          (10 * decimal2 f1 f2 + Z.of_N (digitValue f3)))%Z
    by (unfold parseInt, decimal2; cbn [fold_left]; lia).
  rewrite inject_Z_plus, inject_Z_mult. change (inject_Z 1000) with 1000%Q.
  field.
Qed.

Lemma parseLine_timestamped : forall i line l,
  parseLine i line = Some l ->
  id l = i /\ timestamped line (seconds l) (text l).
Proof.
  intros i line l. unfold parseLine, matchLine.
  destruct line as [|lb [|m1 [|m2 [|colon [|s1 [|s2 [|dot [|f1 [|f2 rest]]]]]]]]];
    try discriminate.
  destruct ((lb =? 91) && isDigit m1 && isDigit m2 && (colon =? 58) &&
            isDigit s1 && isDigit s2 && (dot =? 46) && isDigit f1 && isDigit f2)
    eqn:E; [|discriminate].
  repeat (apply andb_true_iff in E as [E ?]).
  repeat match goal with H : (_ =? _) = true |- _ => apply N.eqb_eq in H end.
  subst lb colon dot.
  destruct rest as [|c rest1]; [discriminate|].
  destruct (isDigit c) eqn:Ec.
  - destruct rest1 as [|rb rest2]; [discriminate|].
    destruct (rb =? 93) eqn:Er; [|discriminate]. apply N.eqb_eq in Er. subst rb.
    intros H'. injection H' as <-. cbn [id seconds text]. split; [reflexivity|].
    exists m1, m2, s1, s2, [f1; f2; c], rest2, (dotStar rest2).
    split; [reflexivity|]. split; [repeat constructor; assumption|].
    split; [now right|]. split; [|split].
    + rewrite parseInt2, parseFloat3. reflexivity.
    + apply dotStar_lineOf.
    + apply trim_trimmedOf.
  - destruct (c =? 93) eqn:Er; [|discriminate]. apply N.eqb_eq in Er. subst c.
    intros H'. injection H' as <-. cbn [id seconds text]. split; [reflexivity|].
    exists m1, m2, s1, s2, [f1; f2], rest1, (dotStar rest1).
    split; [reflexivity|]. split; [repeat constructor; assumption|].
    split; [now left|]. split; [|split].
    + rewrite parseInt2, parseFloat2. reflexivity.
    + apply dotStar_lineOf.
    + apply trim_trimmedOf.
Qed.

Lemma timestamped_parseLine : forall i line x txt,
  timestamped line x txt ->
  parseLine i line = Some {| id := i; seconds := x; text := txt |}.
Proof.
  intros i line x txt
    [m1 [m2 [s1 [s2 [frac [rest [g [Hl [Hd [Hf [Hx [Hg Ht]]]]]]]]]]]].
  subst line x. apply lineOf_dotStar in Hg. apply trimmedOf_trim in Ht.
  subst g txt.
  inversion Hd as [|? ? Hm1 Hd1]; subst.
  inversion Hd1 as [|? ? Hm2 Hd2]; subst.
  inversion Hd2 as [|? ? Hs1 Hd3]; subst.
  inversion Hd3 as [|? ? Hs2 Hd4]; subst. clear Hd Hd1 Hd2 Hd3.
  destruct Hf as [Hf|Hf].
  - destruct frac as [|f1 [|f2 [|? ?]]]; try discriminate.
    inversion Hd4 as [|? ? Hf1 Hd5]; subst.
    inversion Hd5 as [|? ? Hf2 _]; subst.
    unfold parseLine, matchLine. cbn [app].
    rewrite Hm1, Hm2, Hs1, Hs2, Hf1, Hf2. cbn [N.eqb Pos.eqb andb].
    replace (isDigit 93) with false by reflexivity. cbn [N.eqb Pos.eqb].
    rewrite parseInt2, parseFloat2. reflexivity.
  - destruct frac as [|f1 [|f2 [|f3 [|? ?]]]]; try discriminate.
    inversion Hd4 as [|? ? Hf1 Hd5]; subst.
    inversion Hd5 as [|? ? Hf2 Hd6]; subst.
    inversion Hd6 as [|? ? Hf3 _]; subst.
    unfold parseLine, matchLine. cbn [app].
    rewrite Hm1, Hm2, Hs1, Hs2, Hf1, Hf2, Hf3. cbn [N.eqb Pos.eqb andb].
    rewrite parseInt2, parseFloat3. reflexivity.
Qed.

Lemma parseLine_spec : forall i line l,
  parseLine i line = Some l <->
  id l = i /\ timestamped line (seconds l) (text l).
Proof.
  intros i line l. split; [apply parseLine_timestamped|].
  intros [Hi Ht]. rewrite (timestamped_parseLine i _ _ _ Ht).
  subst i. now destruct l.
Qed.

Lemma parseLine_double : forall i line l,
  parseLine i line = Some l -> isDouble (seconds l) /\ (0 <= seconds l)%Q.
Proof.
  intros i line l H. unfold parseLine in H.
  destruct (matchLine line) as [[[g1 [w f]] g3]|]; [|discriminate].
  injection H as <-. cbn [seconds]. split; [apply isDouble_rnd|].
  unfold fadd, fmul, parseFloat. apply rnd_nonneg.
  assert (A : (0 <= inject_Z (Z.of_N (parseInt g1)) * 60)%Q).
  { apply Qmult_le_0_compat; [|discriminate].
    change 0%Q with (inject_Z 0). rewrite <- Zle_Qle. lia. }
  apply rnd_nonneg in A.
  assert (B : (0 <= inject_Z (Z.of_N (parseInt (w ++ f))) /
                    inject_Z (10 ^ Z.of_nat (length f)))%Q).
  { apply Qle_shift_div_l.
    - change 0%Q with (inject_Z 0). rewrite <- Zlt_Qlt.
      apply Z.pow_pos_nonneg; lia.
    - rewrite Qmult_0_l. change 0%Q with (inject_Z 0). rewrite <- Zle_Qle.
      lia. }
  apply rnd_nonneg in B. lra.
Qed.

(** ** The collected lines *)

Lemma collect_In : forall lines k l,
  In l (collect k lines) <->
  exists j line, nth_error lines j = Some line /\
                 parseLine (k + N.of_nat j) line = Some l.
Proof.
  induction lines as [|line lines IH]; intros k l; cbn [collect].
  - split; [intros [] | intros [[|j] [line [H _]]]; discriminate].
  - assert (Hrest : In l (collect (k + 1) lines) <->
       exists j line', nth_error lines j = Some line' /\
         parseLine (k + N.of_nat (S j)) line' = Some l).
    { rewrite IH. split; intros [j [line' [H1 H2]]]; exists j, line';
        (split; [exact H1|]);
        replace (k + N.of_nat (S j)) with (k + 1 + N.of_nat j) in * by lia;
        exact H2. }
    split.
    + intros H.
      assert (Hc : parseLine k line = Some l \/ In l (collect (k + 1) lines)).
      { destruct (parseLine k line) as [l0|]; [|now right].
        destruct H as [->|H]; [now left | now right]. }
      destruct Hc as [Hc|Hc].
      * exists O, line. split; [reflexivity|]. now rewrite N.add_0_r.
      * apply Hrest in Hc as [j [line' [H1 H2]]]. exists (S j), line'. auto.
    + intros [[|j] [line' [H1 H2]]].
      * cbn in H1. injection H1 as <-. rewrite N.add_0_r in H2. rewrite H2.
        now left.
      * assert (Hc : In l (collect (k + 1) lines)).
        { apply Hrest. exists j, line'. auto. }
        destruct (parseLine k line); [now right | exact Hc].
Qed.

Lemma collect_ids : forall lines k,
  StronglySorted (fun a b => id a < id b) (collect k lines) /\
  Forall (fun l => k <= id l) (collect k lines).
Proof.
  induction lines as [|line lines IH]; intros k; cbn [collect].
  - split; constructor.
  - destruct (IH (k + 1)) as [Hs Hk].
    assert (Hk' : Forall (fun l => k < id l) (collect (k + 1) lines)).
    { eapply Forall_impl; [|exact Hk]. cbv beta. intros. lia. }
    destruct (parseLine k line) as [l|] eqn:E.
    + apply parseLine_timestamped in E as [E _]. split.
      * constructor; [exact Hs|]. now rewrite E.
      * constructor; [lia|]. eapply Forall_impl; [|exact Hk'].
        cbv beta. intros. lia.
    + split; [exact Hs|]. eapply Forall_impl; [|exact Hk'].
      cbv beta. intros. lia.
Qed.

Lemma collect_doubles : forall lines k,
  Forall (fun l => isDouble (seconds l)) (collect k lines).
Proof.
  intros lines k. apply Forall_forall. intros l Hl.
  apply collect_In in Hl as [j [line [_ H]]].
  now apply parseLine_double in H.
Qed.

Lemma startsWith_LF : forall c s, startsWith (c :: s) LF = (10 =? c).
Proof.
  intros c s. unfold LF. cbn [startsWith]. destruct s; apply andb_true_r.
Qed.

Lemma split_go_LF_lines : forall s cur,
  Forall (fun c => c <> 10) cur ->
  Forall (Forall (fun c => c <> 10)) (split_go LF 0 cur s).
Proof.
  induction s as [|c s IH]; intros cur Hc; cbn [split_go].
  - repeat constructor. exact Hc.
  - rewrite startsWith_LF. destruct (10 =? c) eqn:E.
    + constructor; [exact Hc|]. apply IH. constructor.
    + apply IH. apply Forall_app. split; [exact Hc|].
      repeat constructor. apply N.eqb_neq in E. congruence.
Qed.

Lemma header_line_ignored : forall c x ms txt,
  isDigit c = false -> ~ timestamped (91 :: c :: x) ms txt.
Proof.
  intros c x ms txt Hc [m1 [m2 [s1 [s2 [frac [rest [g [Hl [Hd _]]]]]]]]].
  cbn [app] in Hl. injection Hl as <- _.
  inversion Hd as [|? ? Hm1 _]; subst. congruence.
Qed.

Lemma parseLrc_before : forall lrc, StronglySorted before (parseLrc lrc).
Proof.
  intros lrc. unfold parseLrc.
  apply sort_before; [apply collect_doubles | apply collect_ids].
Qed.

Lemma timeOf_near : forall m s,
  (0 <= m <= 99)%Z -> (0 <= s)%Q -> (s <= 100)%Q ->
  (Qabs (timeOf m s - (inject_Z m * 60 + s)) <= eps)%Q.
Proof.
  intros m s Hm S0 S1. apply Qabs_Qle_condition.
  now apply timeOf_close.
Qed.

(** C2: the parser returns exactly the lines of the document that begin
    with a timestamp header, each once, with the time that the header
    denotes and the text that follows it on the line, without the white
    space at its ends; it returns them in non-decreasing order of time,
    lines of equal time in the order of the input; metadata lines are not
    returned.  The time is minutes times 60 plus the seconds in the
    arithmetic of doubles, within 2^-40 of the exact sum. *)
Theorem parseLrc_spec : forall lrc,
  let lines := split lrc LF in
  let out := parseLrc lrc in
  (join lines LF = lrc /\ Forall (Forall (fun c => c <> 10)) lines) /\
  (forall l, In l out <->
     exists line, nth_error lines (N.to_nat (id l)) = Some line /\
                  timestamped line (seconds l) (text l)) /\
  StronglySorted before out /\
  (forall x t txt, ~ timestamped (js "[ti:" ++ x) t txt) /\
  (forall x t txt, ~ timestamped (js "[ar:" ++ x) t txt) /\
  (forall m s, (0 <= m <= 99)%Z -> (0 <= s)%Q -> (s <= 100)%Q ->
     isDouble (timeOf m s) /\
     (Qabs (timeOf m s - (inject_Z m * 60 + s)) <= eps)%Q).
Proof.
  intros lrc lines out.
  split; [split|split; [|split; [|split; [|split]]]].
  - unfold lines, split, LF.
    apply (join_split_go 10 [] (length lrc) lrc []). lia.
  - apply split_go_LF_lines. constructor.
  - intros l. unfold out, parseLrc. fold lines.
    rewrite sort_In, collect_In. split.
    + intros [j [line [H1 H2]]]. apply parseLine_timestamped in H2 as [H2 H3].
      exists line. split; [|exact H3].
      rewrite H2. replace (N.to_nat (0 + N.of_nat j)) with j by lia.
      exact H1.
    + intros [line [H1 H2]]. exists (N.to_nat (id l)), line. split; [exact H1|].
      apply parseLine_spec. split; [|exact H2]. rewrite N2Nat.id. lia.
  - apply parseLrc_before.
  - intros x t txt. apply header_line_ignored. reflexivity.
  - intros x t txt. apply header_line_ignored. reflexivity.
  - intros m s Hm S0 S1. split; [apply timeOf_double | now apply timeOf_near].
Qed.

(** Two lines that write 68.21 seconds in two ways: as doubles,
    0 * 60 + 68.21 is below 1 * 60 + 8.21, so the second line comes first.
    And a document with white space around its texts, a carriage return
    inside a line and a title tag. *)
Lemma parseLrc_spec_witness :
  parseLrc skewedLines =
    [ {| id := 1; seconds := 4799852040358461 # 70368744177664;
         text := js "b" |};
      {| id := 0; seconds := 2399926020179231 # 35184372088832;
         text := js "a" |} ] /\
  parseLrc paddedLines =
    [ {| id := 2; seconds := 5 # 4; text := js "x" |};
      {| id := 0; seconds := 15 # 2; text := js "one  two" |} ] /\
  StronglySorted before (parseLrc skewedLines) /\
  In {| id := 0; seconds := 15 # 2; text := js "one  two" |}
     (parseLrc paddedLines).
Proof.
  split; [vm_compute; reflexivity|]. split; [vm_compute; reflexivity|].
  pose proof (parseLrc_spec skewedLines) as [_ [_ [Hs _]]].
  split; [exact Hs|].
  pose proof (parseLrc_spec paddedLines) as [_ [Hin _]].
  apply (proj2 (Hin {| id := 0; seconds := 15 # 2; text := js "one  two" |})).
  cbn [id seconds text].
  exists (js "[00:07.50]" ++ [9; 32] ++ js "one  two" ++ [32; 160; 13] ++
          js "three").
  split; [reflexivity|].
  exists 48, 48, 48, 55, [53; 48],
         ([9; 32] ++ js "one  two" ++ [32; 160; 13] ++ js "three"),
         ([9; 32] ++ js "one  two" ++ [32; 160]).
  split; [reflexivity|]. split; [repeat constructor|].
  split; [now left|]. split; [vm_compute; reflexivity|]. split.
  - split; [repeat constructor|]. right. exists 13, (js "three").
    split; reflexivity.
  - exists [9; 32], [32; 160]. split; [reflexivity|].
    split; [repeat constructor|]. split; [repeat constructor|]. split.
    + intros c r E. injection E as <- _. reflexivity.
    + intros c r E. apply (f_equal (@rev _)) in E.
      rewrite rev_app_distr in E. injection E as <- _. reflexivity.
Defined.

End LrcFacts.

Module LrcRoundTrip.
Import Double Lrc Editor JSFacts DoubleFacts TimeFacts LrcFacts.

(** ** Printing and reading back a time *)

Lemma below_100 : forall n, n < 100 -> In n (map N.of_nat (seq 0 100)).
Proof.
  intros n H. rewrite <- (N2Nat.id n). apply in_map. apply in_seq. lia.
Qed.

Lemma toString_small : forall n,
  n < 100 -> toString n = if n <? 10 then [48 + n] else twoDigits n.
Proof.
  intros n H.
  assert (C : forallb (fun n => JS.eqb (toString n)
                 (if n <? 10 then [48 + n] else twoDigits n))
                (map N.of_nat (seq 0 100)) = true) by (vm_compute; reflexivity).
  rewrite forallb_forall in C. apply eqb_eq. apply C. now apply below_100.
Qed.

Lemma twoDigits_small : forall n, n < 10 -> twoDigits n = [48; 48 + n].
Proof.
  intros n H. unfold twoDigits.
  rewrite N.div_small, N.mod_small by assumption. reflexivity.
Qed.

Lemma padStart0_2 : forall n, n < 100 -> padStart0 2 (toString n) = twoDigits n.
Proof.
  intros n H. rewrite toString_small by assumption.
  destruct (n <? 10) eqn:E.
  - apply N.ltb_lt in E. now rewrite twoDigits_small.
  - reflexivity.
Qed.

Lemma padStart0_5 : forall a b,
  a < 100 ->
  padStart0 5 (toString a ++ [46] ++ twoDigits b) =
  twoDigits a ++ [46] ++ twoDigits b.
Proof.
  intros a b H. rewrite toString_small by assumption.
  destruct (a <? 10) eqn:E.
  - apply N.ltb_lt in E. now rewrite (twoDigits_small a).
  - reflexivity.
Qed.

Lemma isDigit_digit : forall n, n < 10 -> isDigit (48 + n) = true.
Proof.
  intros n H. unfold isDigit. apply andb_true_iff.
  split; apply N.leb_le; lia.
Qed.

Lemma digitValue_digit : forall n, digitValue (48 + n) = n.
Proof. intros n. unfold digitValue. lia. Qed.

Lemma twoDigits_digits : forall n,
  n < 100 -> Forall (fun c => isDigit c = true) (twoDigits n).
Proof.
  intros n H. unfold twoDigits.
  repeat constructor; apply isDigit_digit.
  - apply N.Div0.div_lt_upper_bound. lia.
  - apply N.mod_lt. lia.
Qed.

Lemma decimal2_digits : forall n,
  decimal2 (48 + n / 10) (48 + n mod 10) = Z.of_N n.
Proof.
  intros n. unfold decimal2. rewrite !digitValue_digit. f_equal.
  pose proof (N.div_mod n 10 ltac:(lia)). lia.
Qed.

Lemma dotStar_clean : forall s,
  Forall (fun c => isLineTerminator c = false) (dotStar s).
Proof.
  induction s as [|c s IH]; cbn [dotStar]; [constructor|].
  destruct (isLineTerminator c) eqn:E; constructor; assumption.
Qed.

Lemma dotStar_id : forall s,
  Forall (fun c => isLineTerminator c = false) s -> dotStar s = s.
Proof.
  induction 1 as [|c s Hc Hs IH]; cbn [dotStar]; [reflexivity|].
  now rewrite Hc, IH.
Qed.

Lemma dropWhile_Forall : forall {A} (P : A -> Prop) p l,
  Forall P l -> Forall P (dropWhile p l).
Proof.
  induction 1 as [|x l Hx Hl IH]; cbn [dropWhile]; [constructor|].
  destruct (p x); [assumption | now constructor].
Qed.

Lemma trim_Forall : forall (P : N -> Prop) s, Forall P s -> Forall P (trim s).
Proof.
  intros P s H. unfold trim, trimEnd, trimStart.
  apply Forall_rev, dropWhile_Forall, Forall_rev, dropWhile_Forall, H.
Qed.

Lemma parseLine_wellFormed : forall i line l,
  parseLine i line = Some l -> wellFormed l.
Proof.
  intros i line l H. apply parseLine_timestamped in H as [_ H].
  destruct H as [m1 [m2 [s1 [s2 [frac [rest [g [_ [_ [_ [_ [Hg Ht]]]]]]]]]]]].
  apply lineOf_dotStar in Hg. apply trimmedOf_trim in Ht.
  unfold wellFormed. rewrite <- Ht, <- Hg. split.
  - apply trim_idem.
  - apply trim_Forall, dotStar_clean.
Qed.

Lemma formatLine_eq : forall l,
  formatLine l =
  [91] ++ padStart0 2 (intToString (minutesOf (seconds l))) ++ [58] ++
  padStart0 5 (toFixed2 (secondsOf (seconds l))) ++
  [93; 32] ++ text l.
Proof. reflexivity. Qed.

(** The line printed for a time below 100 minutes: two digits each for
    the minutes, the seconds and the hundredths. *)
Lemma formatLine_explicit : forall l,
  isDouble (seconds l) -> (0 <= seconds l)%Q -> (seconds l < 6000)%Q ->
  exists m h,
    m < 100 /\ h <= 6000 /\
    Z.of_N m = minutesOf (seconds l) /\
    Z.of_N h = hundredthsOf (secondsOf (seconds l)) /\
    formatLine l =
      [91] ++ twoDigits m ++ [58] ++ twoDigits (h / 100) ++ [46] ++
      twoDigits (h mod 100) ++ [93; 32] ++ text l.
Proof.
  intros l D X0 X1. rewrite formatLine_eq.
  pose proof (minutes_range _ D X0 X1) as M.
  pose proof (hundredths_range _ D X0 X1) as H.
  pose proof (secondsOf_range _ D X0 X1) as [S0 _].
  exists (Z.to_N (minutesOf (seconds l))),
         (Z.to_N (hundredthsOf (secondsOf (seconds l)))).
  split; [lia|]. split; [lia|].
  split; [apply Z2N.id; lia|]. split; [apply Z2N.id; lia|].
  unfold intToString.
  replace (minutesOf (seconds l) <? 0)%Z with false
    by (symmetry; apply Z.ltb_ge; lia).
  rewrite padStart0_2 by lia.
  unfold toFixed2.
  replace (Qle_bool 0 (secondsOf (seconds l))) with true
    by (symmetry; now apply Qle_bool_iff).
  unfold fixed2. cbv zeta.
  rewrite padStart0_5 by (apply N.Div0.div_lt_upper_bound; lia).
  now rewrite <- !app_assoc.
Qed.

Lemma twoDigits_noLF : forall n, Forall (fun c => c <> 10) (twoDigits n).
Proof.
  assert (H : forall x, 48 + x <> 10) by lia.
  intros n. unfold twoDigits. repeat constructor; apply H.
Qed.

Lemma lineTerminator_LF : forall s,
  Forall (fun c => isLineTerminator c = false) s ->
  Forall (fun c => c <> 10) s.
Proof.
  intros s H. eapply Forall_impl; [|exact H]. cbv beta. intros c Hc ->.
  discriminate.
Qed.

Lemma fitsLine_noLF : forall l,
  fitsLine l -> Forall (fun c => c <> 10) (formatLine l).
Proof.
  intros l [D [X0 [X1 Hc]]].
  destruct (formatLine_explicit l D X0 X1) as [m [h [_ [_ [_ [_ ->]]]]]].
  repeat (apply Forall_app; split);
    try apply twoDigits_noLF; try (repeat constructor; lia).
  now apply lineTerminator_LF.
Qed.

Lemma trim_space : forall s, trim (32 :: s) = trim s.
Proof. reflexivity. Qed.

(** A line printed for a time below 100 minutes reads back as the time
    printed and read, and the text trimmed. *)
Lemma format_reads_back : forall l,
  fitsLine l ->
  timestamped (formatLine l) (reread (seconds l)) (trim (text l)).
Proof.
  intros l [D [X0 [X1 Hc]]].
  destruct (formatLine_explicit l D X0 X1) as [m [h [Hm [Hh [Em [Eh ->]]]]]].
  assert (Ha : h / 100 < 100) by (apply N.Div0.div_lt_upper_bound; lia).
  assert (Hb : h mod 100 < 100) by (apply N.mod_lt; lia).
  exists (48 + m / 10), (48 + m mod 10),
         (48 + h / 100 / 10), (48 + (h / 100) mod 10),
         (twoDigits (h mod 100)), (32 :: text l), (32 :: text l).
  split; [reflexivity|]. split; [|split; [now left|split; [|split]]].
  - apply Forall_app. split; [|now apply twoDigits_digits].
    repeat constructor; apply isDigit_digit;
      solve [apply N.Div0.div_lt_upper_bound; lia | apply N.mod_lt; lia].
  - unfold reread, readTime. rewrite <- Em, <- Eh, !decimal2_digits.
    apply timeOf_comp. unfold twoDigits, fracValue.
    rewrite decimal2_digits.
    pose proof (N.div_mod h 100 ltac:(lia)) as E.
    rewrite E at 1. rewrite N2Z.inj_add, N2Z.inj_mul, inject_Z_plus,
      inject_Z_mult. change (inject_Z (Z.of_N 100)) with 100%Q. field.
  - split; [constructor; [reflexivity | exact Hc] | now left].
  - rewrite <- trim_space. apply trim_trimmedOf.
Qed.

(** ** Lines and line feeds *)

Lemma split_line : forall s cur rest,
  Forall (fun c => c <> 10) s ->
  split_go LF 0 cur (s ++ 10 :: rest) = (cur ++ s) :: split_go LF 0 [] rest.
Proof.
  induction s as [|c s IH]; intros cur rest H.
  - cbn [app split_go]. rewrite startsWith_LF, N.eqb_refl, app_nil_r.
    reflexivity.
  - inversion H as [|? ? Hc Hs]; subst.
    cbn [app split_go]. rewrite startsWith_LF.
    replace (10 =? c) with false by (symmetry; apply N.eqb_neq; congruence).
    rewrite IH by assumption. now rewrite <- app_assoc.
Qed.

Lemma split_last : forall s cur,
  Forall (fun c => c <> 10) s -> split_go LF 0 cur s = [cur ++ s].
Proof.
  induction s as [|c s IH]; intros cur H.
  - cbn [split_go]. now rewrite app_nil_r.
  - inversion H as [|? ? Hc Hs]; subst.
    cbn [split_go]. rewrite startsWith_LF.
    replace (10 =? c) with false by (symmetry; apply N.eqb_neq; congruence).
    rewrite IH by assumption. now rewrite <- app_assoc.
Qed.

Lemma split_join : forall lines,
  Forall (Forall (fun c => c <> 10)) lines ->
  split (join lines LF) LF =
  match lines with [] => [[]] | _ :: _ => lines end.
Proof.
  unfold split. induction 1 as [|x lines Hx Hl IH]; [reflexivity|].
  destruct lines as [|y lines].
  - cbn [join]. now rewrite split_last.
  - rewrite join_cons by discriminate. unfold LF at 2. cbn [app].
    rewrite split_line by assumption. cbn [app]. now rewrite IH.
Qed.

Lemma split_prefix_lines : forall hl rest,
  Forall (Forall (fun c => c <> 10)) hl ->
  split (concat (map (fun x => x ++ LF) hl) ++ rest) LF =
  hl ++ split rest LF.
Proof.
  unfold split. induction 1 as [|x hl Hx Hl IH]; [reflexivity|].
  cbn [map concat]. unfold LF at 2. rewrite <- !app_assoc. cbn [app].
  rewrite split_line by assumption. cbn [app]. now rewrite IH.
Qed.

(** ** Reading back what was written *)

Lemma collect_view_shift : forall lines k k',
  map view (collect k lines) = map view (collect k' lines).
Proof.
  induction lines as [|x lines IH]; intros k k'; cbn [collect]; [reflexivity|].
  unfold parseLine. destruct (matchLine x) as [[[g1 [w f]] g3]|].
  - cbn [map]. f_equal. apply IH.
  - apply IH.
Qed.

Lemma collect_skip : forall hl rest k,
  Forall (fun x => forall i, parseLine i x = None) hl ->
  map view (collect k (hl ++ rest)) = map view (collect k rest).
Proof.
  induction 1 as [|x hl Hx Hl IH]; [reflexivity|].
  cbn [app collect]. rewrite Hx. rewrite <- IH. apply collect_view_shift.
Qed.

Lemma collect_readBack : forall L k,
  Forall fitsLine L ->
  map view (collect k (map formatLine L)) = map view (map readBack L).
Proof.
  induction L as [|l L IH]; intros k H; [reflexivity|].
  inversion H as [|? ? Hl HL]; subst. cbn [map collect].
  rewrite (timestamped_parseLine k _ _ _ (format_reads_back l Hl)).
  cbn [map]. f_equal. now apply IH.
Qed.

Lemma cons_eq : forall {A} (a b : A) X Y,
  a :: X = b :: Y -> a = b /\ X = Y.
Proof. intros A a b X Y H. injection H as -> ->. now split. Qed.

Lemma insert_view : forall x y X Y,
  view x = view y -> map view X = map view Y ->
  map view (insert x X) = map view (insert y Y).
Proof.
  intros x y X. induction X as [|a X IH]; intros [|b Y] Hxy H;
    try discriminate; cbn [insert map].
  - now rewrite Hxy.
  - cbn [map] in H. apply cons_eq in H as [Hab H].
    assert (Ex : seconds x = seconds y) by (apply (f_equal fst) in Hxy; exact Hxy).
    assert (Ea : seconds a = seconds b) by (apply (f_equal fst) in Hab; exact Hab).
    unfold compareFn. rewrite Ex, Ea.
    destruct (Qle_bool (fsub (seconds y) (seconds b)) 0); cbn [map].
    + now rewrite Hxy, Hab, H.
    + rewrite Hab. f_equal. now apply IH.
Qed.

Lemma sort_view : forall X Y,
  map view X = map view Y -> map view (sort X) = map view (sort Y).
Proof.
  induction X as [|a X IH]; intros [|b Y] H; try discriminate;
    [reflexivity|].
  cbn [map] in H. apply cons_eq in H as [Hab H]. cbn [sort].
  apply insert_view; [exact Hab | now apply IH].
Qed.

Lemma tag_line : forall a b body,
  isDigit a = false -> a <> 10 -> b <> 10 ->
  Forall (fun c => c <> 10) body ->
  Forall (fun c => c <> 10) ([91; a; b; 58] ++ body ++ [93]) /\
  forall i, parseLine i ([91; a; b; 58] ++ body ++ [93]) = None.
Proof.
  intros a b body Hd Ha Hb Hbody. split.
  - apply Forall_app. split; [repeat constructor; (assumption || lia)|].
    apply Forall_app. split; [exact Hbody | repeat constructor; lia].
  - intros i. destruct (parseLine i _) as [l|] eqn:E; [|reflexivity].
    apply parseLine_timestamped in E as [_ E]. cbn [app] in E.
    now apply header_line_ignored in E.
Qed.

Lemma header_lines : forall metadata,
  headerFits metadata ->
  exists hl,
    header metadata = concat (map (fun x => x ++ LF) hl) /\
    Forall (Forall (fun c => c <> 10)) hl /\
    Forall (fun x => forall i, parseLine i x = None) hl.
Proof.
  intros [m|] H; [|exists []; repeat split; constructor].
  destruct H as [Ht Ha]. unfold header.
  set (tl := match Filename.title m with Some t => t | None => [] end).
  set (al := match Filename.artist m with Some a => a | None => [] end).
  assert (Htl : Forall (fun c => c <> 10) tl).
  { unfold tl. destruct (Filename.title m); [now apply Ht | constructor]. }
  assert (Hal : Forall (fun c => c <> 10) al).
  { unfold al. destruct (Filename.artist m); [now apply Ha | constructor]. }
  destruct (tag_line 116 105 tl eq_refl ltac:(lia) ltac:(lia) Htl) as [T1 T2].
  destruct (tag_line 97 114 al eq_refl ltac:(lia) ltac:(lia) Hal) as [A1 A2].
  exists ((if truthy (Filename.title m)
           then [[91; 116; 105; 58] ++ tl ++ [93]] else []) ++
          (if truthy (Filename.artist m)
           then [[91; 97; 114; 58] ++ al ++ [93]] else [])).
  split; [|split].
  - change (js "[ti:") with [91; 116; 105; 58].
    change (js "[ar:") with [91; 97; 114; 58]. change (js "]") with [93].
    destruct (truthy (Filename.title m)), (truthy (Filename.artist m));
      cbn [app map concat]; rewrite ?app_nil_r; repeat rewrite <- app_assoc;
      cbn [app]; reflexivity.
  - apply Forall_app. split.
    + destruct (truthy (Filename.title m));
        [constructor; [exact T1 | constructor] | constructor].
    + destruct (truthy (Filename.artist m));
        [constructor; [exact A1 | constructor] | constructor].
  - apply Forall_app. split.
    + destruct (truthy (Filename.title m));
        [constructor; [exact T2 | constructor] | constructor].
    + destruct (truthy (Filename.artist m));
        [constructor; [exact A2 | constructor] | constructor].
Qed.

(** Lines written, whatever their order and their texts, are read back
    with their times printed and read and their texts trimmed, in the order
    of a stable sort by time. *)
Lemma stringify_reads_back : forall lines metadata,
  Forall fitsLine lines -> headerFits metadata ->
  map view (parseLrc (stringifyLrc lines metadata)) =
  map view (sort (map readBack lines)).
Proof.
  intros lines metadata HL Hm. unfold parseLrc. apply sort_view.
  assert (Hfmt : Forall (Forall (fun c => c <> 10)) (map formatLine lines)).
  { apply Forall_forall. intros x Hx. apply in_map_iff in Hx as [l [<- Hl]].
    rewrite Forall_forall in HL. now apply fitsLine_noLF, HL. }
  destruct (header_lines metadata Hm) as [hl [Hh [Hh1 Hh2]]].
  unfold stringifyLrc. rewrite Hh, split_prefix_lines by assumption.
  rewrite collect_skip by assumption. rewrite split_join by assumption.
  destruct lines as [|l L'] eqn:EL; [reflexivity|].
  change (map formatLine (l :: L'))
    with (match map formatLine (l :: L') with
          | [] => [[]] | _ :: _ => map formatLine (l :: L') end).
  now apply collect_readBack.
Qed.

Lemma parseLrc_wellFormed : forall lrc l,
  In l (parseLrc lrc) -> wellFormed l.
Proof.
  intros lrc l H. unfold parseLrc in H. apply sort_In, collect_In in H.
  destruct H as [j [line [_ H]]]. now apply parseLine_wellFormed in H.
Qed.

Lemma parseLrc_double : forall lrc l,
  In l (parseLrc lrc) -> isDouble (seconds l) /\ (0 <= seconds l)%Q.
Proof.
  intros lrc l H. unfold parseLrc in H. apply sort_In, collect_In in H.
  destruct H as [j [line [_ H]]]. now apply parseLine_double in H.
Qed.

Lemma parseLrc_sorted : forall lrc, StronglySorted le_seconds (parseLrc lrc).
Proof. intros lrc. apply before_le_seconds, parseLrc_before. Qed.

Lemma parsed_fits : forall content,
  (forall l, In l (parseLrc content) -> (seconds l < 6000)%Q) ->
  Forall fitsLine (parseLrc content).
Proof.
  intros content H. apply Forall_forall. intros l Hl.
  destruct (parseLrc_double content l Hl) as [D X0].
  split; [exact D|]. split; [exact X0|]. split; [now apply H|].
  now apply (parseLrc_wellFormed content l Hl).
Qed.

Lemma readBack_doubles : forall L,
  Forall (fun x => isDouble (seconds x)) (map readBack L).
Proof.
  intros L. apply Forall_forall. intros x Hx.
  apply in_map_iff in Hx as [l [<- _]]. cbn [readBack seconds].
  apply timeOf_double.
Qed.

(** Printing and reading keeps the order of times. *)
Lemma readBack_sorted : forall L,
  Forall fitsLine L -> StronglySorted le_seconds L ->
  StronglySorted le_seconds (map readBack L).
Proof.
  intros L F H. induction H as [|x L Hs IH Hx]; cbn [map]; [constructor|].
  inversion F as [|? ? Fx FL]; subst. constructor; [now apply IH|].
  rewrite Forall_forall in *. intros y Hy.
  apply in_map_iff in Hy as [z [<- Hz]].
  unfold le_seconds. cbn [readBack seconds].
  destruct Fx as [Dx [X0 [X1 _]]]. destruct (FL z Hz) as [Dz [Z0 [Z1 _]]].
  apply reread_mono; try assumption. exact (Hx z Hz).
Qed.

Lemma Forall2_map_l : forall {A B} (R : B -> A -> Prop) (f : A -> B) L,
  (forall l, In l L -> R (f l) l) -> Forall2 R (map f L) L.
Proof.
  intros A B R f. induction L as [|l L IH]; intros H; cbn [map]; constructor.
  - apply H. now left.
  - apply IH. intros x Hx. apply H. now right.
Qed.

Lemma reread_sameAt2 : forall a p,
  isDouble (seconds p) -> (0 <= seconds p)%Q -> (seconds p < 6000)%Q ->
  seconds a = reread (seconds p) -> text a = text p -> sameAt2 a p.
Proof.
  intros a p D X0 X1 Es Et. split; [exact Et|]. rewrite Es. split.
  - now apply reread_hundredths.
  - apply Qabs_Qle_condition. now apply reread_near.
Qed.

Lemma views_sameAt2 : forall B A,
  map view A = map view (map readBack B) ->
  Forall (fun l => fitsLine l /\ wellFormed l) B ->
  Forall2 sameAt2 A B.
Proof.
  induction B as [|p B IH]; intros [|a A] E H; try discriminate;
    [constructor|].
  cbn [map] in E. apply cons_eq in E as [Eap E].
  inversion H as [|? ? [[D [X0 [X1 _]]] [W _]] HB]; subst.
  constructor; [|now apply IH].
  unfold view, readBack in Eap. cbn [seconds text] in Eap.
  injection Eap as Es Et. apply reread_sameAt2; try assumption.
  now rewrite Et.
Qed.

Lemma formatLine_printedAs : forall l,
  isDouble (seconds l) -> (0 <= seconds l)%Q -> (seconds l < 6000)%Q ->
  printedAs (formatLine l) l.
Proof.
  intros l D X0 X1.
  destruct (formatLine_explicit l D X0 X1) as [m [h [Hm [Hh [Em [Eh E]]]]]].
  exists m, (h / 100), (h mod 100).
  split; [exact Hm|]. split; [apply N.Div0.div_lt_upper_bound; lia|].
  split; [apply N.mod_lt; lia|]. split; [exact E|].
  replace (Z.of_N (6000 * m + 100 * (h / 100) + h mod 100))
    with (hundredthsOf (seconds l)).
  - apply Qabs_Qle_condition.
    pose proof (hundredths_bounds (seconds l)) as [B1 B2]. split; lra.
  - pose proof (hundredths_split _ D X0 X1) as S.
    pose proof (N.div_mod h 100 ltac:(lia)). lia.
Qed.

(** C1, as the code has it: when every parsed time is below 100 minutes,
    parsing what was serialized yields, line by line, the texts of the first
    parse and its times at 2-decimal precision: the same hundredths, and
    times within half a hundredth (and the rounding of one double) of each
    other; and every line is serialized with exactly two fraction digits,
    which write the hundredth nearest to its time. *)
Theorem roundtrip_below_100_minutes : forall lrc metadata,
  (forall l, In l (parseLrc lrc) -> (seconds l < 6000)%Q) ->
  headerFits metadata ->
  let first := parseLrc lrc in
  let written := stringifyLrc first metadata in
  Forall2 sameAt2 (parseLrc written) first /\
  exists body,
    written = header metadata ++ join body LF /\
    Forall2 printedAs body first.
Proof.
  intros lrc metadata Hb Hm first written.
  pose proof (parsed_fits lrc Hb) as HF. fold first in HF.
  split.
  - apply views_sameAt2.
    + unfold written. rewrite (stringify_reads_back first metadata HF Hm).
      rewrite sort_sorted_id; [reflexivity | apply readBack_doubles |].
      apply readBack_sorted; [exact HF | apply parseLrc_sorted].
    + apply Forall_forall. intros l Hl. split.
      * rewrite Forall_forall in HF. now apply HF.
      * now apply (parseLrc_wellFormed lrc).
  - exists (map formatLine first). split; [reflexivity|].
    apply Forall2_map_l. intros l Hl.
    rewrite Forall_forall in HF. destruct (HF l Hl) as [D [X0 [X1 _]]].
    now apply formatLine_printedAs.
Qed.

(** C1, as the claim has it, fails on a line of 99 minutes and 99 seconds:
    its time is written back with three minute digits, which the pattern
    does not read. *)
Lemma roundtrip_loses_long_document :
  parseLrc longDocument =
    [{| id := 0; seconds := 6039; text := js "x" |}] /\
  stringifyLrc (parseLrc longDocument) None = js "[100:39.00] x" /\
  parseLrc (stringifyLrc (parseLrc longDocument) None) = [].
Proof.
  split; [|split]; vm_compute; reflexivity.
Qed.

Lemma tiedLines_short : forall l,
  In l (parseLrc tiedLines) -> (seconds l < 6000)%Q.
Proof.
  intros l Hl. vm_compute in Hl. destruct Hl as [<-|[<-|[]]]; reflexivity.
Qed.

(** The two lines that write 68.085 seconds in two ways are read as the
    doubles 68.085 and 68.08500000000001, are written as 08.08 and 08.09,
    and are read back as the doubles 68.08 and 68.09.  The time 0.125,
    midway between two hundredths, is written 00.13; the time written
    1.005, a double below the decimal, is written 01.00. *)
Lemma roundtrip_witness :
  stringifyLrc (parseLrc midwayLine) None = js "[00:00.13] t" /\
  stringifyLrc (parseLrc belowLine) None = js "[00:01.00] la" /\
  map view (parseLrc tiedLines) =
    [ (4791055947336253 # 70368744177664, js "b");
      (2395527973668127 # 35184372088832, js "a") ]%Q /\
  stringifyLrc (parseLrc tiedLines) None =
    js "[01:08.08] b" ++ LF ++ js "[01:08.09] a" /\
  map view (parseLrc (stringifyLrc (parseLrc tiedLines) None)) =
    [ (4790704103615365 # 70368744177664, js "b");
      (2395703895528571 # 35184372088832, js "a") ]%Q /\
  Forall2 sameAt2 (parseLrc (stringifyLrc (parseLrc tiedLines) None))
                  (parseLrc tiedLines).
Proof.
  split; [vm_compute; reflexivity|].
  split; [vm_compute; reflexivity|].
  split; [vm_compute; reflexivity|].
  split; [vm_compute; reflexivity|].
  split; [vm_compute; reflexivity|].
  exact (proj1 (roundtrip_below_100_minutes tiedLines None tiedLines_short I)).
Defined.

End LrcRoundTrip.


Module WavFacts.
Import Wav.
Local Open Scope Z_scope.









Lemma frames_length : forall (ch : list Q) positions,
  length (flat_map (frameBytes [ch]) positions) = (2 * length positions)%nat.
Proof.
  intros ch. induction positions as [|pos positions IH]; [reflexivity|].
  cbn [flat_map]. rewrite length_app, IH. cbn. lia.
Qed.

(** The blob of a mono buffer: the header, then the samples from index 44
    on, then as many zero bytes as the samples below index 44 would have
    taken. *)
Lemma bufferToWav_mono_layout : forall (ch : list Q) sampleRate len,
  bufferToWav [ch] sampleRate len =
  wavHeader 1 sampleRate (Z.of_nat len * 1 * 2 + 44) ++
  flat_map (fun pos => int16le (scale (clamp (sampleAt ch pos))))
           (seq 44 (len - 44)) ++
  repeat 0 (2 * Nat.min len 44).
Proof.
  intros ch sampleRate len. unfold bufferToWav. cbn [length Z.of_nat].
  change (Z.pos (Pos.of_succ_nat 0)) with 1.
  rewrite <- app_assoc. f_equal. apply f_equal2.
  - apply flat_map_ext. intros pos. unfold frameBytes. cbn [flat_map].
    apply app_nil_r.
  - f_equal. rewrite length_app, frames_length, length_seq.
    change (length (wavHeader 1 sampleRate (Z.of_nat len * 1 * 2 + 44)))
      with 44%nat.
    lia.
Qed.

End WavFacts.

Module GeminiFacts.
Import Gemini.

Section Retry.

Variable call : nat -> attemptResult.
Variable random : nat -> Q.

(** The errors caught on the attempts 0 to [n], the last of which ends the
    loop: it is terminal, or it is the attempt [MAX_RETRIES]. *)
Variable n : nat.
Variable errs : nat -> ApiError.
Hypothesis n_bound : (n <= MAX_RETRIES)%nat.
Hypothesis caught :
  forall j, (j <= n)%nat -> attemptBody (call j) = inr (errs j).
Hypothesis retried : forall j, (j < n)%nat -> isTerminal (errs j) = false.
Hypothesis last : n = MAX_RETRIES \/ isTerminal (errs n) = true.


End Retry.









End GeminiFacts.

Module OrchestratorFacts.
Import Orchestrator JSFacts.

(** ** Interleavings *)

Lemma interleaved_filter : forall {A} (p : A -> bool) ls tr,
  interleaved ls tr -> interleaved (map (filter p) ls) (filter p tr).
Proof.
  intros A p ls tr H. induction H as [ls H|before x l after rest H IH].
  - constructor. rewrite Forall_forall in *. intros l Hl.
    apply in_map_iff in Hl as [l' [<- Hl']]. now rewrite (H l' Hl').
  - rewrite map_app in *. cbn [map filter] in *.
    destruct (p x); [now constructor | exact IH].
Qed.

Lemma concat_empty : forall {A} (ls : list (list A)),
  filter nonEmpty ls = [] -> concat ls = [].
Proof.
  induction ls as [|l ls IH]; [reflexivity|]. cbn [filter concat].
  destruct l; cbn [nonEmpty]; [exact IH | discriminate].
Qed.

(** When one list at most holds anything, the interleaving is that list. *)
Lemma interleaved_sparse : forall {A} (ls : list (list A)) tr,
  interleaved ls tr ->
  (length (filter nonEmpty ls) <= 1)%nat ->
  tr = concat ls.
Proof.
  intros A ls tr H. induction H as [ls H|before x l after rest H IH]; intros Hs.
  - symmetry. apply concat_empty.
    clear Hs. induction H as [|l ls Hl _ IH]; [reflexivity|]. subst l.
    cbn [filter nonEmpty]. exact IH.
  - rewrite filter_app in Hs. cbn [filter nonEmpty] in Hs.
    rewrite length_app in Hs. cbn [length] in Hs.
    assert (Hb : filter nonEmpty before = [])
      by (destruct (filter nonEmpty before); [reflexivity | cbn in Hs; lia]).
    assert (Ha : filter nonEmpty after = [])
      by (destruct (filter nonEmpty after); [reflexivity | cbn in Hs; lia]).
    rewrite concat_app. cbn [concat].
    rewrite (concat_empty _ Hb), (concat_empty _ Ha), app_nil_r. cbn [app].
    f_equal. rewrite IH.
    + rewrite concat_app. cbn [concat].
      now rewrite (concat_empty _ Hb), (concat_empty _ Ha), app_nil_r.
    + rewrite filter_app, Hb. cbn [filter app]. rewrite Ha.
      destruct (nonEmpty l); cbn [length]; lia.
Qed.

(** ** The updates of a run, track by track *)

Lemma id_applyTo : forall u t, id (applyTo u t) = id t.
Proof. intros [] t; reflexivity. Qed.

Lemma runUpdates_pointwise : forall us tracks,
  runUpdates us tracks =
  map (fun t => after (filter (aims (id t)) us) t) tracks.
Proof.
  unfold runUpdates.
  induction us as [|u us IH]; intros tracks; cbn [fold_left].
  - cbn [filter]. unfold after. cbn [fold_left]. now rewrite map_id.
  - rewrite IH. unfold setTracks. rewrite map_map. apply map_ext.
    intros t. cbn [filter]. unfold aims at 2.
    destruct (JS.eqb (id t) (target u)).
    + rewrite id_applyTo. reflexivity.
    + reflexivity.
Qed.

Section Batch.

Variable isolateVocals : Track -> settled.
Variable generateLrcFromAudio : Track -> jsstring -> jsstring -> settled.

Lemma processTrack_targets : forall t,
  Forall (fun u => target u = id t)
         (processTrack isolateVocals generateLrcFromAudio t).
Proof.
  intros t. unfold processTrack, generation.
  destruct (useIsolation t).
  - destruct (isolateVocals t) as [b|m].
    + destruct (generateLrcFromAudio t b (js "audio/wav"));
        repeat constructor.
    + repeat constructor.
  - destruct (generateLrcFromAudio t (base64 t) (mimeType t));
      repeat constructor.
Qed.

Lemma filter_own : forall t i,
  filter (aims i) (processTrack isolateVocals generateLrcFromAudio t) =
  if JS.eqb i (id t)
  then processTrack isolateVocals generateLrcFromAudio t else [].
Proof.
  intros t i. pose proof (processTrack_targets t) as H.
  induction H as [|u us Hu _ IH]; cbn [filter].
  - now destruct (JS.eqb i (id t)).
  - unfold aims at 1. rewrite Hu, IH. now destruct (JS.eqb i (id t)).
Qed.

(** The updates of a track leave it as its pipeline settled. *)
Lemma after_processTrack : forall t,
  after (processTrack isolateVocals generateLrcFromAudio t) t =
  finalTrack (pipeline isolateVocals generateLrcFromAudio t) t.
Proof.
  intros t. unfold processTrack, pipeline, generation, after.
  destruct (useIsolation t) eqn:E.
  - destruct (isolateVocals t) as [b|m].
    + destruct (generateLrcFromAudio t b (js "audio/wav")) as [r|m'];
        cbn; [reflexivity|]. now destruct m' as [[|c m']|].
    + cbn. now destruct m as [[|c m]|].
  - destruct (generateLrcFromAudio t (base64 t) (mimeType t)) as [r|m'];
      cbn; [reflexivity|]. now destruct m' as [[|c m']|].
Qed.

Lemma own_updates : forall P i,
  NoDup (map id P) ->
  let ls :=
    map (fun t => filter (aims i)
                   (processTrack isolateVocals generateLrcFromAudio t)) P in
  (length (filter nonEmpty ls) <= 1)%nat /\
  (forall t, In t P -> id t = i ->
     concat ls = processTrack isolateVocals generateLrcFromAudio t) /\
  ((forall t, In t P -> id t <> i) -> concat ls = []).
Proof.
  induction P as [|t P IH]; intros i Hnd; cbn zeta.
  - cbn. repeat split; auto. intros t [].
  - cbn [map] in Hnd. inversion Hnd as [|? ? Hnotin Hnd']; subst.
    destruct (IH i Hnd') as [H1 [H2 H3]]. cbn zeta in H1, H2, H3.
    cbn [map filter concat]. rewrite filter_own.
    destruct (JS.eqb i (id t)) eqn:E.
    + apply eqb_eq in E. subst i.
      assert (Hrest : forall t', In t' P -> id t' <> id t).
      { intros t' Ht' Heq. apply Hnotin. rewrite <- Heq. now apply in_map. }
      specialize (H3 Hrest).
      assert (Hnone : filter nonEmpty
                (map (fun t0 =>
                        filter (aims (id t))
                          (processTrack isolateVocals generateLrcFromAudio t0))
                     P) = []).
      { clear - Hrest. induction P as [|t' P IH]; [reflexivity|].
        cbn [map filter]. rewrite filter_own.
        destruct (JS.eqb (id t) (id t')) eqn:E.
        - apply eqb_eq in E. exfalso. apply (Hrest t'); [now left | auto].
        - cbn [nonEmpty]. apply IH. intros t0 Ht0. apply Hrest. now right. }
      rewrite Hnone, H3, app_nil_r. split; [|split].
      * destruct (nonEmpty (processTrack isolateVocals generateLrcFromAudio t));
          cbn [length]; lia.
      * intros t' [<-|Ht'] Hid; [reflexivity|].
        exfalso. now apply (Hrest t').
      * intros Hno. exfalso. apply (Hno t); [now left | reflexivity].
    + cbn [nonEmpty app]. split; [exact H1|]. split.
      * intros t' [<-|Ht'] Hid.
        -- subst i. now rewrite eqb_refl in E.
        -- now apply H2.
      * intros Hno. apply H3. intros t' Ht'. apply Hno. now right.
Qed.

End Batch.

Lemma isPending_spec : forall t,
  isPending t = false <->
  status t = COMPLETED \/ exists c, lrcContent t = Some c /\ trim c <> [].
Proof.
  intros t. unfold isPending. split.
  - intros H. apply andb_false_iff in H as [H|H].
    + left. apply negb_false_iff in H. now destruct (status t).
    + right. apply orb_false_iff in H as [H1 H2].
      destruct (lrcContent t) as [c|]; [|discriminate].
      exists c. split; [reflexivity|]. apply Nat.eqb_neq in H2.
      now destruct (trim c).
  - intros [H|[c [H1 H2]]].
    + now rewrite H.
    + rewrite H1. apply andb_false_iff. right. apply orb_false_iff. split.
      * destruct c as [|x c]; [now elim H2 | reflexivity].
      * apply Nat.eqb_neq. now destruct (trim c).
Qed.

(** C8: whatever the interleaving of the workers, a track that is
    COMPLETED or that carries lyrics is left as it was, and any other track
    ends as its own pipeline settled: COMPLETED with the result, or ERROR
    with the message of the failure; the pipelines of the other tracks have
    no part in it. *)
Theorem batch_isolates_failures :
  forall isolateVocals generateLrcFromAudio tracks trace,
  NoDup (map id tracks) ->
  interleaved
    (map (processTrack isolateVocals generateLrcFromAudio)
         (pendingTracks tracks)) trace ->
  runUpdates trace tracks =
    map (fun t =>
           if isPending t
           then finalTrack (pipeline isolateVocals generateLrcFromAudio t) t
           else t) tracks /\
  (forall t, isPending t = false <->
     status t = COMPLETED \/
     exists c, lrcContent t = Some c /\ trim c <> []).
Proof.
  intros iso gen tracks trace Hnd Hi. split; [|apply isPending_spec].
  rewrite runUpdates_pointwise. apply map_ext_in. intros t Ht.
  assert (Hp : NoDup (map id (pendingTracks tracks))).
  { unfold pendingTracks. clear - Hnd.
    induction tracks as [|x tracks IH]; [constructor|].
    cbn [map] in Hnd. inversion Hnd as [|? ? Hx Hnd']; subst.
    cbn [filter]. destruct (isPending x); [|now apply IH].
    cbn [map]. constructor; [|now apply IH].
    intros Hin. apply Hx. apply in_map_iff in Hin as [y [Hy1 Hy2]].
    apply filter_In in Hy2 as [Hy2 _]. rewrite <- Hy1. now apply in_map. }
  destruct (own_updates iso gen (pendingTracks tracks) (id t) Hp)
    as [H1 [H2 H3]]. cbn zeta in H1, H2, H3.
  apply (interleaved_filter (aims (id t))) in Hi. rewrite map_map in Hi.
  apply interleaved_sparse in Hi; [|exact H1]. rewrite Hi.
  destruct (isPending t) eqn:E.
  - rewrite (H2 t); [apply after_processTrack | | reflexivity].
    unfold pendingTracks. apply filter_In. auto.
  - rewrite H3; [reflexivity|].
    intros t' Ht' Heq. unfold pendingTracks in Ht'.
    apply filter_In in Ht' as [Ht' Hpend].
    assert (t' = t).
    { clear - Hnd Ht Ht' Heq.
      induction tracks as [|x tracks IH]; [destruct Ht|].
      cbn [map] in Hnd. inversion Hnd as [|? ? Hx Hnd']; subst.
      destruct Ht as [->|Ht], Ht' as [->|Ht']; auto.
      - exfalso. apply Hx. rewrite <- Heq. now apply in_map.
      - exfalso. apply Hx. rewrite Heq. now apply in_map. }
    congruence.
Qed.

Lemma batch_isolates_failures_witness :
  runUpdates batchTrace batchTracks =
  [ mkTrack (js "a") (js "a.mp3") (js "AAAA") (js "audio/mpeg") [] true
            ERROR None (Some (js "decode failed"));
    mkTrack (js "b") (js "b.mp3") (js "AAAA") (js "audio/mpeg") [] false
            COMPLETED (Some (js "[00:01.00] la")) None;
    mkTrack (js "c") (js "c.mp3") (js "AAAA") (js "audio/mpeg") [] false
            COMPLETED (Some (js "[00:02.00] done")) None ].
Proof.
  destruct (batch_isolates_failures failingIsolation steadyGeneration
              batchTracks batchTrace) as [H _].
  - repeat constructor; cbn; intuition discriminate.
  - vm_compute.
    apply (interleaved_step [] (Start [97]) [Fail [97] _] [[_; _]]).
    apply (interleaved_step [[_]] (Start [98]) [Complete [98] _] []).
    apply (interleaved_step [] (Fail [97] _) [] [[_]]).
    apply (interleaved_step [[]] (Complete [98] _) [] []).
    constructor. repeat constructor.
  - rewrite H. vm_compute. reflexivity.
Defined.

End OrchestratorFacts.

Module BulkFacts.
Import Bulk JSFacts.

Section Match.

Variable toLowerCase : jsstring -> jsstring.

Lemma longTag_spec : forall tag g,
  longTag tag = Some g <-> tag = Some g /\ (3 < length g)%nat.
Proof.
  intros [g'|] g; cbn [longTag].
  - destruct (3 <? length g')%nat eqn:E.
    + apply Nat.ltb_lt in E. split.
      * intros H. injection H as <-. auto.
      * intros [H _]. exact H.
    + apply Nat.ltb_ge in E. split; [discriminate|].
      intros [H1 H2]. injection H1 as <-. lia.
  - split; [discriminate | intros [H _]; discriminate].
Qed.

Lemma stemOf_stem : forall fileName s,
  stemOf toLowerCase fileName s <-> stem toLowerCase fileName = s.
Proof.
  intros fileName s. unfold stemOf, stem. split.
  - apply trimmedOf_trim.
  - intros <-. apply trim_trimmedOf.
Qed.

Lemma tagIs_tagOf : forall l1 l2 content g,
  tagIs toLowerCase l1 l2 content g <->
  tagOf toLowerCase l1 l2 content = Some g.
Proof.
  intros l1 l2 content g. unfold tagIs, tagOf. split.
  - intros [raw [t [H1 [H2 H3]]]]. rewrite H1.
    apply trimmedOf_trim in H2. now rewrite H2, H3.
  - destruct (matchTag l1 l2 content) as [raw|]; [|discriminate].
    intros H. injection H as <-. exists raw, (trim raw).
    split; [reflexivity|]. split; [apply trim_trimmedOf | reflexivity].
Qed.

Lemma accepts_cases : forall file t,
  accepts toLowerCase file t = true <->
  stem toLowerCase (Orchestrator.fileName t) = stem toLowerCase (name file) \/
  (exists g a b,
     tagOf toLowerCase 116 105 (content file) = Some g /\
     (3 < length g)%nat /\
     stem toLowerCase (Orchestrator.fileName t) = a ++ g ++ b) \/
  (exists g b,
     tagOf toLowerCase 97 114 (content file) = Some g /\
     (3 < length g)%nat /\
     stem toLowerCase (Orchestrator.fileName t) = g ++ b).
Proof.
  intros file t. unfold accepts.
  cbv zeta.
  set (trackName := stem toLowerCase (Orchestrator.fileName t)).
  set (lrcTitle := tagOf toLowerCase 116 105 (content file)).
  set (lrcArtist := tagOf toLowerCase 97 114 (content file)).
  assert (T : forall g, longTag lrcTitle = Some g ->
                includes trackName g = true ->
                exists g0 a b, lrcTitle = Some g0 /\ (3 < length g0)%nat /\
                               trackName = a ++ g0 ++ b).
  { intros g Hg Hi. apply longTag_spec in Hg as [Hg1 Hg2].
    apply includes_spec in Hi as [a [b Hi]]. exists g, a, b. auto. }
  assert (A : forall g, longTag lrcArtist = Some g ->
                startsWith trackName g = true ->
                exists g0 b, lrcArtist = Some g0 /\ (3 < length g0)%nat /\
                             trackName = g0 ++ b).
  { intros g Hg Hi. apply longTag_spec in Hg as [Hg1 Hg2].
    apply startsWith_spec in Hi as [b Hi]. exists g, b. auto. }
  split.
  - destruct (JS.eqb trackName (stem toLowerCase (name file))) eqn:E.
    + intros _. left. now apply eqb_eq.
    + destruct (longTag lrcTitle) as [g|] eqn:Et.
      * destruct (includes trackName g) eqn:Ei.
        -- intros _. right. left. eapply T; eauto.
        -- destruct (longTag lrcArtist) as [g'|] eqn:Ea; [|discriminate].
           intros H. right. right. eapply A; eauto.
      * destruct (longTag lrcArtist) as [g'|] eqn:Ea; [|discriminate].
        intros H. right. right. eapply A; eauto.
  - intros [H|[[g [a [b [H1 [H2 H3]]]]]|[g [b [H1 [H2 H3]]]]]].
    + apply eqb_eq in H. now rewrite H.
    + destruct (JS.eqb trackName _); [reflexivity|].
      assert (Ht : longTag lrcTitle = Some g) by (apply longTag_spec; auto).
      rewrite Ht.
      assert (Hi : includes trackName g = true)
        by (apply includes_spec; eauto).
      now rewrite Hi.
    + destruct (JS.eqb trackName _); [reflexivity|].
      destruct (match longTag lrcTitle with
                | Some g0 => includes trackName g0
                | None => false
                end); [reflexivity|].
      assert (Ha : longTag lrcArtist = Some g) by (apply longTag_spec; auto).
      rewrite Ha. apply startsWith_spec. eauto.
Qed.

Lemma accepts_spec : forall file t,
  accepts toLowerCase file t = true <->
  sameStem toLowerCase file t \/ titleInStem toLowerCase file t \/
  artistOpensStem toLowerCase file t.
Proof.
  intros file t. rewrite accepts_cases.
  unfold sameStem, titleInStem, artistOpensStem. split.
  - intros [H|[[g [a [b [H1 [H2 H3]]]]]|[g [b [H1 [H2 H3]]]]]].
    + left. exists (stem toLowerCase (name file)).
      split; apply stemOf_stem; [exact H | reflexivity].
    + right. left. exists g, (a ++ g ++ b), a, b.
      split; [now apply tagIs_tagOf|]. split; [exact H2|].
      split; [now apply stemOf_stem | reflexivity].
    + right. right. exists g, (g ++ b), b.
      split; [now apply tagIs_tagOf|]. split; [exact H2|].
      split; [now apply stemOf_stem | reflexivity].
  - intros [[s [H1 H2]]|[[g [s [a [b [H1 [H2 [H3 H4]]]]]]]|
                        [g [s [b [H1 [H2 [H3 H4]]]]]]]].
    + left. apply stemOf_stem in H1, H2. congruence.
    + right. left. exists g, a, b. apply tagIs_tagOf in H1.
      apply stemOf_stem in H3. split; [exact H1|]. split; [exact H2|].
      congruence.
    + right. right. exists g, b. apply tagIs_tagOf in H1.
      apply stemOf_stem in H3. split; [exact H1|]. split; [exact H2|].
      congruence.
Qed.

Lemma find_first : forall {A} (p : A -> bool) l x,
  find p l = Some x <->
  exists before after,
    l = before ++ x :: after /\ p x = true /\
    Forall (fun y => p y = false) before.
Proof.
  intros A p. induction l as [|y l IH]; intros x; cbn [find].
  - split; [discriminate|]. intros [[|? ?] [after [H _]]]; discriminate.
  - destruct (p y) eqn:E.
    + split.
      * intros H. injection H as <-. exists [], l. repeat split; auto.
      * intros [before [after [H1 [H2 H3]]]]. destruct before as [|z before].
        -- now injection H1 as ->.
        -- injection H1 as <- _. inversion H3; congruence.
    + rewrite IH. split.
      * intros [before [after [H1 [H2 H3]]]]. exists (y :: before), after.
        rewrite H1. repeat split; auto.
      * intros [before [after [H1 [H2 H3]]]]. destruct before as [|z before].
        -- injection H1 as -> _. congruence.
        -- injection H1 as _ H1. inversion H3; subst. eauto.
Qed.

Lemma find_none_iff : forall {A} (p : A -> bool) l,
  find p l = None <-> Forall (fun y => p y = false) l.
Proof.
  intros A p. induction l as [|y l IH]; cbn [find].
  - split; constructor.
  - destruct (p y) eqn:E.
    + split; [discriminate|]. intros H. inversion H; congruence.
    + rewrite IH. split; [now constructor | now inversion 1].
Qed.

Lemma collectUpdates_spec : forall tracks files,
  collectUpdates toLowerCase tracks files =
  flat_map (fun file =>
              match findTrack toLowerCase tracks file with
              | Some track => [(Orchestrator.id track, content file)]
              | None => []
              end) files.
Proof.
  intros tracks. induction files as [|file files IH]; [reflexivity|].
  cbn [collectUpdates flat_map]. rewrite IH.
  now destruct (findTrack toLowerCase tracks file).
Qed.

Lemma collectUpdates_length : forall tracks files,
  (length (collectUpdates toLowerCase tracks files) <= length files)%nat.
Proof.
  intros tracks. induction files as [|file files IH]; [cbn; lia|].
  cbn [collectUpdates]. destruct (findTrack toLowerCase tracks file);
    cbn [length]; lia.
Qed.

End Match.

(** C10, as the code has it: a file goes to the first track of the
    collection that meets any of the three criteria, and to no track when
    none meets one; the files that found a track are counted in the
    alert. *)
Theorem bulk_match_first_accepting : forall toLowerCase tracks file files,
  (forall t,
     findTrack toLowerCase tracks file = Some t <->
     exists before after,
       tracks = before ++ t :: after /\
       (sameStem toLowerCase file t \/ titleInStem toLowerCase file t \/
        artistOpensStem toLowerCase file t) /\
       Forall (fun t' => ~ (sameStem toLowerCase file t' \/
                            titleInStem toLowerCase file t' \/
                            artistOpensStem toLowerCase file t')) before) /\
  (findTrack toLowerCase tracks file = None <->
   Forall (fun t' => ~ (sameStem toLowerCase file t' \/
                        titleInStem toLowerCase file t' \/
                        artistOpensStem toLowerCase file t')) tracks) /\
  collectUpdates toLowerCase tracks files =
    flat_map (fun f =>
                match findTrack toLowerCase tracks f with
                | Some track => [(Orchestrator.id track, content f)]
                | None => []
                end) files /\
  (length (collectUpdates toLowerCase tracks files) <= length files)%nat /\
  handleBulkLrcUpload toLowerCase tracks files =
    match files, collectUpdates toLowerCase tracks files with
    | [], _ => None
    | _ :: _, [] => Some ([], NoMatchingTracks)
    | _ :: _, updates => Some (updates, Matched (length updates))
    end.
Proof.
  intros toLowerCase tracks file files.
  assert (R : forall l,
            Forall (fun y => accepts toLowerCase file y = false) l <->
            Forall (fun t' => ~ (sameStem toLowerCase file t' \/
                                 titleInStem toLowerCase file t' \/
                                 artistOpensStem toLowerCase file t')) l).
  { intros l. rewrite !Forall_forall. split; intros H t Ht.
    - rewrite <- accepts_spec. rewrite (H t Ht). discriminate.
    - specialize (H t Ht). rewrite <- accepts_spec in H.
      now destruct (accepts toLowerCase file t). }
  split; [|split; [|split; [|split]]].
  - intros t. unfold findTrack. rewrite find_first. split.
    + intros [before [after [H1 [H2 H3]]]]. exists before, after.
      split; [exact H1|]. split; [now apply accepts_spec | now apply R].
    + intros [before [after [H1 [H2 H3]]]]. exists before, after.
      split; [exact H1|]. split; [now apply accepts_spec | now apply R].
  - unfold findTrack. rewrite find_none_iff. apply R.
  - apply collectUpdates_spec.
  - apply collectUpdates_length.
  - unfold handleBulkLrcUpload. destruct files as [|f files]; [reflexivity|].
    now destruct (collectUpdates toLowerCase tracks (f :: files)).
Qed.

(** C10, as the claim has it, fails where an earlier track contains the
    title tag and a later one has the stem of the file: the file goes to
    the earlier track, not to the one of equal stem.  Here the stem of the
    file and that of the second track are both song, once the case and the
    blanks are gone. *)
Lemma bulk_match_prefers_earlier_track :
  findTrack asciiLower [liveTrackMixed; songTrackMixed] songFileMixed =
    Some liveTrackMixed /\
  sameStem asciiLower songFileMixed songTrackMixed /\
  stemOf asciiLower (name songFileMixed) (js "song") /\
  stemOf asciiLower (Orchestrator.fileName liveTrackMixed)
         (js "my song live") /\
  ~ sameStem asciiLower songFileMixed liveTrackMixed /\
  handleBulkLrcUpload asciiLower [liveTrackMixed; songTrackMixed]
                      [songFileMixed; otherFile] =
    Some ([(js "1", content songFileMixed)], Matched 1).
Proof.
  assert (S1 : stemOf asciiLower (name songFileMixed) (js "song")).
  { exists [], []. split; [reflexivity|]. split; [constructor|].
    split; [constructor|]. split.
    - intros c r E. injection E as <- _. reflexivity.
    - intros c r E. apply (f_equal (@rev _)) in E.
      rewrite rev_app_distr in E. injection E as <- _. reflexivity. }
  assert (S2 : stemOf asciiLower (Orchestrator.fileName songTrackMixed)
                      (js "song")).
  { exists [32], [32]. split; [reflexivity|]. split; [repeat constructor|].
    split; [repeat constructor|]. split.
    - intros c r E. injection E as <- _. reflexivity.
    - intros c r E. apply (f_equal (@rev _)) in E.
      rewrite rev_app_distr in E. injection E as <- _. reflexivity. }
  assert (S3 : stemOf asciiLower (Orchestrator.fileName liveTrackMixed)
                      (js "my song live")).
  { exists [], []. split; [reflexivity|]. split; [constructor|].
    split; [constructor|]. split.
    - intros c r E. injection E as <- _. reflexivity.
    - intros c r E. apply (f_equal (@rev _)) in E.
      rewrite rev_app_distr in E. injection E as <- _. reflexivity. }
  split; [vm_compute; reflexivity|].
  split; [exists (js "song"); split; assumption|].
  split; [exact S1|]. split; [exact S3|]. split.
  - intros [s [H1 H2]]. apply trimmedOf_trim in H1, H2, S1, S3.
    rewrite S3 in H1. rewrite S1 in H2. subst s. discriminate.
  - vm_compute. reflexivity.
Qed.

(** A file goes to the first accepting track, here by its title tag, which
    is compared in lower case and without its blanks; a file with no
    overlap goes to none; a file whose artist tag opens the stem of a track
    goes to that track. *)
Lemma bulk_match_first_accepting_witness :
  findTrack asciiLower [liveTrackMixed; songTrackMixed] songFileMixed =
    Some liveTrackMixed /\
  findTrack asciiLower [liveTrackMixed; songTrackMixed] otherFile = None /\
  findTrack asciiLower [songTrackMixed; liveTrackMixed] songFileMixed =
    Some songTrackMixed /\
  findTrack asciiLower [songTrackMixed; liveTrackMixed] artistFileMixed =
    Some liveTrackMixed.
Proof.
  destruct (bulk_match_first_accepting asciiLower
              [liveTrackMixed; songTrackMixed] songFileMixed []) as [Hs _].
  destruct (bulk_match_first_accepting asciiLower
              [liveTrackMixed; songTrackMixed] otherFile []) as [_ [Hn _]].
  destruct (bulk_match_first_accepting asciiLower
              [songTrackMixed; liveTrackMixed] songFileMixed []) as [Hs' _].
  destruct (bulk_match_first_accepting asciiLower
              [songTrackMixed; liveTrackMixed] artistFileMixed [])
    as [Ha _].
  split; [|split; [|split]].
  - apply (proj2 (Hs liveTrackMixed)).
    exists [], [songTrackMixed]. split; [reflexivity|].
    split; [|constructor]. right. left.
    exists (js "song"), (js "my song live"), (js "my "), (js " live").
    split; [|split; [cbn; lia | split; [|reflexivity]]].
    + exists (js " Song "), (js "Song"). split; [reflexivity|].
      split; [|reflexivity]. exists [32], [32]. split; [reflexivity|].
      split; [repeat constructor|]. split; [repeat constructor|]. split.
      * intros c r E. injection E as <- _. reflexivity.
      * intros c r E. apply (f_equal (@rev _)) in E.
        rewrite rev_app_distr in E. injection E as <- _. reflexivity.
    + exists [], []. split; [reflexivity|]. split; [constructor|].
      split; [constructor|]. split.
      * intros c r E. injection E as <- _. reflexivity.
      * intros c r E. apply (f_equal (@rev _)) in E.
        rewrite rev_app_distr in E. injection E as <- _. reflexivity.
  - apply Hn. repeat constructor.
    + intros [[s [H1 H2]]|[[g [s [a [b [[raw [t [H _]]] _]]]]]|
                           [g [s [b [[raw [t [H _]]] _]]]]]];
        try discriminate.
      apply trimmedOf_trim in H1, H2. subst s. discriminate.
    + intros [[s [H1 H2]]|[[g [s [a [b [[raw [t [H _]]] _]]]]]|
                           [g [s [b [[raw [t [H _]]] _]]]]]];
        try discriminate.
      apply trimmedOf_trim in H1, H2. subst s. discriminate.
  - apply (proj2 (Hs' songTrackMixed)).
    exists [], [liveTrackMixed]. split; [reflexivity|].
    split; [|constructor]. left. exists (js "song"). split.
    + exists [32], [32]. split; [reflexivity|].
      split; [repeat constructor|]. split; [repeat constructor|]. split.
      * intros c r E. injection E as <- _. reflexivity.
      * intros c r E. apply (f_equal (@rev _)) in E.
        rewrite rev_app_distr in E. injection E as <- _. reflexivity.
    + exists [], []. split; [reflexivity|]. split; [constructor|].
      split; [constructor|]. split.
      * intros c r E. injection E as <- _. reflexivity.
      * intros c r E. apply (f_equal (@rev _)) in E.
        rewrite rev_app_distr in E. injection E as <- _. reflexivity.
  - apply (proj2 (Ha liveTrackMixed)).
    exists [songTrackMixed], []. split; [reflexivity|]. split.
    + right. right.
      exists (js "my song"), (js "my song live"), (js " live").
      split; [|split; [cbn; lia | split; [|reflexivity]]].
      * exists (js " MY SONG"), (js "MY SONG"). split; [reflexivity|].
        split; [|reflexivity]. exists [32], []. split; [reflexivity|].
        split; [repeat constructor|]. split; [constructor|]. split.
        -- intros c r E. injection E as <- _. reflexivity.
        -- intros c r E. apply (f_equal (@rev _)) in E.
           rewrite rev_app_distr in E. injection E as <- _. reflexivity.
      * exists [], []. split; [reflexivity|]. split; [constructor|].
        split; [constructor|]. split.
        -- intros c r E. injection E as <- _. reflexivity.
        -- intros c r E. apply (f_equal (@rev _)) in E.
           rewrite rev_app_distr in E. injection E as <- _. reflexivity.
    + constructor; [|constructor].
      intros [[s [H1 H2]]|[[g [s [a [b [[raw [t [H _]]] _]]]]]|
                           [g [s [b [[raw [t [H [H' ->]]]] [_ [H3 H4]]]]]]]].
      * apply trimmedOf_trim in H1, H2. subst s. discriminate.
      * discriminate.
      * vm_compute in H. injection H as <-.
        apply trimmedOf_trim in H', H3. subst t s.
        vm_compute in H4. discriminate.
Defined.

End BulkFacts.

Module DownloadFacts.
Import Filename Download JSFacts FilenameFacts.

Lemma extBody_with_dot : forall b ext, extBody (b ++ 46 :: ext) = false.
Proof.
  intros b ext. destruct (extBody (b ++ 46 :: ext)) eqn:E; [|reflexivity].
  apply extBody_spec in E as [_ E]. rewrite Forall_forall in E.
  destruct (E 46) as [_ H]; [apply in_elt | congruence].
Qed.

Lemma stripExtension_dot : forall base ext,
  plainExt ext -> stripExtension (base ++ 46 :: ext) = base.
Proof.
  intros base ext H. induction base as [|c base IH]; cbn [app stripExtension].
  - apply extBody_spec in H. now rewrite H.
  - rewrite extBody_with_dot, andb_false_r. now rewrite IH.
Qed.

(** X2: a name that ends in a dot and an extension, which is not empty and
    holds no dot and no slash, is downloaded under the name in which .lrc
    stands for that extension: only the last extension is replaced, and
    what stands before it is kept as it is. *)
Theorem lrcName_replaces_extension : forall base ext,
  plainExt ext ->
  stripExtension (base ++ 46 :: ext) = base /\
  lrcName (base ++ 46 :: ext) = base ++ js ".lrc".
Proof.
  intros base ext H. unfold lrcName.
  now rewrite (stripExtension_dot base ext H).
Qed.

Lemma lrcName_replaces_extension_witness :
  stripExtension (js "archive.tar" ++ 46 :: js "gz") = js "archive.tar" /\
  lrcName (js "archive.tar" ++ 46 :: js "gz") = js "archive.tar.lrc".
Proof.
  apply (lrcName_replaces_extension (js "archive.tar") (js "gz")).
  split; [discriminate|]. repeat constructor; discriminate.
Defined.

Lemma plainExt_lrc : plainExt (js "lrc").
Proof. split; [discriminate | repeat constructor; discriminate]. Qed.

(** X3: the download name ends in [.lrc], keeps the stem of the file name
    and is its own download name. *)
Theorem lrcName_stable : forall filename,
  stripExtension (lrcName filename) = stripExtension filename /\
  lrcName (lrcName filename) = lrcName filename.
Proof.
  intros filename.
  assert (H : stripExtension (lrcName filename) = stripExtension filename).
  { unfold lrcName. change (js ".lrc") with (46 :: js "lrc").
    apply stripExtension_dot, plainExt_lrc. }
  split; [exact H|]. unfold lrcName at 1. now rewrite H.
Qed.

Lemma eqb_sym : forall s t, JS.eqb s t = JS.eqb t s.
Proof.
  intros s t. destruct (JS.eqb s t) eqn:E.
  - apply eqb_eq in E. subst. symmetry. apply eqb_refl.
  - destruct (JS.eqb t s) eqn:E'; [|reflexivity].
    apply eqb_eq in E'. subst. now rewrite eqb_refl in E.
Qed.

Lemma eqb_neq : forall s t, JS.eqb s t = false <-> s <> t.
Proof.
  intros s t. split.
  - intros E H. subst. now rewrite eqb_refl in E.
  - intros H. destruct (JS.eqb s t) eqn:E; [|reflexivity].
    apply eqb_eq in E. contradiction.
Qed.

Lemma entry_zipFile : forall name content zip n,
  entry n (zipFile name content zip) =
  if JS.eqb name n then Some content else entry n zip.
Proof.
  intros name content. induction zip as [|[m c] zip IH]; intros n.
  - cbn [zipFile entry]. reflexivity.
  - cbn [zipFile entry]. destruct (JS.eqb m name) eqn:E.
    + apply eqb_eq in E. subst m. cbn [entry].
      now destruct (JS.eqb name n).
    + cbn [entry]. rewrite IH. destruct (JS.eqb m n) eqn:E2; [|reflexivity].
      apply eqb_eq in E2. subst m.
      rewrite eqb_sym in E. now rewrite E.
Qed.

Lemma names_zipFile : forall name content zip,
  NoDup (map fst zip) -> NoDup (map fst (zipFile name content zip)).
Proof.
  intros name content. induction zip as [|[m c] zip IH]; intros H.
  - cbn. constructor; [intros [] | constructor].
  - cbn [zipFile]. cbn [map fst] in H. inversion H as [|? ? Hm Hz]; subst.
    destruct (JS.eqb m name) eqn:E; cbn [map fst].
    + now constructor.
    + constructor; [|now apply IH].
      intros Hin. apply in_map_iff in Hin as [[m' c'] [Hm' Hin]].
      cbn [fst] in Hm'. subst m'.
      assert (He : entry m (zipFile name content zip) <> None).
      { clear - Hin. induction (zipFile name content zip) as [|[a b] l IHl];
          [destruct Hin|]. cbn [entry]. destruct (JS.eqb a m) eqn:Ea;
          [discriminate|]. destruct Hin as [Hin|Hin]; [|now apply IHl].
        injection Hin as -> _. now rewrite eqb_refl in Ea. }
      rewrite entry_zipFile in He. rewrite eqb_sym, E in He.
      apply Hm. clear - He. induction zip as [|[a b] l IHl]; [now elim He|].
      cbn [entry] in He. cbn [map fst]. destruct (JS.eqb a m) eqn:Ea.
      * apply eqb_eq in Ea. now left.
      * right. now apply IHl.
Qed.

Lemma zipEntries_fold : forall files zip n,
  entry n (fold_left (fun z f => zipFile (lrcName (fst f)) (snd f) z)
                     files zip) =
  match lastNamed n files with
  | Some c => Some c
  | None => entry n zip
  end.
Proof.
  induction files as [|[f c] files IH]; intros zip n; [reflexivity|].
  cbn [fold_left lastNamed fst snd]. rewrite IH.
  destruct (lastNamed n files); [reflexivity|]. rewrite entry_zipFile.
  now destruct (JS.eqb (lrcName f) n).
Qed.

Lemma zipEntries_names : forall files zip,
  NoDup (map fst zip) ->
  NoDup (map fst (fold_left
                    (fun z f => zipFile (lrcName (fst f)) (snd f) z)
                    files zip)).
Proof.
  induction files as [|f files IH]; intros zip H; [exact H|].
  cbn [fold_left]. apply IH. now apply names_zipFile.
Qed.

(** X4: for tracks whose file names hold no slash, the archive of
    [handleDownloadAll] holds each download name once, with the content of
    the last completed track of that name; nothing is downloaded when no
    track is completed with content. *)
Theorem handleDownloadAll_entries : forall tracks,
  Forall (fun t => Forall (fun c => c <> 47) (Orchestrator.fileName t))
         tracks ->
  let completed :=
    filter (fun t => Orchestrator.isCompleted (Orchestrator.status t) &&
                     truthy (Orchestrator.lrcContent t)) tracks in
  match handleDownloadAll tracks with
  | None => completed = []
  | Some zip =>
      completed <> [] /\
      NoDup (map fst zip) /\
      forall n,
        entry n zip =
        lastNamed n
          (map (fun t => (Orchestrator.fileName t,
                          match Orchestrator.lrcContent t with
                          | Some c => c
                          | None => []
                          end)) completed)
  end.
Proof.
  intros tracks _ completed. unfold handleDownloadAll. fold completed.
  destruct completed as [|t rest] eqn:E; [reflexivity|].
  split; [discriminate|]. split.
  - unfold zipEntries. apply zipEntries_names. constructor.
  - intros n. unfold zipEntries. rewrite zipEntries_fold.
    now destruct (lastNamed n _).
Qed.

(** Two completed tracks a.mp3 and a.wav end in the one entry a.lrc, that
    of the last. *)
Lemma handleDownloadAll_entries_witness :
  handleDownloadAll sameNameTracks =
    Some [(js "a.lrc", js "[00:01.00] three")] /\
  (forall zip, handleDownloadAll sameNameTracks = Some zip ->
     NoDup (map fst zip) /\
     entry (js "a.lrc") zip = Some (js "[00:01.00] three") /\
     entry (js "b.lrc") zip = None).
Proof.
  split; [vm_compute; reflexivity|].
  intros zip E.
  assert (F : Forall (fun t => Forall (fun c => c <> 47)
                                      (Orchestrator.fileName t))
                     sameNameTracks)
    by (repeat constructor; discriminate).
  pose proof (handleDownloadAll_entries sameNameTracks F) as H.
  cbv zeta in H. rewrite E in H. destruct H as [_ [H1 H2]].
  split; [exact H1|]. rewrite !H2. split; vm_compute; reflexivity.
Defined.

End DownloadFacts.

Module BulkNameFacts.
Import Filename Bulk JSFacts FilenameFacts DownloadFacts BulkFacts.

(** X5: an LRC file that bears the name of a track, its extension apart,
    is never left without a track: it goes to the first track that accepts
    it. *)
Theorem same_name_is_matched :
  forall toLowerCase tracks t file base ext1 ext2,
  In t tracks ->
  Orchestrator.fileName t = base ++ 46 :: ext1 ->
  name file = base ++ 46 :: ext2 ->
  plainExt ext1 -> plainExt ext2 ->
  exists t', findTrack toLowerCase tracks file = Some t' /\
             accepts toLowerCase file t' = true.
Proof.
  intros toLowerCase tracks t file base ext1 ext2 Hin Ht Hf H1 H2.
  assert (Ha : accepts toLowerCase file t = true).
  { unfold accepts, stem. rewrite Ht, Hf.
    rewrite !stripExtension_dot by assumption.
    now rewrite eqb_refl. }
  unfold findTrack. destruct (find (accepts toLowerCase file) tracks) eqn:E.
  - exists t0. split; [reflexivity|]. now apply find_some in E.
  - exfalso. apply (find_none _ _ E) in Hin. congruence.
Qed.

Lemma same_name_is_matched_witness :
  exists t', findTrack asciiLower [liveTrack; songTrack] songFile = Some t' /\
             accepts asciiLower songFile t' = true.
Proof.
  apply (same_name_is_matched asciiLower [liveTrack; songTrack] songTrack
           songFile (js "song") (js "mp3") (js "lrc")).
  - right. left. reflexivity.
  - reflexivity.
  - reflexivity.
  - split; [discriminate | repeat constructor; discriminate].
  - split; [discriminate | repeat constructor; discriminate].
Defined.

End BulkNameFacts.

Module SessionFacts.
Import Orchestrator Session JSFacts DownloadFacts OrchestratorFacts.

Lemma setAt_ids : forall (l : list Track) index t x,
  nth_error l index = Some t -> id x = id t ->
  map id (setAt index x l) = map id l.
Proof.
  induction l as [|y l IH]; intros [|index] t x H Hx; cbn in *;
    try discriminate.
  - injection H as ->. now rewrite Hx.
  - f_equal. eapply IH; eauto.
Qed.

Lemma findIndex_nth : forall {A} (p : A -> bool) l index,
  findIndex p l = Some index ->
  exists x, nth_error l index = Some x /\ p x = true /\
            forall j y, (j < index)%nat -> nth_error l j = Some y ->
                        p y = false.
Proof.
  intros A p. induction l as [|y l IH]; intros index H; cbn in H;
    [discriminate|].
  destruct (p y) eqn:E.
  - injection H as <-. exists y. repeat split; auto. intros j z Hj. lia.
  - destruct (findIndex p l) as [i|] eqn:F; [|discriminate].
    injection H as <-. destruct (IH i eq_refl) as [x [H1 [H2 H3]]].
    exists x. repeat split; auto. intros [|j] z Hj Hz.
    + cbn in Hz. now injection Hz as <-.
    + cbn in Hz. apply (H3 j); [lia | exact Hz].
Qed.

Lemma findIndex_none : forall {A} (p : A -> bool) l,
  findIndex p l = None -> forall x, In x l -> p x = false.
Proof.
  intros A p. induction l as [|y l IH]; intros H x Hx; [destruct Hx|].
  cbn in H. destruct (p y) eqn:E; [discriminate|].
  destruct (findIndex p l) eqn:F; [discriminate|].
  destruct Hx as [<-|Hx]; auto.
Qed.

Lemma bulkStep_ids : forall tracks u,
  map id (bulkStep tracks u) = map id tracks.
Proof.
  intros tracks u. unfold bulkStep.
  destruct (findIndex _ tracks) as [index|]; [|reflexivity].
  destruct (nth_error tracks index) as [t|] eqn:E; [|reflexivity].
  now apply setAt_ids with (t := t).
Qed.

Lemma map_if_ids : forall (p : Track -> bool) (f : Track -> Track) l,
  (forall t, id (f t) = id t) ->
  map id (map (fun t => if p t then f t else t) l) = map id l.
Proof.
  intros p f l H. rewrite map_map. apply map_ext. intros t.
  destruct (p t); auto.
Qed.

(** X6: no operation on the collection changes the identifier or the
    place of a track; a removal deletes the tracks of the identifier given
    and no other.  So identifiers that are unique stay unique. *)
Theorem operations_keep_identifiers : forall tracks,
  (forall u, map id (setTracks u tracks) = map id tracks) /\
  (forall us, map id (runUpdates us tracks) = map id tracks) /\
  (forall i lyrics, map id (handleUpdateLyrics i lyrics tracks) = map id tracks) /\
  (forall i content, map id (handleUploadLrc i content tracks) = map id tracks) /\
  (forall updates, map id (handleBulkUploadLrc updates tracks) = map id tracks) /\
  (forall i, map id (handleToggleIsolation i tracks) = map id tracks) /\
  (forall i content,
     map id (handleTrackContentChange i content tracks) = map id tracks) /\
  (forall i,
     map id (fst (handleRemoveTrack i tracks)) =
     filter (fun j => negb (JS.eqb j i)) (map id tracks)) /\
  (forall i, NoDup (map id tracks) ->
             NoDup (map id (fst (handleRemoveTrack i tracks)))).
Proof.
  intros tracks.
  assert (HS : forall u ts, map id (setTracks u ts) = map id ts).
  { intros u ts. unfold setTracks. apply map_if_ids.
    intros t. apply id_applyTo. }
  assert (R : forall i ts,
            map id (fst (handleRemoveTrack i ts)) =
            filter (fun j => negb (JS.eqb j i)) (map id ts)).
  { intros i ts. cbn [handleRemoveTrack fst].
    induction ts as [|t ts IH]; [reflexivity|]. cbn [filter map].
    destruct (negb (JS.eqb (id t) i)); cbn [map]; now rewrite IH. }
  split; [intros u; apply HS|]. split.
  { intros us. unfold runUpdates. revert tracks.
    induction us as [|u us IH]; intros tracks; [reflexivity|].
    cbn [fold_left]. now rewrite IH, HS. }
  split; [intros; now apply map_if_ids|].
  split; [intros; now apply map_if_ids|].
  split.
  { intros updates. unfold handleBulkUploadLrc. revert tracks.
    induction updates as [|u updates IH]; intros tracks; [reflexivity|].
    cbn [fold_left]. now rewrite IH, bulkStep_ids. }
  split; [intros; now apply map_if_ids|].
  split; [intros; now apply map_if_ids|].
  split; [intros i; apply R|].
  intros i H. rewrite R. now apply NoDup_filter.
Qed.

End SessionFacts.
Module SessionLaws.
Import Orchestrator Session JSFacts DownloadFacts OrchestratorFacts SessionFacts.

Lemma consistent_applyTo : forall u t, consistent t -> consistent (applyTo u t).
Proof.
  intros u t [Hc He]. destruct u as [i|i|i r|i m]; unfold consistent; cbn.
  - destruct (useIsolation t); split; discriminate.
  - split; discriminate.
  - split; [intros _; split; [now exists r | reflexivity] | discriminate].
  - split; [discriminate|]. intros _.
    destruct m as [[|c m]|]; cbn; eexists; split; try reflexivity;
      discriminate.
Qed.

Lemma consistent_uploaded : forall c t, consistent (uploaded c t).
Proof.
  intros c t. unfold consistent; cbn.
  split; [intros _; split; [now exists c | reflexivity] | discriminate].
Qed.

Lemma Forall_map_if : forall (P : Track -> Prop) (p : Track -> bool) f l,
  (forall t, P t -> P (f t)) -> Forall P l ->
  Forall P (map (fun t => if p t then f t else t) l).
Proof.
  intros P p f l Hf H. induction H as [|t l Ht _ IH]; cbn [map];
    constructor; auto. destruct (p t); auto.
Qed.

Lemma Forall_setAt : forall (P : Track -> Prop) l index x,
  P x -> Forall P l -> Forall P (setAt index x l).
Proof.
  intros P l. induction l as [|y l IH]; intros index x Hx H; [destruct index; constructor|].
  inversion H; subst. destruct index; cbn; constructor; auto.
Qed.

Lemma consistent_bulkStep : forall tracks u,
  Forall consistent tracks -> Forall consistent (bulkStep tracks u).
Proof.
  intros tracks u H. unfold bulkStep.
  destruct (findIndex _ tracks) as [index|]; [|exact H].
  destruct (nth_error tracks index) as [t|]; [|exact H].
  apply Forall_setAt; [apply consistent_uploaded | exact H].
Qed.

(** X7: the status of a track and its other fields stay in accord under
    every operation on the collection: a COMPLETED track carries lyrics and
    no error, a track in ERROR carries a message that is not empty. *)
Theorem operations_keep_consistency : forall tracks,
  Forall consistent tracks ->
  (forall us, Forall consistent (runUpdates us tracks)) /\
  (forall isolateVocals generateLrcFromAudio i,
     Forall consistent
       (handleRetry isolateVocals generateLrcFromAudio i tracks)) /\
  (forall i lyrics, Forall consistent (handleUpdateLyrics i lyrics tracks)) /\
  (forall i content, Forall consistent (handleUploadLrc i content tracks)) /\
  (forall updates, Forall consistent (handleBulkUploadLrc updates tracks)) /\
  (forall i content,
     Forall consistent (handleTrackContentChange i content tracks)) /\
  (forall i, Forall consistent (handleToggleIsolation i tracks)) /\
  (forall i, Forall consistent (fst (handleRemoveTrack i tracks))).
Proof.
  intros tracks H.
  assert (R : forall us ts, Forall consistent ts ->
                            Forall consistent (runUpdates us ts)).
  { unfold runUpdates. induction us as [|u us IH]; intros ts Hts;
      [exact Hts|]. cbn [fold_left]. apply IH. unfold setTracks.
    apply Forall_map_if; [apply consistent_applyTo | exact Hts]. }
  split; [intros us; now apply R|].
  split.
  { intros iso gen i. unfold handleRetry.
    destruct (find _ tracks); [now apply R | exact H]. }
  split.
  { intros i lyrics. apply Forall_map_if; [|exact H].
    intros t Ht. exact Ht. }
  split.
  { intros i content. apply Forall_map_if; [|exact H].
    intros t _. unfold consistent; cbn.
    destruct content as [[|c k]|]; cbn; split; try discriminate.
    intros _. split; [now eexists | reflexivity]. }
  split.
  { intros updates. unfold handleBulkUploadLrc. revert tracks H.
    induction updates as [|u updates IH]; intros tracks H; [exact H|].
    cbn [fold_left]. apply IH. now apply consistent_bulkStep. }
  split.
  { intros i content. apply Forall_map_if; [|exact H].
    intros t [Hc He]. unfold consistent; cbn. split.
    - intros Hs. split; [now eexists | now apply Hc].
    - exact He. }
  split.
  { intros i. apply Forall_map_if; [|exact H]. intros t Ht. exact Ht. }
  intros i. cbn [handleRemoveTrack fst].
  apply Forall_forall. intros t Ht. apply filter_In in Ht as [Ht _].
  revert t Ht. now apply Forall_forall.
Qed.

Lemma batchTracks_consistent : Forall consistent batchTracks.
Proof.
  repeat constructor; try discriminate.
  all: cbn; intros; try discriminate; try now eexists.
Qed.

Lemma operations_keep_consistency_witness :
  Forall consistent batchTracks /\
  Forall consistent (runUpdates batchTrace batchTracks).
Proof.
  split; [exact batchTracks_consistent|].
  apply (operations_keep_consistency batchTracks batchTracks_consistent).
Defined.


Lemma NoDup_ids_eq : forall (l : list Track) a b,
  NoDup (map id l) -> In a l -> In b l -> id a = id b -> a = b.
Proof.
  induction l as [|x l IH]; intros a b H Ha Hb E; [destruct Ha|].
  cbn [map] in H. inversion H as [|? ? Hn Hd]; subst.
  destruct Ha as [<-|Ha], Hb as [<-|Hb]; auto.
  - exfalso. apply Hn. rewrite E. now apply in_map.
  - exfalso. apply Hn. rewrite <- E. now apply in_map.
Qed.

Lemma bulkStep_map : forall tracks i c,
  NoDup (map id tracks) ->
  bulkStep tracks (i, c) =
  map (fun t => if JS.eqb (id t) i then uploaded c t else t) tracks.
Proof.
  unfold bulkStep. cbn [fst snd].
  induction tracks as [|t l IH]; intros i c H; [reflexivity|].
  cbn [map] in H. inversion H as [|? ? Hn Hd]; subst.
  cbn [findIndex map]. destruct (JS.eqb (id t) i) eqn:E.
  - cbn [nth_error setAt]. f_equal. apply eqb_eq in E. subst i.
    rewrite <- (map_id l) at 1. apply map_ext_in. intros t' Ht'.
    destruct (JS.eqb (id t') (id t)) eqn:E'; [|reflexivity].
    apply eqb_eq in E'. exfalso. apply Hn. rewrite <- E'. now apply in_map.
  - specialize (IH i c Hd).
    destruct (findIndex (fun t0 => JS.eqb (id t0) i) l) as [k|].
    + cbn [nth_error]. destruct (nth_error l k) as [t'|].
      * cbn [setAt]. now f_equal.
      * now f_equal.
    + now f_equal.
Qed.

Lemma handleBulkUploadLrc_map : forall updates tracks,
  NoDup (map id tracks) ->
  handleBulkUploadLrc updates tracks =
  map (fun t => match lastUpdate (id t) updates with
                | Some c => uploaded c t
                | None => t
                end) tracks.
Proof.
  unfold handleBulkUploadLrc.
  induction updates as [|[i c] updates IH]; intros tracks H.
  - cbn. now rewrite map_id.
  - cbn [fold_left]. rewrite IH by (now rewrite bulkStep_ids).
    rewrite bulkStep_map by exact H. rewrite map_map.
    apply map_ext. intros t. cbn [lastUpdate].
    destruct (JS.eqb (id t) i) eqn:Ei; cbn [uploaded id].
    + now destruct (lastUpdate (id t) updates).
    + now destruct (lastUpdate (id t) updates).
Qed.

(** X8: on tracks of distinct identifiers, a bulk upload gives each track
    the content of the last update that names it, marks it COMPLETED and
    clears its error; it leaves the other tracks as they were.  The tracks
    updated are no longer pending. *)
Theorem handleBulkUploadLrc_effect : forall updates tracks,
  NoDup (map id tracks) ->
  handleBulkUploadLrc updates tracks =
  map (fun t => match lastUpdate (id t) updates with
                | Some c => uploaded c t
                | None => t
                end) tracks /\
  forall t, In t (handleBulkUploadLrc updates tracks) ->
            lastUpdate (id t) updates <> None -> isPending t = false.
Proof.
  intros updates tracks H.
  split; [now apply handleBulkUploadLrc_map|].
  intros t Ht Hu. rewrite (handleBulkUploadLrc_map updates tracks H) in Ht.
  apply in_map_iff in Ht as [t0 [<- _]].
  destruct (lastUpdate (id t0) updates) as [c|] eqn:L.
  - reflexivity.
  - now rewrite L in Hu.
Qed.

Lemma batchTracks_ids : NoDup (map id batchTracks).
Proof.
  repeat constructor; cbn; intuition discriminate.
Qed.

Lemma handleBulkUploadLrc_effect_witness :
  NoDup (map id batchTracks) /\
  handleBulkUploadLrc [(js "b", js "[00:01.00] one");
                       (js "z", js "[00:02.00] two");
                       (js "b", js "[00:03.00] three")] batchTracks =
  [ sampleTrack "a" true PENDING None;
    sampleTrack "b" false COMPLETED (Some (js "[00:03.00] three"));
    sampleTrack "c" false COMPLETED (Some (js "[00:02.00] done")) ].
Proof.
  split; [exact batchTracks_ids|].
  rewrite (proj1 (handleBulkUploadLrc_effect
                    [(js "b", js "[00:01.00] one");
                     (js "z", js "[00:02.00] two");
                     (js "b", js "[00:03.00] three")]
                    batchTracks batchTracks_ids)).
  reflexivity.
Defined.

(** X9: after the upload of an LRC for a track, the track carries the
    content given and no error, and it is pending exactly when the content
    is absent or the empty string: a content of blanks only keeps the track
    out of the next generation. *)
Theorem handleUploadLrc_settles : forall i content tracks t,
  In t (handleUploadLrc i content tracks) -> id t = i ->
  lrcContent t = content /\ error t = None /\
  isPending t = negb (truthy content).
Proof.
  intros i content tracks t Ht Hi. unfold handleUploadLrc in Ht.
  apply in_map_iff in Ht as [t0 [E _]].
  destruct (JS.eqb (id t0) i) eqn:Ei.
  - subst t. cbn. split; [reflexivity|]. split; [reflexivity|].
    unfold isPending. cbn. now destruct content as [[|c k]|].
  - subst t. rewrite Hi, eqb_refl in Ei. discriminate.
Qed.

Lemma handleUploadLrc_settles_witness :
  isPending (sampleTrack "b" false COMPLETED (Some (js " "))) = false /\
  isPending (sampleTrack "b" false PENDING (Some [])) = true.
Proof.
  split.
  - apply (handleUploadLrc_settles (js "b") (Some (js " ")) batchTracks
             (sampleTrack "b" false COMPLETED (Some (js " ")))).
    + right. left. reflexivity.
    + reflexivity.
  - apply (handleUploadLrc_settles (js "b") (Some []) batchTracks
             (sampleTrack "b" false PENDING (Some []))).
    + right. left. reflexivity.
    + reflexivity.
Defined.

(** X10: on tracks of distinct identifiers, a retry leaves the track of
    the identifier given as its pipeline settles, COMPLETED with the result
    or in ERROR with the message, and leaves every other track as it was;
    an identifier of no track changes nothing. *)
Theorem handleRetry_effect :
  forall isolateVocals generateLrcFromAudio i tracks,
  NoDup (map id tracks) ->
  handleRetry isolateVocals generateLrcFromAudio i tracks =
  map (fun t =>
         if JS.eqb (id t) i
         then finalTrack (pipeline isolateVocals generateLrcFromAudio t) t
         else t) tracks.
Proof.
  intros iso gen i tracks H. unfold handleRetry.
  destruct (find (fun t => JS.eqb (id t) i) tracks) as [track|] eqn:F.
  - apply find_some in F as [Hin Hid]. apply eqb_eq in Hid. subst i.
    rewrite runUpdates_pointwise. apply map_ext_in. intros t Ht.
    rewrite filter_own. destruct (JS.eqb (id t) (id track)) eqn:E.
    + apply eqb_eq in E.
      assert (t = track) as -> by (eapply NoDup_ids_eq; eauto).
      apply after_processTrack.
    + reflexivity.
  - rewrite <- (map_id tracks) at 1. apply map_ext_in. intros t Ht.
    now rewrite (find_none _ _ F t Ht).
Qed.

Lemma handleRetry_effect_witness :
  handleRetry failingIsolation steadyGeneration (js "a") batchTracks =
  [ mkTrack (js "a") (js "a.mp3") (js "AAAA") (js "audio/mpeg") []
            true ERROR None (Some (js "decode failed"));
    sampleTrack "b" false PENDING None;
    sampleTrack "c" false COMPLETED (Some (js "[00:02.00] done")) ].
Proof.
  rewrite (handleRetry_effect failingIsolation steadyGeneration (js "a")
             batchTracks batchTracks_ids).
  reflexivity.
Defined.

End SessionLaws.

Module GeminiReplies.
Import Gemini ApiKey JSFacts GeminiFacts.

Lemma dropPrefix_app : forall p r, dropPrefix p (p ++ r) = Some r.
Proof.
  induction p as [|a p IH]; intros r; cbn; [reflexivity|].
  now rewrite N.eqb_refl.
Qed.

Lemma replacePrefix_app : forall p r, replacePrefix p (p ++ r) = r.
Proof. intros p r. unfold replacePrefix. now rewrite dropPrefix_app. Qed.

Lemma replaceSuffix_app : forall p r, replaceSuffix p (r ++ p) = r.
Proof.
  intros p r. unfold replaceSuffix.
  now rewrite rev_app_distr, dropPrefix_app, rev_involutive.
Qed.

Lemma startsWith_app : forall p q s,
  startsWith s (p ++ q) = true -> startsWith s p = true.
Proof.
  intros p q s H. apply startsWith_spec in H as [r ->].
  apply startsWith_spec. exists (q ++ r). now rewrite app_assoc.
Qed.

(** X11: the text of a reply is trimmed, a fence of three backquotes that
    opens it, with or without the word lrc, is taken off together with the
    fence that closes it, and what is left is trimmed again; a reply that
    opens with no fence is only trimmed. *)
Theorem cleanUp_unwraps : forall text,
  (forall body, trim text = fenceLrc ++ body ++ fence ->
                cleanUp text = trim body) /\
  (forall body, trim text = fence ++ body ++ fence ->
                startsWith (trim text) fenceLrc = false ->
                cleanUp text = trim body) /\
  (startsWith (trim text) fence = false -> cleanUp text = trim text).
Proof.
  intros text. unfold cleanUp. cbv zeta. split; [|split].
  - intros body E. rewrite E.
    assert (S : startsWith (fenceLrc ++ body ++ fence) fenceLrc = true)
      by (apply startsWith_spec; eauto).
    rewrite S, replacePrefix_app, replaceSuffix_app. reflexivity.
  - intros body E F. rewrite F. rewrite E.
    assert (S : startsWith (fence ++ body ++ fence) fence = true)
      by (apply startsWith_spec; eauto).
    rewrite S, replacePrefix_app, replaceSuffix_app. reflexivity.
  - intros F.
    assert (G : startsWith (trim text) fenceLrc = false).
    { destruct (startsWith (trim text) fenceLrc) eqn:G; [|reflexivity].
      apply startsWith_app in G. congruence. }
    rewrite G, F. apply trim_idem.
Qed.

Section Success.

Variable call : nat -> attemptResult.
Variable random : nat -> Q.
Variable n : nat.
Variable errs : nat -> ApiError.
Variable text : jsstring.
Hypothesis n_bound : (n <= MAX_RETRIES)%nat.
Hypothesis caught :
  forall j, (j < n)%nat -> attemptBody (call j) = inr (errs j).
Hypothesis retried : forall j, (j < n)%nat -> isTerminal (errs j) = false.
Hypothesis answered : attemptBody (call n) = inl text.

Lemma attemptLoop_succeeds : forall k remaining attempt lastError waited,
  (attempt + k = n)%nat ->
  (remaining + attempt = S MAX_RETRIES)%nat ->
  attemptLoop call random remaining attempt lastError waited =
    {| outcome := Returned text; requests := S n;
       delays := waited ++ map (delayOf random) (seq attempt k) |}.
Proof.
  induction k as [|k IH]; intros remaining attempt lastError waited Hk Hr.
  - assert (attempt = n) by lia. subst attempt.
    destruct remaining as [|remaining]; [lia|].
    cbn [attemptLoop]. rewrite answered. cbn [seq map].
    now rewrite app_nil_r.
  - destruct remaining as [|remaining]; [lia|].
    cbn [attemptLoop]. rewrite caught by lia.
    assert (E : (attempt =? MAX_RETRIES)%nat || isTerminal (errs attempt)
                = false).
    { rewrite retried by lia.
      replace (attempt =? MAX_RETRIES)%nat with false; [reflexivity|].
      symmetry. apply Nat.eqb_neq. lia. }
    rewrite E. rewrite IH by lia. cbn [seq map].
    now rewrite <- app_assoc.
Qed.

End Success.

(** X12: when the attempts 0 to n-1 fail with errors that are not
    terminal and the attempt n, at most the fourth, brings a text that is
    not empty, the call returns that text cleaned up, after n+1 requests and
    the n delays of the failed attempts. *)
Theorem success_after_retries : forall call random n errs c t apiKey,
  (n <= MAX_RETRIES)%nat ->
  (forall j, (j < n)%nat -> attemptBody (call j) = inr (errs j)) ->
  (forall j, (j < n)%nat -> isTerminal (errs j) = false) ->
  call n = Response (Some (c :: t)) ->
  truthy apiKey = true ->
  generateLrcFromAudio call random apiKey =
    {| outcome := Returned (cleanUp (c :: t)); requests := S n;
       delays := map (delayOf random) (seq 0 n) |}.
Proof.
  intros call random n errs c t apiKey Hn Hc Hr Ha Hkey.
  unfold generateLrcFromAudio. rewrite Hkey.
  rewrite (attemptLoop_succeeds call random n errs (cleanUp (c :: t))
             Hn Hc Hr) with (k := n) by (rewrite ?Ha; reflexivity || lia).
  reflexivity.
Qed.

Lemma success_after_retries_witness :
  generateLrcFromAudio
    (fun j => match j with
              | O | 1%nat => Failure rateLimited
              | _ => Response (Some (fenceLrc ++ js "[00:01.00] la" ++ fence))
              end)
    (fun _ => 1 # 2) (Some (js "key")) =
    {| outcome := Returned (js "[00:01.00] la"); requests := 3;
       delays := map (delayOf (fun _ => 1 # 2)) (seq 0 2) |}.
Proof.
  apply (success_after_retries
           (fun j => match j with
              | O | 1%nat => Failure rateLimited
              | _ => Response (Some (fenceLrc ++ js "[00:01.00] la" ++ fence))
              end)
           (fun _ => 1 # 2) 2 (fun _ => rateLimited) 96
           (tl (fenceLrc ++ js "[00:01.00] la" ++ fence))
           (Some (js "key"))).
  - unfold MAX_RETRIES. lia.
  - intros [|[|j]] H; [reflexivity | reflexivity | lia].
  - intros j _. reflexivity.
  - reflexivity.
  - reflexivity.
Defined.

Lemma attemptLoop_counts : forall call random remaining attempt lastError waited,
  (remaining + attempt = S MAX_RETRIES)%nat -> (0 < remaining)%nat ->
  exists n, (attempt <= n <= MAX_RETRIES)%nat /\
    requests (attemptLoop call random remaining attempt lastError waited)
      = S n /\
    delays (attemptLoop call random remaining attempt lastError waited)
      = waited ++ map (delayOf random) (seq attempt (n - attempt)).
Proof.
  intros call random. induction remaining as [|remaining IH];
    intros attempt lastError waited Hr Hp; [lia|].
  cbn [attemptLoop]. destruct (attemptBody (call attempt)) as [text|e].
  - exists attempt. cbn [requests delays]. split; [lia|].
    split; [reflexivity|]. rewrite Nat.sub_diag. cbn. now rewrite app_nil_r.
  - destruct ((attempt =? MAX_RETRIES)%nat || isTerminal e) eqn:E.
    + exists attempt. cbn [requests delays]. split; [lia|].
      split; [reflexivity|]. rewrite Nat.sub_diag. cbn.
      now rewrite app_nil_r.
    + apply orb_false_iff in E as [E _]. apply Nat.eqb_neq in E.
      destruct (IH (S attempt) (Some e) (waited ++ [delayOf random attempt]))
        as [n [Hn [Hq Hd]]]; [lia | lia |].
      exists n. split; [lia|]. split; [exact Hq|]. rewrite Hd.
      replace (n - attempt)%nat with (S (n - S attempt)) by lia.
      cbn [seq map]. now rewrite <- app_assoc.
Qed.

Lemma requests_none : forall call random apiKey,
  requests (generateLrcFromAudio call random apiKey) = O <->
  truthy apiKey = false.
Proof.
  intros call random apiKey. unfold generateLrcFromAudio.
  destruct (truthy apiKey).
  - destruct (attemptLoop_counts call random (S MAX_RETRIES) 0 None [])
      as [n [_ [Hq _]]]; [lia | lia |].
    rewrite Hq. split; discriminate.
  - cbn. now split.
Qed.

(** X13: whatever the service answers, a call with a key makes between
    one and four requests and waits once between two requests, the delay of
    the attempt that failed, and never after the last; a call without a key
    makes no request and waits for nothing. *)
Theorem requests_and_delays : forall call random apiKey,
  if truthy apiKey
  then exists n, (n <= MAX_RETRIES)%nat /\
         requests (generateLrcFromAudio call random apiKey) = S n /\
         delays (generateLrcFromAudio call random apiKey) =
           map (delayOf random) (seq 0 n)
  else requests (generateLrcFromAudio call random apiKey) = O /\
       delays (generateLrcFromAudio call random apiKey) = [] /\
       exists e, outcome (generateLrcFromAudio call random apiKey) = Thrown e.
Proof.
  intros call random apiKey. unfold generateLrcFromAudio.
  destruct (truthy apiKey).
  - destruct (attemptLoop_counts call random (S MAX_RETRIES) 0 None [])
      as [n [Hn [Hq Hd]]]; [lia | lia |].
    exists n. split; [lia|]. split; [exact Hq|].
    rewrite Hd, Nat.sub_0_r. reflexivity.
  - cbn. split; [reflexivity|]. split; [reflexivity|]. eauto.
Qed.

(** X14: the key of a call is the manual key saved, trimmed, when it is
    not blank, and the key of the environment otherwise: saving a blank key
    removes the stored one.  The call is made without any request exactly
    when the manual key is blank and the environment has no key. *)
Theorem manual_key_governs : forall call random manualKey env,
  getApiKey (saveManualKey manualKey) env =
    match trim manualKey with
    | [] => env
    | c :: k => Some (c :: k)
    end /\
  (requests (generateLrcFromAudio call random
               (getApiKey (saveManualKey manualKey) env)) = O <->
   trim manualKey = [] /\ truthy env = false).
Proof.
  intros call random manualKey env.
  assert (K : getApiKey (saveManualKey manualKey) env =
              match trim manualKey with
              | [] => env
              | c :: k => Some (c :: k)
              end).
  { unfold getApiKey, saveManualKey. now destruct (trim manualKey). }
  split; [exact K|].
  rewrite requests_none, K. destruct (trim manualKey) as [|c k].
  - split; [now split | now intros [_ F]].
  - cbn [truthy]. split; [discriminate | intros [F _]; discriminate].
Qed.

End GeminiReplies.

Module EditorFacts.
Import Double Lrc Editor JSFacts DoubleFacts TimeFacts LrcFacts LrcRoundTrip.

Lemma editAt_Some : forall f lines index x,
  nth_error lines index = Some x ->
  editAt index f lines =
  Some (firstn index lines ++ f x :: skipn (S index) lines).
Proof.
  intros f. induction lines as [|l lines IH]; intros [|index] x H;
    cbn in H; try discriminate.
  - injection H as ->. reflexivity.
  - cbn [editAt]. rewrite (IH index x H). reflexivity.
Qed.

Lemma editAt_None : forall f lines index,
  nth_error lines index = None -> editAt index f lines = None.
Proof.
  intros f. induction lines as [|l lines IH]; intros [|index] H;
    cbn in H; try discriminate; try reflexivity.
  cbn [editAt]. now rewrite (IH index H).
Qed.

Lemma nth_error_split : forall {A} (l : list A) index x,
  nth_error l index = Some x ->
  l = firstn index l ++ x :: skipn (S index) l.
Proof.
  induction l as [|a l IH]; intros [|index] x H; cbn in H; try discriminate.
  - now injection H as ->.
  - cbn [firstn skipn app]. f_equal. now apply IH.
Qed.

Lemma headerOf_fits : forall title artist,
  Forall (fun c => c <> 10) title -> Forall (fun c => c <> 10) artist ->
  headerFits (headerOf title artist).
Proof.
  intros title artist Ht Ha. cbn. split; intros s E; now injection E as <-.
Qed.

Lemma Forall_edit : forall {A} (P : A -> Prop) l index y,
  Forall P l -> P y ->
  Forall P (firstn index l ++ y :: skipn (S index) l).
Proof.
  intros A P l index y Hl Hy.
  pose proof Hl as H1. rewrite <- (firstn_skipn index l) in H1.
  apply Forall_app in H1 as [H1 _].
  pose proof Hl as H2. rewrite <- (firstn_skipn (S index) l) in H2.
  apply Forall_app in H2 as [_ H2].
  apply Forall_app. split; [exact H1 | now constructor].
Qed.

Lemma max0_double : forall v, isDouble v -> isDouble (max0 v) /\ (0 <= max0 v)%Q.
Proof.
  intros v D. unfold max0. destruct (Qle_bool v 0) eqn:E.
  - split; [apply isDouble_0 | apply Qle_refl].
  - split; [exact D|]. apply Qlt_le_weak, Qnot_le_lt. intros C.
    apply Qle_bool_iff in C. congruence.
Qed.

Lemma parsed_both : forall content,
  (forall l, In l (parseLrc content) -> (seconds l < 6000)%Q) ->
  Forall (fun l => fitsLine l /\ wellFormed l) (parseLrc content).
Proof.
  intros content H. pose proof (parsed_fits content H) as F.
  rewrite Forall_forall in *. intros l Hl. split; [now apply F|].
  now apply (parseLrc_wellFormed content).
Qed.

Lemma readBack_sameAt2 : forall L,
  Forall (fun l => fitsLine l /\ wellFormed l) L ->
  Forall2 sameAt2 (map readBack L) L.
Proof.
  intros L H. now apply views_sameAt2.
Qed.

(** X15: an adjustment of the time of a line of the editor writes a
    document that reads back as the lines of the editor with that one time
    moved: the sum of the time and the delta, rounded to a double, or zero
    where that is not positive.  Each line is printed and read, in the order
    of a stable sort by time: the line moved takes the place of its new
    time.  What is read of a line has its text, its hundredths, and a time
    within half a hundredth of its time.  An index past the last line
    throws. *)
Theorem adjustTimestamp_reads_back :
  forall content title artist index delta,
  (forall l, In l (parseLrc content) -> (seconds l < 6000)%Q) ->
  Forall (fun c => c <> 10) title -> Forall (fun c => c <> 10) artist ->
  match nth_error (parseLrc content) index with
  | Some x =>
      let t := rnd (seconds x + delta) in
      let moved := {| id := id x;
                      seconds := if Qle_bool t 0 then 0%Q else t;
                      text := text x |} in
      (seconds moved < 6000)%Q ->
      let newLines := firstn index (parseLrc content) ++
                      moved :: skipn (S index) (parseLrc content) in
      exists newContent,
        adjustTimestamp (parseLrc content) title artist index delta
          = Some newContent /\
        map view (parseLrc newContent) =
          map view (sort (map readBack newLines)) /\
        Forall2 sameAt2 (map readBack newLines) newLines
  | None =>
      adjustTimestamp (parseLrc content) title artist index delta = None
  end.
Proof.
  intros content title artist index delta Hb Ht Ha.
  destruct (nth_error (parseLrc content) index) as [x|] eqn:E.
  - intros t moved Hd newLines.
    assert (EM : shifted delta x = moved) by reflexivity.
    unfold adjustTimestamp.
    rewrite (editAt_Some _ _ _ _ E), EM. fold newLines.
    assert (HB : Forall (fun l => fitsLine l /\ wellFormed l) newLines).
    { apply Forall_edit; [now apply parsed_both|].
      pose proof (parsed_both content Hb) as P. rewrite Forall_forall in P.
      destruct (P x (nth_error_In _ _ E)) as [[_ [_ [_ Hc]]] W].
      destruct (max0_double (fadd (seconds x) delta) (isDouble_rnd _))
        as [D X0].
      split; [|exact W]. split; [exact D|]. split; [exact X0|].
      split; [exact Hd | exact Hc]. }
    eexists. split; [reflexivity|]. split.
    + apply stringify_reads_back; [|now apply headerOf_fits].
      eapply Forall_impl; [|exact HB]. cbv beta. intros l [F _]. exact F.
    + now apply readBack_sameAt2.
  - unfold adjustTimestamp. now rewrite (editAt_None _ _ _ E).
Qed.

Lemma oneLine_parsed :
  parseLrc oneLine =
  [ {| id := 0; seconds := 4075757662770299 # 4503599627370496;
       text := js "la" |} ].
Proof. vm_compute. reflexivity. Qed.

Lemma oneLine_short : forall l,
  In l (parseLrc oneLine) -> (seconds l < 6000)%Q.
Proof.
  rewrite oneLine_parsed. intros l [<-|[]]. reflexivity.
Qed.

Lemma twoLines_parsed :
  parseLrc twoLines =
  [ {| id := 1; seconds := 5; text := js "line two" |};
    {| id := 0; seconds := 25 # 2; text := js "line one" |} ].
Proof. vm_compute. reflexivity. Qed.

Lemma twoLines_short : forall l,
  In l (parseLrc twoLines) -> (seconds l < 6000)%Q.
Proof.
  rewrite twoLines_parsed. intros l [<-|[<-|[]]]; reflexivity.
Qed.

Lemma plain_title : Forall (fun c => c <> 10) (js "Song").
Proof. repeat constructor; discriminate. Qed.

Lemma plain_artist : Forall (fun c => c <> 10) (js "Band").
Proof. repeat constructor; discriminate. Qed.

(** A tenth more on the line at 0.905 seconds gives the double
    1.0050000000000001, which is written 01.01 and read back as the double
    1.01. *)
Lemma adjustTimestamp_reads_back_witness :
  exists newContent,
    adjustTimestamp (parseLrc oneLine) (js "Song") (js "Band") 0 tenth
      = Some newContent /\
    newContent =
      js "[ti:Song]" ++ LF ++ js "[ar:Band]" ++ LF ++ js "[00:01.01] la" /\
    map view (parseLrc newContent) =
      [(4548635623644201 # 4503599627370496, js "la")]%Q.
Proof.
  pose proof (adjustTimestamp_reads_back oneLine (js "Song") (js "Band") 0
                tenth oneLine_short plain_title plain_artist) as H.
  rewrite oneLine_parsed in H. cbn [nth_error] in H. cbv zeta in H.
  lapply H; [clear H; intros H | vm_compute; reflexivity].
  destruct H as [newContent [H1 [H2 _]]].
  exists newContent. rewrite oneLine_parsed. split; [exact H1|]. split.
  - vm_compute in H1. injection H1 as <-. vm_compute. reflexivity.
  - rewrite H2. vm_compute. reflexivity.
Defined.

Lemma le_seconds_map : forall X,
  StronglySorted le_seconds X <-> StronglySorted Qle (map seconds X).
Proof.
  induction X as [|x X IH]; cbn [map].
  - split; constructor.
  - split; intros H; inversion H as [|? ? Hs Hx]; subst; constructor;
      try (now apply IH); rewrite Forall_forall in *.
    + intros t Ht. apply in_map_iff in Ht as [y [<- Hy]]. now apply Hx.
    + intros y Hy. apply Hx. now apply in_map.
Qed.

(** X16: an edit of the text of a line of the editor writes a document
    that reads back as the lines of the editor in the same order, with that
    one text replaced by the new text trimmed, and each time printed and
    read: with the same hundredths, within half a hundredth of the time of
    the line.  An index past the last line throws. *)
Theorem updateLineText_reads_back :
  forall content title artist index newText,
  (forall l, In l (parseLrc content) -> (seconds l < 6000)%Q) ->
  Forall (fun c => isLineTerminator c = false) newText ->
  Forall (fun c => c <> 10) title -> Forall (fun c => c <> 10) artist ->
  match nth_error (parseLrc content) index with
  | Some x =>
      exists newContent,
        updateLineText (parseLrc content) title artist index newText
          = Some newContent /\
        map view (parseLrc newContent) =
          map (fun l => (reread (seconds l), text l))
              (firstn index (parseLrc content)) ++
          (reread (seconds x), trim newText) ::
          map (fun l => (reread (seconds l), text l))
              (skipn (S index) (parseLrc content)) /\
        Forall2 sameAt2 (parseLrc newContent)
          (firstn index (parseLrc content) ++
           retexted (trim newText) x ::
           skipn (S index) (parseLrc content))
  | None =>
      updateLineText (parseLrc content) title artist index newText = None
  end.
Proof.
  intros content title artist index newText Hb Hn Ht Ha.
  destruct (nth_error (parseLrc content) index) as [x|] eqn:E.
  - unfold updateLineText. rewrite (editAt_Some _ _ _ _ E).
    eexists. split; [reflexivity|].
    set (L := parseLrc content) in *.
    set (newLines := firstn index L ++ retexted newText x :: skipn (S index) L).
    set (B := firstn index L ++ retexted (trim newText) x :: skipn (S index) L).
    pose proof (parsed_both content Hb) as P. fold L in P.
    assert (Px : fitsLine x /\ wellFormed x).
    { rewrite Forall_forall in P. apply P. exact (nth_error_In _ _ E). }
    destruct Px as [[Dx [X0 [X1 _]]] _].
    assert (HF : Forall fitsLine newLines).
    { apply Forall_edit.
      - eapply Forall_impl; [|exact P]. cbv beta. intros l [F _]. exact F.
      - split; [exact Dx|]. split; [exact X0|]. split; [exact X1 | exact Hn]. }
    assert (HB : Forall (fun l => fitsLine l /\ wellFormed l) B).
    { apply Forall_edit; [exact P|]. split.
      - split; [exact Dx|]. split; [exact X0|]. split; [exact X1|].
        cbn [retexted text]. now apply trim_Forall.
      - split; cbn [retexted text]; [apply trim_idem | now apply trim_Forall]. }
    assert (HV : map view (map readBack newLines) = map view (map readBack B)).
    { unfold newLines, B. rewrite !map_app. cbn [map]. f_equal. f_equal.
      unfold view, readBack, retexted. cbn [seconds text].
      now rewrite trim_idem. }
    assert (HS : map seconds newLines = map seconds L).
    { unfold newLines. rewrite (nth_error_split L index x E) at 3.
      rewrite !map_app. reflexivity. }
    assert (HA : map view (parseLrc (stringifyLrc newLines (headerOf title artist)))
                 = map view (map readBack newLines)).
    { rewrite (stringify_reads_back newLines _ HF
                 (headerOf_fits title artist Ht Ha)).
      rewrite sort_sorted_id; [reflexivity | apply readBack_doubles |].
      apply readBack_sorted; [exact HF|].
      apply le_seconds_map. rewrite HS. apply le_seconds_map.
      apply parseLrc_sorted. }
    split.
    + rewrite HA. unfold newLines. rewrite !map_app. cbn [map].
      rewrite !map_map.
      assert (R : forall l, In l L ->
                  view (readBack l) = (reread (seconds l), text l)).
      { intros l Hl. rewrite Forall_forall in P.
        destruct (P l Hl) as [_ [W _]].
        unfold view, readBack. cbn [seconds text]. now rewrite W. }
      f_equal; [|f_equal].
      * apply map_ext_in. intros l Hl. apply R.
        rewrite <- (firstn_skipn index L). apply in_or_app. now left.
      * apply map_ext_in. intros l Hl. apply R.
        rewrite <- (firstn_skipn (S index) L). apply in_or_app. now right.
    + apply views_sameAt2; [|exact HB]. now rewrite HA.
  - unfold updateLineText. now rewrite (editAt_None _ _ _ E).
Qed.

Lemma updateLineText_reads_back_witness :
  exists newContent,
    updateLineText (parseLrc twoLines) (js "Song") (js "Band")
                   1 (js "  la la ") = Some newContent /\
    map view (parseLrc newContent) =
      [(5, js "line two"); (25 # 2, js "la la")]%Q.
Proof.
  assert (Hn : Forall (fun c => isLineTerminator c = false) (js "  la la "))
    by (repeat constructor).
  pose proof (updateLineText_reads_back twoLines (js "Song")
                (js "Band") 1 (js "  la la ") twoLines_short Hn
                plain_title plain_artist) as H.
  rewrite twoLines_parsed in H. cbn [nth_error] in H.
  destruct H as [newContent [H1 [H2 _]]].
  exists newContent. rewrite twoLines_parsed. split; [exact H1|].
  rewrite H2. vm_compute. reflexivity.
Defined.

Lemma reached_later : forall t a b,
  le_seconds a b -> reached t a = false -> reached t b = false.
Proof.
  intros t a b Hab Ha. unfold reached, le_seconds in *.
  destruct (Qle_bool (seconds b) t) eqn:E; [|reflexivity].
  apply Qle_bool_iff in E.
  assert (F : Qle_bool (seconds a) t = true).
  { apply Qle_bool_iff. eapply Qle_trans; [exact Hab | exact E]. }
  congruence.
Qed.

Lemma activeFrom_sorted : forall t lines i,
  StronglySorted le_seconds lines ->
  activeFrom t i (i - 1)%Z lines =
  (i - 1 + Z.of_nat (length (filter (reached t) lines)))%Z.
Proof.
  intros t. induction lines as [|l lines IH]; intros i H; cbn [activeFrom filter].
  - cbn. lia.
  - inversion H as [|? ? Hs Hl]; subst.
    destruct (reached t l) eqn:E.
    + replace i with (i + 1 - 1)%Z at 2 by lia.
      rewrite IH by assumption. cbn [length]. lia.
    + assert (F : filter (reached t) lines = []).
      { clear - Hl E. induction Hl as [|b lines Hb _ IH]; [reflexivity|].
        cbn [filter]. now rewrite (reached_later t l b Hb E). }
      rewrite F. cbn. lia.
Qed.

(** X17: the active line of the editor is the last line whose time the
    player has reached: its index is the number of lines reached, less one,
    which is -1 before the first line. *)
Theorem activeIndex_counts_reached : forall currentTime content,
  activeIndex currentTime (parseLrc content) =
  (Z.of_nat (length (filter (fun l => Qle_bool (seconds l) currentTime)
                            (parseLrc content))) - 1)%Z.
Proof.
  intros t content. unfold activeIndex.
  change (-1)%Z with (0 - 1)%Z.
  rewrite activeFrom_sorted by apply parseLrc_sorted.
  change (reached t) with (fun l => Qle_bool (seconds l) t). lia.
Qed.

(** At 68.21 seconds the player has reached the line written 00:68.21
    and not the line written 01:08.21, whose time is the double above. *)
Lemma activeIndex_counts_reached_witness :
  activeIndex (4799852040358461 # 70368744177664) (parseLrc skewedLines) = 0%Z /\
  activeIndex (2399926020179231 # 35184372088832) (parseLrc skewedLines) = 1%Z /\
  activeIndex 68 (parseLrc skewedLines) = (-1)%Z.
Proof.
  rewrite !activeIndex_counts_reached. vm_compute. repeat split.
Defined.

Lemma tagAt_other : forall l1 l2 c s,
  c <> 91 -> Bulk.tagAt l1 l2 (c :: s) = None.
Proof.
  intros l1 l2 c s H. unfold Bulk.tagAt.
  destruct s as [|a [|b [|colon rest]]]; try reflexivity.
  apply N.eqb_neq in H. now rewrite H.
Qed.

Lemma matchTag_skip : forall l1 l2 pre s,
  Forall (fun c => c <> 91) pre ->
  Bulk.matchTag l1 l2 (pre ++ s) = Bulk.matchTag l1 l2 s.
Proof.
  intros l1 l2 pre s H. induction H as [|c pre Hc _ IH]; [reflexivity|].
  cbn [app]. destruct s; cbn [Bulk.matchTag];
    rewrite (tagAt_other l1 l2 c _ Hc); exact IH.
Qed.

Lemma lazyGroup_plain : forall g rest,
  Forall (fun c => c <> 91 /\ c <> 93 /\ isLineTerminator c = false) g ->
  Bulk.lazyGroup (g ++ 93 :: rest) = Some g.
Proof.
  intros g rest H. induction H as [|c g [_ [Hc Hl]] _ IH]; [reflexivity|].
  cbn [app Bulk.lazyGroup]. apply N.eqb_neq in Hc. now rewrite Hc, Hl, IH.
Qed.

Lemma matchTag_here : forall l1 l2 a b g rest,
  Bulk.letterEq l1 a = true -> Bulk.letterEq l2 b = true ->
  Forall (fun c => c <> 91 /\ c <> 93 /\ isLineTerminator c = false) g ->
  Bulk.matchTag l1 l2 ([91; a; b; 58] ++ g ++ 93 :: rest) = Some g.
Proof.
  intros l1 l2 a b g rest Ha Hb Hg.
  assert (T : Bulk.tagAt l1 l2 ([91; a; b; 58] ++ g ++ 93 :: rest) = Some g).
  { cbn [app Bulk.tagAt]. rewrite Ha, Hb. cbn [N.eqb Pos.eqb andb].
    now apply lazyGroup_plain. }
  cbn [app] in *. cbn [Bulk.matchTag]. now rewrite T.
Qed.

(** X18: a title and an artist that are not empty and hold no bracket and
    no line terminator are found again, trimmed, in any document written
    with them as its header, whatever its lines. *)
Theorem extractMetadata_reads_header : forall lines title artist,
  plainField title -> plainField artist ->
  extractMetadata (stringifyLrc lines (headerOf title artist)) =
  (trim title, trim artist).
Proof.
  intros lines title artist [Ht Pt] [Ha Pa].
  set (body := join (map formatLine lines) LF).
  assert (D : stringifyLrc lines (headerOf title artist) =
              [91; 116; 105; 58] ++ title ++
              93 :: 10 :: ([91; 97; 114; 58] ++ artist ++ 93 :: 10 :: body)).
  { unfold stringifyLrc, header, headerOf. fold body.
    cbn [Filename.title Filename.artist].
    destruct title as [|t0 title]; [now elim Ht|].
    destruct artist as [|a0 artist]; [now elim Ha|].
    cbn [truthy].
    change (js "[ti:") with [91; 116; 105; 58].
    change (js "[ar:") with [91; 97; 114; 58].
    change (js "]") with [93]. unfold LF.
    repeat rewrite <- app_assoc. reflexivity. }
  rewrite D. unfold extractMetadata.
  rewrite matchTag_here by (reflexivity || exact Pt).
  replace ([91; 116; 105; 58] ++ title ++
           93 :: 10 :: ([91; 97; 114; 58] ++ artist ++ 93 :: 10 :: body))
    with (91 :: (([116; 105; 58] ++ title ++ [93; 10]) ++
                 ([91; 97; 114; 58] ++ artist ++ 93 :: 10 :: body)))
    by (cbn [app]; repeat rewrite <- app_assoc; reflexivity).
  assert (T : forall s, Bulk.tagAt 97 114 (91 :: ([116; 105; 58] ++ title ++ [93; 10]) ++ s) = None)
    by (intros s; reflexivity).
  assert (M : forall s, Bulk.matchTag 97 114 (91 :: s) =
                        match Bulk.tagAt 97 114 (91 :: s) with
                        | Some g => Some g
                        | None => Bulk.matchTag 97 114 s
                        end) by reflexivity.
  rewrite M, T, matchTag_skip.
  - rewrite matchTag_here by (reflexivity || exact Pa). reflexivity.
  - apply Forall_app. split; [repeat constructor; discriminate|].
    apply Forall_app. split.
    + eapply Forall_impl; [|exact Pt]. intros c [H _]. exact H.
    + repeat constructor; discriminate.
Qed.

Lemma extractMetadata_reads_header_witness :
  extractMetadata
    (stringifyLrc (parseLrc twoLines)
                  (headerOf (js " My Song") (js "The Band "))) =
  (js "My Song", js "The Band").
Proof.
  rewrite (extractMetadata_reads_header (parseLrc twoLines)
             (js " My Song") (js "The Band ")).
  - reflexivity.
  - split; [discriminate|]. repeat constructor; discriminate.
  - split; [discriminate|]. repeat constructor; discriminate.
Defined.

End EditorFacts.


Module IntakeFacts.
Import Intake JSFacts.

Lemma validateLoop_spec : forall files valid error,
  fst (validateLoop files valid error) = valid ++ filter acceptable files /\
  (Forall (fun f => acceptable f = true) files ->
   snd (validateLoop files valid error) = error) /\
  (Exists (fun f => acceptable f = false) files ->
   exists e, snd (validateLoop files valid error) = Some e).
Proof.
  induction files as [|file rest IH]; intros valid error.
  - cbn. rewrite app_nil_r. split; [reflexivity|]. split; [reflexivity|].
    intros H. inversion H.
  - cbn [validateLoop filter]. unfold acceptable at 1 3 4.
    destruct (startsWith (type file) (js "audio/")) eqn:T; cbn [negb andb].
    + rewrite N.ltb_antisym.
      destruct (size file <=? maxSize) eqn:Z; cbn [negb].
      * destruct (IH (valid ++ [file]) error) as [H1 [H2 H3]].
        rewrite H1, <- app_assoc. split; [reflexivity|]. split.
        -- intros H. inversion H; subst. now apply H2.
        -- intros H. inversion H as [? ? Hx|? ? Hx]; subst.
           ++ unfold acceptable in Hx. rewrite T, Z in Hx. discriminate.
           ++ now apply H3.
      * destruct (IH valid (Some (TooLarge (name file)))) as [H1 [H2 H3]].
        split; [exact H1|]. split.
        -- intros H. inversion H as [|? ? Hx]; subst.
           unfold acceptable in Hx. rewrite T, Z in Hx. discriminate.
        -- intros _.
           destruct (Exists_dec (fun f => acceptable f = false) rest) as [E|E].
           ++ intros f. destruct (acceptable f); [right|left]; congruence.
           ++ now apply H3.
           ++ exists (TooLarge (name file)). apply H2.
              apply Forall_forall. intros f Hf.
              destruct (acceptable f) eqn:A; [reflexivity|].
              exfalso. apply E. apply Exists_exists. eauto.
    + destruct (IH valid (Some SkippedInvalid)) as [H1 [H2 H3]].
      split; [exact H1|]. split.
      * intros H. inversion H as [|? ? Hx]; subst.
        unfold acceptable in Hx. rewrite T in Hx. discriminate.
      * intros _.
        destruct (Exists_dec (fun f => acceptable f = false) rest) as [E|E].
        -- intros f. destruct (acceptable f); [right|left]; congruence.
        -- now apply H3.
        -- exists SkippedInvalid. apply H2.
           apply Forall_forall. intros f Hf.
           destruct (acceptable f) eqn:A; [reflexivity|].
           exfalso. apply E. apply Exists_exists. eauto.
Qed.

Lemma addLoop_spec : forall files valid alerts,
  addLoop files valid alerts =
  (valid ++ filter acceptable files,
   alerts ++ map name (filter (fun f => negb (acceptable f)) files)).
Proof.
  induction files as [|file rest IH]; intros valid alerts.
  - cbn. now rewrite !app_nil_r.
  - cbn [addLoop filter]. fold (acceptable file).
    destruct (acceptable file); cbn [negb map]; rewrite IH, <- app_assoc;
      reflexivity.
Qed.

(** X19: the two places where audio files are taken in hand on exactly
    the same files, in the order given: those whose type begins with
    audio/ and whose size is at most 15 MB; neither hands on an empty
    list.  The first shows an error exactly when a file was left out; the
    second alerts the name of each file left out. *)
Theorem intake_accepts_same_files : forall files,
  fst (validateAndProcessFiles files) = fst (handleAddAudio files) /\
  fst (validateAndProcessFiles files) =
    match filter acceptable files with
    | [] => None
    | f :: valid => Some (f :: valid)
    end /\
  (snd (validateAndProcessFiles files) = None <->
   Forall (fun f => acceptable f = true) files) /\
  snd (handleAddAudio files) =
    map name (filter (fun f => negb (acceptable f)) files).
Proof.
  intros files.
  assert (V : fst (validateAndProcessFiles files) =
              match filter acceptable files with
              | [] => None
              | f :: valid => Some (f :: valid)
              end).
  { unfold validateAndProcessFiles.
    destruct (validateLoop_spec files [] None) as [H _].
    destruct (validateLoop files [] None) as [v e]. cbn [fst] in *.
    rewrite H. now destruct (filter acceptable files). }
  assert (A : handleAddAudio files =
              (match filter acceptable files with
               | [] => None
               | f :: valid => Some (f :: valid)
               end,
               map name (filter (fun f => negb (acceptable f)) files))).
  { unfold handleAddAudio. destruct files as [|file rest]; [reflexivity|].
    rewrite addLoop_spec. cbn [app]. now destruct (filter acceptable _). }
  split; [now rewrite V, A|]. split; [exact V|]. split.
  - unfold validateAndProcessFiles.
    destruct (validateLoop_spec files [] None) as [_ [H2 H3]].
    destruct (validateLoop files [] None) as [v e]. cbn [snd] in *. split.
    + intros ->. apply Forall_forall. intros f Hf.
      destruct (acceptable f) eqn:E; [reflexivity|].
      destruct H3 as [e He]; [apply Exists_exists; eauto | discriminate].
    + exact H2.
  - now rewrite A.
Qed.

End IntakeFacts.
Module ReferenceText.
Import Double Lrc Intake JSFacts LrcRoundTrip.

Lemma timestampAt_other : forall c s, c <> 91 -> timestampAt (c :: s) = None.
Proof.
  intros c s H. unfold timestampAt.
  destruct s as [|m1 [|m2 [|colon [|s1 [|s2 [|dot [|f1 [|f2 rest]]]]]]]];
    try reflexivity.
  apply N.eqb_neq in H. now rewrite H.
Qed.

Lemma stripGo_skip : forall pre s,
  stripGo (length pre) (pre ++ s) = stripGo 0 s.
Proof.
  induction pre as [|c pre IH]; intros s; [reflexivity|].
  cbn [length app]. destruct s as [|d s].
  - rewrite app_nil_r. clear IH. cbn [stripGo].
    induction pre as [|e pre IH]; [reflexivity|]. exact IH.
  - cbn [stripGo]. apply IH.
Qed.

Lemma stripGo_plain : forall s rest,
  Forall (fun c => c <> 91) s -> stripGo 0 (s ++ rest) = s ++ stripGo 0 rest.
Proof.
  intros s rest H. induction H as [|c s Hc _ IH]; [reflexivity|].
  cbn [app stripGo]. rewrite (timestampAt_other c _ Hc). now rewrite IH.
Qed.

Lemma stripGo_stamp : forall m a b rest,
  m < 100 -> a < 100 -> b < 100 ->
  stripGo 0 ([91] ++ twoDigits m ++ [58] ++ twoDigits a ++ [46] ++
             twoDigits b ++ 93 :: rest) = stripGo 0 rest.
Proof.
  intros m a b rest Hm Ha Hb.
  assert (D : forall n, n < 100 ->
    isDigit (48 + n / 10) = true /\ isDigit (48 + n mod 10) = true).
  { intros n Hn. split; apply isDigit_digit;
      [apply N.Div0.div_lt_upper_bound; lia | apply N.mod_lt; lia]. }
  destruct (D m Hm) as [M1 M2], (D a Ha) as [A1 A2], (D b Hb) as [B1 B2].
  unfold twoDigits. cbn [app stripGo timestampAt].
  rewrite M1, M2, A1, A2, B1, B2. cbn [N.eqb Pos.eqb andb].
  replace (isDigit 93) with false by reflexivity. cbn [N.eqb Pos.eqb Nat.sub].
  apply (stripGo_skip [48 + m / 10; 48 + m mod 10; 58; 48 + a / 10;
                       48 + a mod 10; 46; 48 + b / 10; 48 + b mod 10; 93]).
Qed.

Lemma stripGo_line : forall l rest,
  isDouble (seconds l) -> (0 <= seconds l)%Q -> (seconds l < 6000)%Q ->
  Forall (fun c => c <> 91) (text l) ->
  stripGo 0 (formatLine l ++ rest) = (32 :: text l) ++ stripGo 0 rest.
Proof.
  intros l rest D X0 X1 Ht.
  destruct (formatLine_explicit l D X0 X1) as [m [h [Hm [Hh [_ [_ ->]]]]]].
  assert (Ha : h / 100 < 100) by (apply N.Div0.div_lt_upper_bound; lia).
  assert (Hb : h mod 100 < 100) by (apply N.mod_lt; lia).
  repeat rewrite <- app_assoc. cbn [app].
  change (91 :: twoDigits m ++ 58 :: twoDigits (h / 100) ++
          46 :: twoDigits (h mod 100) ++ 93 :: 32 :: text l ++ rest)
    with ([91] ++ twoDigits m ++ [58] ++ twoDigits (h / 100) ++ [46] ++
          twoDigits (h mod 100) ++ 93 :: ((32 :: text l) ++ rest)).
  rewrite stripGo_stamp by assumption.
  apply stripGo_plain. constructor; [discriminate | exact Ht].
Qed.

Lemma stripGo_document : forall lines,
  Forall (fun l => isDouble (seconds l) /\
                   (0 <= seconds l)%Q /\ (seconds l < 6000)%Q /\
                   Forall (fun c => c <> 91) (text l)) lines ->
  stripGo 0 (join (map formatLine lines) LF) =
  join (map (fun l => 32 :: text l) lines) LF.
Proof.
  intros lines H.
  induction H as [|l lines [D [X0 [X1 Ht]]] _ IH]; [reflexivity|].
  destruct lines as [|l' lines].
  - cbn [map join]. rewrite <- (app_nil_r (formatLine l)).
    rewrite stripGo_line by assumption. cbn [stripGo].
    now rewrite app_nil_r.
  - cbn [map] in *.
    rewrite (join_cons (formatLine l)) by discriminate.
    rewrite (join_cons (32 :: text l)) by discriminate.
    rewrite <- IH.
    set (R := join (formatLine l' :: map formatLine lines) LF).
    rewrite stripGo_line by assumption. unfold LF. cbn [app stripGo].
    now rewrite (timestampAt_other 10) by discriminate.
Qed.

(** X20: a document written for lines whose times are doubles below 100
    minutes and not negative and whose texts hold no opening bracket, taken
    as the reference lyrics of a track from a file named .lrc, leaves the
    texts of the lines, one a line, each behind the blank that followed its
    timestamp, the whole trimmed. *)
Theorem reference_text_of_document :
  forall toLowerCase lines fileName,
  endsWith (toLowerCase fileName) (js ".lrc") = true ->
  Forall (fun l => isDouble (seconds l) /\
                   (0 <= seconds l)%Q /\ (seconds l < 6000)%Q /\
                   Forall (fun c => c <> 91) (text l)) lines ->
  handleTextFileUpload toLowerCase fileName (stringifyLrc lines None) =
  trim (join (map (fun l => 32 :: text l) lines) LF).
Proof.
  intros toLowerCase lines fileName He H.
  unfold handleTextFileUpload. rewrite He. unfold stripTimestamps.
  unfold stringifyLrc, header. cbn [app].
  now rewrite stripGo_document.
Qed.

Lemma reference_text_of_document_witness :
  handleTextFileUpload Bulk.asciiLower (js "Song.LRC")
    (stringifyLrc
       [ {| id := 1; seconds := 5; text := js "line two" |};
         {| id := 0; seconds := 25 # 2; text := js "line one" |} ] None) =
  js "line two" ++ LF ++ js " line one".
Proof.
  rewrite (reference_text_of_document Bulk.asciiLower
             [ {| id := 1; seconds := 5; text := js "line two" |};
               {| id := 0; seconds := 25 # 2; text := js "line one" |} ]
             (js "Song.LRC")).
  - reflexivity.
  - reflexivity.
  - repeat constructor; try discriminate; vm_compute; reflexivity.
Defined.

End ReferenceText.

Module Id3Frames.
Import Filename Id3 Id3Layout JSFacts Id3Facts LrcRoundTrip.

(** A text kept by the reader: not empty, trimmed, without NUL. *)
Lemma removeNul_clean : forall s, Forall (fun c => c <> 0) (removeNul s).
Proof.
  intros s. apply Forall_forall. intros c Hc. unfold removeNul in Hc.
  apply filter_In in Hc as [_ Hc]. apply negb_true_iff in Hc.
  now apply N.eqb_neq.
Qed.

Lemma decodeText_clean : forall decode encoding textBytes,
  trim (decodeText decode encoding textBytes) =
    decodeText decode encoding textBytes /\
  Forall (fun c => c <> 0) (decodeText decode encoding textBytes).
Proof.
  intros decode encoding textBytes. unfold decodeText.
  destruct (decode _ textBytes); split;
    try apply trim_idem; apply trim_Forall, removeNul_clean.
Qed.

Lemma frameTurn_text :
  forall decode buffer version size limit offset o' frameId text,
  frameTurn decode buffer version size limit offset =
    Continue o' (Some (frameId, text)) ->
  trim text = text /\ Forall (fun c => c <> 0) text.
Proof.
  intros decode buffer version size limit offset o' frameId text.
  unfold frameTurn.
  destruct (limit <? offset + 10); [discriminate|].
  destruct (getUint8 buffer offset) as [id1|]; [|discriminate].
  destruct (getUint8 buffer (offset + 1)) as [id2|]; [|discriminate].
  destruct (getUint8 buffer (offset + 2)) as [id3|]; [|discriminate].
  destruct (getUint8 buffer (offset + 3)) as [id4|]; [|discriminate].
  destruct (id1 =? 0); [discriminate|].
  destruct (getUint32 buffer (offset + 4)) as [raw|]; [|discriminate].
  destruct (if (version =? 4) && (size <? raw)
            then synchsafe buffer (offset + 4) else Some raw)
    as [frameSize|]; [|discriminate].
  destruct (limit <? offset + 10 + frameSize); [discriminate|].
  destruct (JS.eqb [id1; id2; id3; id4] TIT2 ||
            JS.eqb [id1; id2; id3; id4] TPE1).
  - destruct (getUint8 buffer (offset + 10)) as [encoding|]; [|discriminate].
    destruct (uint8Window buffer (offset + 10 + 1) frameSize) as [textBytes|];
      [|discriminate].
    intros H. injection H as _ _ <-. apply decodeText_clean.
  - discriminate.
Qed.

Lemma record_clean : forall (P : jsstring -> Prop) st frameId text,
  (text <> [] -> P text) ->
  (forall t, id3Title st = Some t -> P t) ->
  (forall a, id3Artist st = Some a -> P a) ->
  (forall t, id3Title (record st frameId text) = Some t -> P t) /\
  (forall a, id3Artist (record st frameId text) = Some a -> P a).
Proof.
  intros P st frameId text Ht H1 H2. unfold record.
  assert (Hn : negb (length text =? 0)%nat = true -> P text).
  { intros E. apply Ht. intros ->. discriminate. }
  destruct (JS.eqb frameId TIT2 && negb (length text =? 0)%nat) eqn:A;
    destruct (JS.eqb frameId TPE1 && negb (length text =? 0)%nat) eqn:B;
    cbn [id3Title id3Artist]; split; intros t E; auto;
    injection E as <-; apply Hn;
    first [ now apply andb_true_iff in A | now apply andb_true_iff in B ].
Qed.

Lemma walk_clean :
  forall decode buffer version size limit fuel offset st st' threw,
  let P := fun t => t <> [] /\ trim t = t /\ Forall (fun c => c <> 0) t in
  walk decode buffer version size limit fuel offset st = Some (st', threw) ->
  (forall t, id3Title st = Some t -> P t) ->
  (forall a, id3Artist st = Some a -> P a) ->
  (forall t, id3Title st' = Some t -> P t) /\
  (forall a, id3Artist st' = Some a -> P a).
Proof.
  intros decode buffer version size limit.
  induction fuel as [|fuel IH]; intros offset st st' threw P; cbn [walk].
  - discriminate.
  - destruct (offset <? limit).
    + destruct (frameTurn decode buffer version size limit offset)
        as [| |o' [[frameId text]|]] eqn:T.
      * intros H. injection H as <- _. auto.
      * intros H. injection H as <- _. auto.
      * intros H H1 H2. apply frameTurn_text in T as [T1 T2].
        apply (IH _ _ _ _ H); apply (record_clean P); auto;
          intros Hne; repeat split; auto.
      * apply IH.
    + intros H. injection H as <- _. auto.
Qed.

Lemma merge_title : forall st name t,
  id3Title st = Some t -> trim t <> [] ->
  title (mergeMetadata st name) = Some t.
Proof.
  intros st name t E Hne. unfold mergeMetadata. cbn [title].
  assert (U : usable (id3Title st) = true) by (apply usable_spec; eauto).
  now rewrite U.
Qed.

Lemma merge_artist : forall st name a,
  id3Artist st = Some a -> trim a <> [] ->
  artist (mergeMetadata st name) = Some a.
Proof.
  intros st name a E Hne. unfold mergeMetadata. cbn [artist].
  assert (U : usable (id3Artist st) = true) by (apply usable_spec; eauto).
  now rewrite U.
Qed.

(** X21: a title or an artist that the reader takes from the tags is not
    empty, is trimmed and holds no NUL, whether the walk of the frames ended
    or threw; so the test of the merge never sets it aside: it is the title
    or the artist of the track, whatever the name of the file. *)
Theorem found_tags_win : forall decode file name,
  exists st threw m,
    readTags decode (slice128k file) = Some (st, threw) /\
    getTrackMetadata decode (Some file) name = Some (Normal m) /\
    (forall t, id3Title st = Some t ->
       t <> [] /\ trim t = t /\ Forall (fun c => c <> 0) t /\
       title m = Some t) /\
    (forall a, id3Artist st = Some a ->
       a <> [] /\ trim a = a /\ Forall (fun c => c <> 0) a /\
       artist m = Some a).
Proof.
  intros decode file name.
  destruct (readTags_terminates decode (slice128k file)) as [st [threw H]].
  exists st, threw, (mergeMetadata st name).
  split; [exact H|]. split; [cbn [getTrackMetadata]; now rewrite H|].
  assert (C : (forall t, id3Title st = Some t ->
                 t <> [] /\ trim t = t /\ Forall (fun c => c <> 0) t) /\
              (forall a, id3Artist st = Some a ->
                 a <> [] /\ trim a = a /\ Forall (fun c => c <> 0) a)).
  { unfold readTags in H.
    destruct (hasMagic (slice128k file)) as [[|]|].
    - destruct (getUint8 (slice128k file) 3) as [version|].
      + destruct (synchsafe (slice128k file) 6) as [size|].
        * apply walk_clean in H; [exact H | discriminate | discriminate].
        * injection H as <- _. split; discriminate.
      + injection H as <- _. split; discriminate.
    - injection H as <- _. split; discriminate.
    - injection H as <- _. split; discriminate. }
  destruct C as [C1 C2].
  split.
  - intros t E. destruct (C1 t E) as [Hn [Ht Hz]].
    repeat split; auto.
    apply (merge_title st name t E). now rewrite Ht.
  - intros a E. destruct (C2 a E) as [Hn [Ht Hz]].
    repeat split; auto.
    apply (merge_artist st name a E). now rewrite Ht.
Qed.


Lemma land_small : forall a, a < 128 -> N.land a 127 = a.
Proof.
  intros a H. change 127 with (N.ones 7). rewrite N.land_ones.
  apply N.mod_small. exact H.
Qed.

Ltac readBytes :=
  repeat match goal with
  | |- context [getUint8 ?b ?k] =>
      let n := eval vm_compute in (N.to_nat k) in
      change (getUint8 b k) with (nth_error b n)
  end;
  cbn [app nth_error].

Lemma titleTag_turn : forall decode a b enc payload,
  a = N.of_nat (length payload) + 11 -> b = N.of_nat (length payload) + 1 ->
  frameTurn decode
    ([0x49; 0x44; 0x33; 3; 0; 0; 0; 0; 0; a;
      84; 73; 84; 50; 0; 0; 0; b; 0; 0; enc] ++ payload) 3 a (a + 10) 10 =
  Continue (a + 10) (Some (TIT2, decodeText decode enc payload)).
Proof.
  intros decode a b enc payload Ha Hb. unfold frameTurn.
  rewrite (proj2 (N.ltb_ge (a + 10) (10 + 10))) by lia.
  unfold getUint32, synchsafe. readBytes.
  change (84 =? 0) with false. change (3 =? 4) with false. cbn [andb].
  replace (0 * 16777216 + 0 * 65536 + 0 * 256 + b) with b by lia.
  rewrite (proj2 (N.ltb_ge (a + 10) (10 + 10 + b))) by lia.
  change (JS.eqb [84; 73; 84; 50] TIT2) with true. cbn [orb].
  unfold uint8Window, byteLength.
  rewrite (proj2 (N.eqb_neq b 0)) by lia.
  match goal with
  | |- context [N.of_nat (length ?l) <? ?x] =>
      rewrite (proj2 (N.ltb_ge (N.of_nat (length l)) x))
        by (cbn [length]; lia)
  end.
  change (N.to_nat (10 + 10 + 1)) with 21%nat. cbn [skipn].
  replace (N.to_nat (b - 1)) with (length payload) by lia.
  rewrite firstn_all. f_equal. lia.
Qed.

Lemma walk_S : forall decode buffer version size limit fuel offset st,
  walk decode buffer version size limit (S fuel) offset st =
  if offset <? limit then
    match frameTurn decode buffer version size limit offset with
    | Break => Some (st, false)
    | Throw => Some (st, true)
    | Continue offset' None =>
        walk decode buffer version size limit fuel offset' st
    | Continue offset' (Some (frameId, text)) =>
        walk decode buffer version size limit fuel offset'
             (record st frameId text)
    end
  else Some (st, false).
Proof. reflexivity. Qed.

(** X22: an ID3v2.3 tag of one TIT2 frame, the encoding byte and then
    fewer than 117 bytes of text, is read to its end without an exception;
    the title of the track is the text decoded, trimmed and without NUL,
    unless nothing is left of it, and the artist is that of the name of the
    file. *)
Theorem titleTag_is_read : forall decode encoding payload name,
  (length payload < 117)%nat ->
  readTags decode (titleTag encoding payload) =
    Some ({| id3Title := match decodeText decode encoding payload with
                         | [] => None
                         | c :: t => Some (c :: t)
                         end;
             id3Artist := None |}, false) /\
  forall c t, decodeText decode encoding payload = c :: t ->
    exists m,
      getTrackMetadata decode (Some (titleTag encoding payload)) name =
        Some (Normal m) /\
      title m = Some (c :: t) /\
      artist m = artist (mergeMetadata noTags name).
Proof.
  intros decode encoding payload name Hlen.
  assert (R : readTags decode (titleTag encoding payload) =
    Some ({| id3Title := match decodeText decode encoding payload with
                         | [] => None
                         | c :: t => Some (c :: t)
                         end;
             id3Artist := None |}, false)).
  { unfold readTags, titleTag.
    set (a := N.of_nat (length payload) + 11).
    set (b := N.of_nat (length payload) + 1).
    assert (Ha : a < 128) by lia.
    unfold hasMagic, synchsafe. readBytes.
    change (73 =? 73) with true. change (68 =? 68) with true.
    change (51 =? 51) with true. cbv iota beta.
    change (N.lor (N.lor (N.lor (N.shiftl (N.land 0 127) 21)
                                (N.shiftl (N.land 0 127) 14))
                         (N.shiftl (N.land 0 127) 7)) (N.land a 127))
      with (N.land a 127).
    rewrite (land_small a Ha). cbv zeta.
    assert (B : byteLength (73 :: 68 :: 51 :: 3 :: 0 :: 0 :: 0 :: 0 :: 0 ::
                a :: 84 :: 73 :: 84 :: 50 :: 0 :: 0 :: 0 :: b :: 0 :: 0 ::
                encoding :: payload) = a + 10)
      by (unfold byteLength; cbn [length]; lia).
    rewrite B, N.min_id. cbn [length]. rewrite walk_S.
    rewrite (proj2 (N.ltb_lt 10 (a + 10))) by lia.
    pose proof (titleTag_turn decode a b encoding payload eq_refl eq_refl)
      as T.
    cbn [app] in T. rewrite T.
    rewrite walk_S, N.ltb_irrefl. unfold record.
    change (JS.eqb TIT2 TIT2) with true. change (JS.eqb TIT2 TPE1) with false.
    now destruct (decodeText decode encoding payload). }
  split; [exact R|]. intros c t E. cbn [getTrackMetadata].
  assert (S : slice128k (titleTag encoding payload) =
              titleTag encoding payload).
  { unfold slice128k. apply firstn_all2. unfold titleTag.
    rewrite length_app. cbn [length].
    apply Nat.le_trans with (128 * 2)%nat;
      [cbn; lia | apply Nat.mul_le_mono_l; lia]. }
  rewrite S, R, E. clear S R. eexists. split; [reflexivity|].
  destruct (decodeText_clean decode encoding payload) as [Ht _].
  rewrite E in Ht. split.
  - apply merge_title; [reflexivity|]. rewrite Ht. discriminate.
  - reflexivity.
Qed.

Lemma titleTag_is_read_witness :
  readTags asciiDecoder (titleTag 3 (js " My Song" ++ [0])) =
    Some ({| id3Title := Some (js "My Song"); id3Artist := None |}, false).
Proof.
  apply (titleTag_is_read asciiDecoder 3 (js " My Song" ++ [0])
           (js "a - b.mp3")).
  cbn. lia.
Defined.

End Id3Frames.

Module WavLayout.
Import Wav.

Lemma chunks_length : forall {A B} (f : A -> list B) k l,
  (forall a, length (f a) = k) -> length (flat_map f l) = (k * length l)%nat.
Proof.
  intros A B f k l H. induction l as [|a l IH]; cbn [flat_map length].
  - lia.
  - rewrite length_app, H, IH. lia.
Qed.

Lemma chunk_at : forall {A B} (f : A -> list B) k l i x rest,
  (forall a, length (f a) = k) -> nth_error l i = Some x ->
  skipn (k * i) (flat_map f l ++ rest) =
  f x ++ flat_map f (skipn (S i) l) ++ rest.
Proof.
  intros A B f k l i x rest H. revert i.
  induction l as [|a l IH]; intros [|i] E; cbn in E; try discriminate.
  - injection E as ->. rewrite Nat.mul_0_r. cbn [skipn flat_map].
    now rewrite <- app_assoc.
  - cbn [flat_map skipn]. rewrite <- app_assoc.
    replace (k * S i)%nat with (k * i + length (f a))%nat
      by (rewrite H; lia).
    rewrite <- skipn_skipn, skipn_app, skipn_all, Nat.sub_diag.
    cbn [app skipn]. now apply IH.
Qed.

Lemma frameBytes_length : forall channels pos,
  length (frameBytes channels pos) = (2 * length channels)%nat.
Proof.
  intros channels pos. unfold frameBytes.
  apply (chunks_length _ 2). reflexivity.
Qed.

Lemma wavHeader_length : forall numOfChan sampleRate length,
  List.length (wavHeader numOfChan sampleRate length) = 44%nat.
Proof. reflexivity. Qed.

(** X23: the blob has the 44 bytes of the header and two bytes a sample
    of every channel, and the sample at index p >= 44 of the channel c
    stands, clamped and scaled, low byte first, at the byte
    44 + 2 * ((p - 44) * channels + c): the frames are interleaved, and
    they are counted from the index 44, not from 0. *)
Theorem bufferToWav_interleaves : forall channels sampleRate len,
  length (bufferToWav channels sampleRate len) =
    (44 + 2 * (len * length channels))%nat /\
  forall p c ch,
    (44 <= p < len)%nat -> nth_error channels c = Some ch ->
    firstn 2 (skipn (44 + 2 * ((p - 44) * length channels + c))
                    (bufferToWav channels sampleRate len)) =
    int16le (scale (clamp (sampleAt ch p))).
Proof.
  intros channels sampleRate len. unfold bufferToWav. cbv zeta.
  set (n := length channels).
  set (header := wavHeader (Z.of_nat n) sampleRate
                           (Z.of_nat len * Z.of_nat n * 2 + 44)).
  set (frames := flat_map (frameBytes channels) (seq 44 (len - 44))).
  assert (Hh : length header = 44%nat) by apply wavHeader_length.
  assert (Hf : length frames = (2 * n * (len - 44))%nat).
  { unfold frames. rewrite (chunks_length _ (2 * n)%nat).
    - now rewrite length_seq.
    - intros pos. apply frameBytes_length. }
  split.
  - rewrite !length_app, repeat_length, Hh, Hf. nia.
  - intros p c ch Hp Hc.
    replace (44 + 2 * ((p - 44) * n + c))%nat
      with ((2 * c + (2 * n) * (p - 44)) + length header)%nat
      by (rewrite Hh; lia).
    rewrite <- app_assoc, <- skipn_skipn, skipn_app.
    rewrite skipn_all, Nat.sub_diag. cbn [app skipn].
    rewrite <- skipn_skipn. unfold frames.
    rewrite (chunk_at (frameBytes channels) (2 * n)%nat _ (p - 44) p).
    + unfold frameBytes at 1.
      rewrite (chunk_at (fun ch => int16le (scale (clamp (sampleAt ch p))))
                        2%nat channels c ch) by (reflexivity || exact Hc).
      reflexivity.
    + intros pos. apply frameBytes_length.
    + rewrite nth_error_seq.
      replace (p - 44 <? len - 44)%nat with true
        by (symmetry; apply Nat.ltb_lt; lia).
      f_equal. lia.
Qed.

Lemma bufferToWav_interleaves_witness :
  firstn 2 (skipn (44 + 2 * ((45 - 44) * 2 + 1))
                  (bufferToWav [repeat 0%Q 46; repeat (1 # 2)%Q 46]
                               44100 46)) =
  [255; 63]%Z.
Proof.
  apply (proj2 (bufferToWav_interleaves [repeat 0%Q 46; repeat (1 # 2)%Q 46]
                  44100 46) 45%nat 1%nat (repeat (1 # 2)%Q 46)).
  - lia.
  - reflexivity.
Defined.

End WavLayout.

Module BulkUpload.
Import Orchestrator Bulk Session JSFacts BulkFacts SessionFacts SessionLaws.

Lemma lastUpdate_app : forall i l1 l2,
  lastUpdate i (l1 ++ l2) =
  match lastUpdate i l2 with
  | Some c => Some c
  | None => lastUpdate i l1
  end.
Proof.
  intros i. induction l1 as [|[j c] l1 IH]; intros l2; cbn [app lastUpdate].
  - now destruct (lastUpdate i l2).
  - rewrite IH. destruct (lastUpdate i l2); [reflexivity|].
    now destruct (lastUpdate i l1).
Qed.

Lemma lastUpdate_none : forall i l,
  (forall c, ~ In (i, c) l) -> lastUpdate i l = None.
Proof.
  intros i. induction l as [|[j c] l IH]; intros H; [reflexivity|].
  cbn [lastUpdate]. rewrite IH.
  - destruct (JS.eqb i j) eqn:E; [|reflexivity].
    apply eqb_eq in E. subst j. exfalso. apply (H c). now left.
  - intros c' Hc'. apply (H c'). now right.
Qed.

Lemma collected_elsewhere : forall toLowerCase tracks files t,
  NoDup (map id tracks) -> In t tracks ->
  Forall (fun g => findTrack toLowerCase tracks g <> Some t) files ->
  forall c, ~ In (id t, c) (collectUpdates toLowerCase tracks files).
Proof.
  intros toLowerCase tracks files t Hnd Ht H c Hin.
  rewrite collectUpdates_spec in Hin. apply in_flat_map in Hin as [g [Hg Hin]].
  rewrite Forall_forall in H. specialize (H g Hg).
  destruct (findTrack toLowerCase tracks g) as [t'|] eqn:F; [|destruct Hin].
  destruct Hin as [Hin|[]]. injection Hin as Hid _.
  apply H. f_equal. unfold findTrack in F. apply find_some in F as [F _].
  now apply (NoDup_ids_eq tracks).
Qed.

(** X24: a bulk upload of LRC files, on tracks of distinct identifiers:
    a track takes the content of the last of the files that go to it and
    becomes COMPLETED, and a track to which no file goes is left as it
    was.  The alert counts the files matched, not the tracks updated. *)
Theorem bulk_upload_last_file_wins :
  forall toLowerCase tracks files updates shown t,
  NoDup (map id tracks) -> In t tracks ->
  handleBulkLrcUpload toLowerCase tracks files = Some (updates, shown) ->
  (forall before f after,
     files = before ++ f :: after ->
     findTrack toLowerCase tracks f = Some t ->
     Forall (fun g => findTrack toLowerCase tracks g <> Some t) after ->
     In (uploaded (content f) t) (handleBulkUploadLrc updates tracks)) /\
  (Forall (fun g => findTrack toLowerCase tracks g <> Some t) files ->
   In t (handleBulkUploadLrc updates tracks)) /\
  (shown = NoMatchingTracks /\
     Forall (fun g => findTrack toLowerCase tracks g = None) files \/
   shown = Matched
     (length (filter (fun g => match findTrack toLowerCase tracks g with
                               | Some _ => true
                               | None => false
                               end) files))).
Proof.
  intros toLowerCase tracks files updates shown t Hnd Ht H.
  assert (U : updates = collectUpdates toLowerCase tracks files /\
              (shown = NoMatchingTracks /\ updates = [] \/
               shown = Matched (length updates))).
  { unfold handleBulkLrcUpload in H. destruct files as [|f files];
      [discriminate|].
    destruct (collectUpdates toLowerCase tracks (f :: files)) as [|u us];
      injection H as <- <-; split; auto. }
  destruct U as [-> Hs].
  rewrite (handleBulkUploadLrc_map
             (collectUpdates toLowerCase tracks files) tracks Hnd).
  split; [|split].
  - intros before f after -> Hf Ha.
    apply in_map_iff. exists t. split; [|exact Ht].
    rewrite collectUpdates_spec, flat_map_app, lastUpdate_app.
    cbn [flat_map]. rewrite Hf. rewrite lastUpdate_app.
    rewrite <- collectUpdates_spec.
    rewrite (lastUpdate_none (id t)
               (collectUpdates toLowerCase tracks after))
      by (now apply collected_elsewhere).
    cbn [lastUpdate]. now rewrite eqb_refl.
  - intros Hn. apply in_map_iff. exists t. split; [|exact Ht].
    now rewrite lastUpdate_none by (now apply collected_elsewhere).
  - assert (L : length (collectUpdates toLowerCase tracks files) =
                length (filter (fun g =>
                          match findTrack toLowerCase tracks g with
                          | Some _ => true
                          | None => false
                          end) files)).
    { clear. induction files as [|g files IH]; [reflexivity|].
      cbn [collectUpdates filter].
      destruct (findTrack toLowerCase tracks g); cbn [length]; now rewrite IH. }
    destruct Hs as [[-> Hu] | ->].
    + left. split; [reflexivity|].
      rewrite Hu in L. clear - L.
      induction files as [|g files IH]; [constructor|].
      cbn [filter] in L.
      destruct (findTrack toLowerCase tracks g) eqn:F; [discriminate|].
      constructor; [exact F | now apply IH].
    + right. now rewrite L.
Qed.

Lemma bulk_tracks_ids : NoDup (map id [liveTrack; songTrack]).
Proof. repeat constructor; cbn; intuition discriminate. Qed.

Lemma bulk_upload_last_file_wins_witness :
  In (uploaded (content songFile) liveTrack)
     (handleBulkUploadLrc [(js "1", content songFile)]
                          [liveTrack; songTrack]).
Proof.
  apply (proj1 (bulk_upload_last_file_wins asciiLower [liveTrack; songTrack]
                  [songFile; otherFile] [(js "1", content songFile)]
                  (Matched 1) liveTrack bulk_tracks_ids
                  (or_introl eq_refl) eq_refl)
               [] songFile [otherFile]).
  - reflexivity.
  - reflexivity.
  - constructor; [discriminate | constructor].
Defined.

End BulkUpload.

Module ButtonCount.
Import Orchestrator Session.

Lemma pending_or_kept : forall t,
  negb (isCompleted (status t)) =
  isPending t ||
  (negb (isCompleted (status t)) &&
   match lrcContent t with
   | Some c => negb (JS.eqb (trim c) [])
   | None => false
   end) /\
  (isPending t = true ->
   negb (isCompleted (status t)) &&
   match lrcContent t with
   | Some c => negb (JS.eqb (trim c) [])
   | None => false
   end = false).
Proof.
  intros t. unfold isPending.
  destruct (isCompleted (status t)); cbn [negb andb orb]; [now split|].
  destruct (lrcContent t) as [c|]; cbn [truthy negb orb]; [|now split].
  destruct c as [|c0 c]; [now split|]. cbn [truthy negb orb].
  destruct (trim (c0 :: c)); now split.
Qed.

(** X25: the number on the button that starts the batch is the number of
    tracks the batch generates plus the number of tracks that are not
    COMPLETED and yet carry lyrics that are not blank: those are counted
    and left alone.  So the batch never generates more tracks than the
    button counts, and it generates as many where no such track is. *)
Theorem button_counts_skipped_tracks : forall tracks,
  let kept := filter (fun t => negb (isCompleted (status t)) &&
                               match lrcContent t with
                               | Some c => negb (JS.eqb (trim c) [])
                               | None => false
                               end) tracks in
  pendingTracksCount tracks =
    (length (pendingTracks tracks) + length kept)%nat /\
  (length (pendingTracks tracks) <= pendingTracksCount tracks)%nat /\
  (kept = [] -> pendingTracksCount tracks = length (pendingTracks tracks)).
Proof.
  intros tracks kept.
  assert (E : pendingTracksCount tracks =
              (length (pendingTracks tracks) + length kept)%nat).
  { subst kept. unfold pendingTracksCount, pendingTracks.
    induction tracks as [|t tracks IH]; [reflexivity|].
    cbn [filter]. destruct (pending_or_kept t) as [H1 H2].
    set (k := negb (isCompleted (status t)) &&
              match lrcContent t with
              | Some c => negb (JS.eqb (trim c) [])
              | None => false
              end) in *.
    set (n := negb (isCompleted (status t))) in *.
    set (p := isPending t) in *. clearbody k n p. subst n.
    destruct p; [rewrite (H2 eq_refl)|]; cbn [orb];
      [|destruct k]; cbn [length]; lia. }
  split; [exact E|]. split; [lia|]. intros K. rewrite E, K. cbn. lia.
Qed.

(** Of the three tracks of the batch, two are not completed and carry no
    lyrics: the button counts the two that the batch generates. *)
Lemma button_counts_skipped_tracks_witness :
  pendingTracksCount batchTracks = 2%nat /\
  length (pendingTracks batchTracks) = 2%nat.
Proof.
  pose proof (button_counts_skipped_tracks batchTracks) as P.
  cbv zeta in P. destruct P as [_ [_ H]].
  rewrite H by reflexivity. split; reflexivity.
Defined.

End ButtonCount.

Module DataUrlFacts.
Import DataUrl JSFacts.

Lemma startsWith_nil : forall s, startsWith s [] = true.
Proof. now destruct s. Qed.

Lemma split_comma_cut : forall s cur rest,
  Forall (fun c => c <> 44) s ->
  split_go [44] 0 cur (s ++ 44 :: rest) = (cur ++ s) :: split_go [44] 0 [] rest.
Proof.
  induction s as [|x s IH]; intros cur rest H.
  - cbn. now rewrite startsWith_nil, app_nil_r.
  - inversion H as [|? ? Hx Hs]; subst. cbn [app split_go startsWith].
    apply N.eqb_neq in Hx. rewrite N.eqb_sym in Hx. rewrite Hx. cbn [andb].
    rewrite IH by assumption. now rewrite <- app_assoc.
Qed.

Lemma split_comma_last : forall s cur,
  Forall (fun c => c <> 44) s -> split_go [44] 0 cur s = [cur ++ s].
Proof.
  induction s as [|x s IH]; intros cur H.
  - cbn. now rewrite app_nil_r.
  - inversion H as [|? ? Hx Hs]; subst. cbn [split_go startsWith].
    apply N.eqb_neq in Hx. rewrite N.eqb_sym in Hx. rewrite Hx. cbn [andb].
    rewrite IH by assumption. now rewrite <- app_assoc.
Qed.

(** X26: the Base64 text taken from a data URL is what stands between
    its first comma and its second, or its end: the whole payload when the
    payload holds no comma; it is undefined when the URL holds no comma. *)
Theorem base64String_is_payload : forall intro payload,
  Forall (fun c => c <> 44) intro -> Forall (fun c => c <> 44) payload ->
  base64String intro = None /\
  base64String (intro ++ 44 :: payload) = Some payload /\
  forall rest, base64String (intro ++ 44 :: payload ++ 44 :: rest) =
               Some payload.
Proof.
  intros intro payload Hi Hp. unfold base64String, split.
  change (js ",") with [44]. split; [|split].
  - now rewrite split_comma_last.
  - rewrite split_comma_cut, split_comma_last by assumption. reflexivity.
  - intros rest. rewrite !split_comma_cut by assumption. reflexivity.
Qed.

Lemma base64String_is_payload_witness :
  base64String (js "data:audio/wav;base64") = None /\
  base64String (js "data:audio/wav;base64" ++ 44 :: js "UklGRg==") =
    Some (js "UklGRg==") /\
  forall rest,
    base64String (js "data:audio/wav;base64" ++ 44 :: js "UklGRg==" ++
                  44 :: rest) = Some (js "UklGRg==").
Proof.
  apply (base64String_is_payload (js "data:audio/wav;base64")
           (js "UklGRg=="));
    repeat constructor; discriminate.
Defined.

End DataUrlFacts.

Module SettingsFacts.
Import Settings.
Local Open Scope Z_scope.

(** X27: the target line length starts at 30 and never falls below 10,
    whatever is typed and however often the buttons are pressed; nothing
    bounds it from above: each press of the button plus adds 5. *)
Theorem line_length_at_least_10 :
  (forall edits, 10 <= fold_left setMaxLineLength edits initialLength) /\
  (forall n, fold_left setMaxLineLength (repeat Increase n) initialLength =
             30 + 5 * Z.of_nat n).
Proof.
  split.
  - intros edits. assert (H : forall m, 10 <= m -> 10 <= fold_left setMaxLineLength edits m).
    { induction edits as [|e edits IH]; intros m Hm; [exact Hm|].
      cbn [fold_left]. apply IH. destruct e as [| |[v|]]; cbn; lia. }
    apply H. unfold initialLength. lia.
  - assert (H : forall n m,
              fold_left setMaxLineLength (repeat Increase n) m =
              m + 5 * Z.of_nat n).
    { induction n as [|n IH]; intros m; cbn [repeat fold_left].
      - cbn. lia.
      - rewrite IH. cbn [setMaxLineLength]. lia. }
    intros n. apply H.
Qed.

End SettingsFacts.
